(** * Phone enrichment pipeline: a shallow embedding and its properties

    The development follows the Go sources of the repository:

    - [phone_scraper.go]: the stand-alone locator and normalizer;
    - [enhanced_phone_scraper.go]: the batch variant (locator, normalizer,
      job runner, worker pool and CSV orchestrator);
    - [web_server.go]: the progress broadcaster.

    Go strings are byte sequences; they are embedded as [list ascii].  All
    character classes used by the program are ASCII, and an ASCII byte is
    never part of a multi-byte UTF-8 sequence, so matching byte by byte
    coincides with Go's matching rune by rune. *)

From Stdlib Require Import Ascii String QArith.
From stdpp Require Import base tactics option list gmap.

Local Open Scope nat_scope.

Abbreviation gostring := (list ascii).

(** Go string literals. *)
Definition str (s : string) : gostring := list_ascii_of_string s.

(* ------------------------------------------------------------------ *)
(** ** The string helpers of Go's [strings] package used by the program *)
(* ------------------------------------------------------------------ *)

Module GoStrings.

Definition byte_is (n : nat) (c : ascii) : bool := Nat.eqb (nat_of_ascii c) n.

(** [strings.HasPrefix]. *)
Fixpoint HasPrefix (s prefix : gostring) : bool :=
  match prefix, s with
  | [], _ => true
  | p :: prefix', c :: s' => Ascii.eqb c p && HasPrefix s' prefix'
  | _ :: _, [] => false
  end.

(** [strings.TrimPrefix]. *)
Definition TrimPrefix (s prefix : gostring) : gostring :=
  if HasPrefix s prefix then drop (length prefix) s else s.

(** [strings.Contains]. *)
Fixpoint Contains (s substr : gostring) : bool :=
  HasPrefix s substr ||
  match s with
  | [] => false
  | _ :: s' => Contains s' substr
  end.

(** [strings.Replace(s, old, new, 1)] for a non-empty [old]: only the
    first occurrence is replaced. *)
Fixpoint ReplaceFirst (s old new : gostring) : gostring :=
  if HasPrefix s old then new ++ drop (length old) s
  else match s with
       | [] => []
       | c :: s' => c :: ReplaceFirst s' old new
       end.

(** The white space of [unicode.IsSpace] in ASCII. *)
Definition asciiSpace (c : ascii) : bool :=
  byte_is 9 c || byte_is 10 c || byte_is 11 c || byte_is 12 c
  || byte_is 13 c || byte_is 32 c.

(** The two-byte UTF-8 encodings of white space: U+0085 and U+00A0. *)
Definition space2 (a b : ascii) : bool :=
  byte_is 194 a && (byte_is 133 b || byte_is 160 b).

(** The three-byte encodings: U+1680, U+2000..U+200A, U+2028, U+2029,
    U+202F, U+205F and U+3000. *)
Definition space3 (a b c : ascii) : bool :=
  (byte_is 225 a && byte_is 154 b && byte_is 128 c)
  || (byte_is 226 a && byte_is 128 b &&
      ((Nat.leb 128 (nat_of_ascii c) && Nat.leb (nat_of_ascii c) 138)
       || byte_is 168 c || byte_is 169 c || byte_is 175 c))
  || (byte_is 226 a && byte_is 129 b && byte_is 159 c)
  || (byte_is 227 a && byte_is 128 b && byte_is 128 c).

(** [strings.TrimLeftFunc(s, unicode.IsSpace)]. *)
Fixpoint TrimLeftSpace (s : gostring) : gostring :=
  match s with
  | [] => []
  | a :: s1 =>
      if asciiSpace a then TrimLeftSpace s1
      else match s1 with
           | [] => s
           | b :: s2 =>
               if space2 a b then TrimLeftSpace s2
               else match s2 with
                    | [] => s
                    | c :: s3 =>
                        if space3 a b c then TrimLeftSpace s3 else s
                    end
           end
  end.

(** The same scan from the end of the string, on the reversed bytes. *)
Fixpoint TrimLeftSpaceRev (s : gostring) : gostring :=
  match s with
  | [] => []
  | c :: s1 =>
      if asciiSpace c then TrimLeftSpaceRev s1
      else match s1 with
           | [] => s
           | b :: s2 =>
               if space2 b c then TrimLeftSpaceRev s2
               else match s2 with
                    | [] => s
                    | a :: s3 =>
                        if space3 a b c then TrimLeftSpaceRev s3 else s
                    end
           end
  end.

(** [strings.TrimSpace]. *)
Definition TrimSpace (s : gostring) : gostring :=
  rev (TrimLeftSpaceRev (rev (TrimLeftSpace s))).

End GoStrings.

(* ------------------------------------------------------------------ *)
(** ** The fragment of Go's [regexp] package used by the program *)
(* ------------------------------------------------------------------ *)

Module Regexp.

(** Every pattern of the program is a sequence of character classes
    with a bounded greedy repetition ([c], [c?], [c{n}], [c{n,m}]),
    possibly between [^] and [$]. *)
Inductive item : Type :=
| Class (cls : ascii -> bool) (lo hi : nat)
| EndText.

Record regexp : Type := MustCompile {
  begin_text : bool;          (* the pattern starts with [^] *)
  body : list item
}.

(** The character classes. *)
Definition digit (c : ascii) : bool :=
  Nat.leb 48 (nat_of_ascii c) && Nat.leb (nat_of_ascii c) 57.
(** [\s] is [[\t\n\f\r ]]. *)
Definition space (c : ascii) : bool :=
  GoStrings.byte_is 9 c || GoStrings.byte_is 10 c || GoStrings.byte_is 12 c
  || GoStrings.byte_is 13 c || GoStrings.byte_is 32 c.
Definition lit (a : ascii) (c : ascii) : bool := Ascii.eqb c a.
Definition either (f g : ascii -> bool) (c : ascii) : bool := f c || g c.

(** Greedy bounded repetition of a class, followed by the continuation
    [k]: as many characters as possible are taken first, and fewer (down
    to [lo]) only when the rest of the pattern fails: the preference
    order of a backtracking matcher, which is Go's leftmost-first
    semantics. *)
Fixpoint rep (cls : ascii -> bool) (k : gostring -> option gostring)
    (lo hi : nat) (s : gostring) : option gostring :=
  let stop := match lo with 0 => k s | S _ => None end in
  match hi with
  | 0 => stop
  | S hi' =>
      match s with
      | c :: s' =>
          if cls c then
            match rep cls k (pred lo) hi' s' with
            | Some m => Some (c :: m)
            | None => stop
            end
          else stop
      | [] => stop
      end
  end.

(** The text matched by the items at the start of [s], if any. *)
Fixpoint match_here (p : list item) : gostring -> option gostring :=
  match p with
  | [] => fun _ => Some []
  | Class cls lo hi :: p' => rep cls (match_here p') lo hi
  | EndText :: p' =>
      fun s => match s with [] => match_here p' [] | _ :: _ => None end
  end.

(** The leftmost match at or after the start of [s]. *)
Fixpoint search (p : list item) (s : gostring) : option gostring :=
  match match_here p s with
  | Some m => Some m
  | None => match s with
            | [] => None
            | _ :: s' => search p s'
            end
  end.

Definition find (re : regexp) (s : gostring) : option gostring :=
  if begin_text re then match_here (body re) s else search (body re) s.

(** Go's [FindString]: the empty string when there is no match. *)
Definition FindString (re : regexp) (s : gostring) : gostring :=
  default [] (find re s).

(** Go's [MatchString]. *)
Definition MatchString (re : regexp) (s : gostring) : bool :=
  match find re s with Some _ => true | None => false end.

(** Go's [ReplaceAllString(s, repl)] for a pattern that is one
    character class: every matching character is replaced. *)
Fixpoint ReplaceAllString (cls : ascii -> bool) (s repl : gostring) : gostring :=
  match s with
  | [] => []
  | c :: s' =>
      if cls c then repl ++ ReplaceAllString cls s' repl
      else c :: ReplaceAllString cls s' repl
  end.

End Regexp.

(* ------------------------------------------------------------------ *)
(** ** Normalizer, validator and text-pattern matcher *)
(* ------------------------------------------------------------------ *)

(** [formatPhone] and [isPhoneNumber] are the same in [phone_scraper.go]
    and in the batch scraper. *)
Module PhoneScraper.
Import GoStrings Regexp.

(** The class [[\s\-\(\)]]. *)
Definition separator (c : ascii) : bool :=
  space c || lit "-" c || lit "(" c || lit ")" c.

(** [s[lo:hi]]. *)
Definition slice (lo hi : nat) (s : gostring) : gostring :=
  take (hi - lo) (drop lo s).

(** [fmt.Sprintf("%s %s %s", cleaned[:3], cleaned[3:6], cleaned[6:])]. *)
Definition grouped (cleaned : gostring) : gostring :=
  slice 0 3 cleaned ++ str " " ++ slice 3 6 cleaned ++ str " " ++ drop 6 cleaned.

Definition formatPhone (phone : gostring) : gostring :=
  let cleaned := ReplaceAllString separator phone [] in
  let ten_digits (cleaned : gostring) :=
    if Nat.eqb (length cleaned) 10 && negb (HasPrefix cleaned (str "+"))
    then grouped cleaned
    else phone in
  if HasPrefix cleaned (str "+52") then
    let cleaned := TrimPrefix cleaned (str "+52") in
    if Nat.eqb (length cleaned) 10 then grouped cleaned
    else ten_digits cleaned
  else ten_digits cleaned.

(** [^\+?\d{10,15}$] *)
Definition phonePattern : regexp :=
  MustCompile true [Class (lit "+") 0 1; Class digit 10 15; EndText].

Definition isPhoneNumber (text : gostring) : bool :=
  let cleaned := ReplaceAllString separator text [] in
  MatchString phonePattern cleaned.

(** [\+?52\s?\d{3}\s?\d{3}\s?\d{4}] *)
Definition mexicanPhoneRegex : regexp :=
  MustCompile false
    [Class (lit "+") 0 1; Class (lit "5") 1 1; Class (lit "2") 1 1;
     Class space 0 1; Class digit 3 3; Class space 0 1; Class digit 3 3;
     Class space 0 1; Class digit 4 4].

(** [\d{3}\s?\d{3}\s?\d{4}] *)
Definition tenDigitRegex : regexp :=
  MustCompile false
    [Class digit 3 3; Class space 0 1; Class digit 3 3; Class space 0 1;
     Class digit 4 4].

(** [\d{3}[\s\-]?\d{3}[\s\-]?\d{4}] *)
Definition generalPhoneRegex : regexp :=
  MustCompile false
    [Class digit 3 3; Class (either space (lit "-")) 0 1; Class digit 3 3;
     Class (either space (lit "-")) 0 1; Class digit 4 4].

(** [extractPhoneFromText] of [phone_scraper.go]: three patterns. *)
Definition extractPhoneFromText (text : gostring) : gostring :=
  match FindString mexicanPhoneRegex text with
  | (_ :: _) as m => formatPhone (TrimSpace m)
  | [] =>
      match FindString tenDigitRegex text with
      | (_ :: _) as m => TrimSpace m
      | [] =>
          match FindString generalPhoneRegex text with
          | (_ :: _) as m => TrimSpace m
          | [] => []
          end
      end
  end.

(** [extractPhoneFromText] of the batch scraper: the first two patterns
    only. *)
Definition extractPhoneFromText_batch (text : gostring) : gostring :=
  match FindString mexicanPhoneRegex text with
  | (_ :: _) as m => formatPhone (TrimSpace m)
  | [] =>
      match FindString tenDigitRegex text with
      | (_ :: _) as m => TrimSpace m
      | [] => []
      end
  end.

End PhoneScraper.


(* ------------------------------------------------------------------ *)
(** ** The page-query capability and the locator *)
(* ------------------------------------------------------------------ *)

(** What the locator asks of a rendered page ([go-rod]'s [Page.Elements],
    [Element.Attribute] and [Element.Text]).  A query that fails with an
    error is [None]. *)
Module Dom.

(** The four selectors of [findPhoneNumber]. *)
Inductive Selector : Type :=
| PhoneButtons     (* button[data-item-id*='phone'] *)
| LabelButtons     (* button[aria-label*='Teléfono'] *)
| DisplayBlocks    (* .Io6YTe.fontBodyMedium.kR99db.fdkmkc *)
| AllElements.     (* the universal selector *)

Inductive AttrName : Type := DataItemId | AriaLabel.

Record Element : Type := {
  (** [None]: error; [Some None]: a nil pointer, the attribute is absent. *)
  Attribute : AttrName -> option (option gostring);
  Text : option gostring
}.

Record Page : Type := { Elements : Selector -> option (list Element) }.

End Dom.

Module Locator.
Import GoStrings PhoneScraper Dom.

Definition nonempty (s : gostring) : bool :=
  match s with [] => false | _ :: _ => true end.

(** Each strategy is the body of one [if ...; err == nil] block of
    [findPhoneNumber]: [Some r] when the block executes [return r],
    [None] when control falls through to the next block. *)
Section Strategies.
(** The text-pattern matcher of the file at hand. *)
Variable extract : gostring -> gostring.

(** Estrategia 1: the loop over the phone buttons. *)
Fixpoint phoneButtonsLoop (phoneElements : list Element) : option gostring :=
  match phoneElements with
  | [] => None
  | element :: rest =>
      let buttonText :=
        match Text element with
        | Some text =>
            let extractedPhone := extract text in
            if nonempty extractedPhone then Some extractedPhone
            else phoneButtonsLoop rest
        | None => phoneButtonsLoop rest
        end in
      match Attribute element DataItemId with
      | Some (Some dataItemId) =>
          if Contains dataItemId (str "phone:tel:") then
            Some (formatPhone (ReplaceFirst dataItemId (str "phone:tel:") []))
          else buttonText
      | _ => buttonText
      end
  end.

(** Estrategia 2: the loop over the labelled buttons. *)
Fixpoint labelButtonsLoop (phoneElements : list Element) : option gostring :=
  match phoneElements with
  | [] => None
  | element :: rest =>
      match Attribute element AriaLabel with
      | Some (Some ariaLabel) =>
          let extractedPhone := extract ariaLabel in
          if nonempty extractedPhone then Some extractedPhone
          else labelButtonsLoop rest
      | _ => labelButtonsLoop rest
      end
  end.

(** Estrategia 3: the loop over the display blocks. *)
Fixpoint displayBlocksLoop (phoneElements : list Element) : option gostring :=
  match phoneElements with
  | [] => None
  | element :: rest =>
      match Text element with
      | Some text =>
          let text := TrimSpace text in
          if isPhoneNumber text then Some text else displayBlocksLoop rest
      | None => displayBlocksLoop rest
      end
  end.

(** Estrategia 4: the loop over every element of the page. *)
Fixpoint allElementsLoop (allElements : list Element) : option gostring :=
  match allElements with
  | [] => None
  | element :: rest =>
      match Text element with
      | Some text =>
          if nonempty text then
            let extractedPhone := extract text in
            if nonempty extractedPhone then Some extractedPhone
            else allElementsLoop rest
          else allElementsLoop rest
      | None => allElementsLoop rest
      end
  end.

(** [if els, err := page.Elements(sel); err == nil ... { loop }]. *)
Definition strategy (page : Page) (sel : Selector)
    (loop : list Element -> option gostring) : option gostring :=
  match Elements page sel with
  | Some els => loop els
  | None => None
  end.

Definition strategy1 (page : Page) := strategy page PhoneButtons phoneButtonsLoop.
Definition strategy2 (page : Page) := strategy page LabelButtons labelButtonsLoop.
Definition strategy3 (page : Page) := strategy page DisplayBlocks displayBlocksLoop.
Definition strategy4 (page : Page) := strategy page AllElements allElementsLoop.
End Strategies.

(** [findPhoneNumber] of [phone_scraper.go]: four strategies. *)
Definition findPhoneNumber (page : Page) : gostring :=
  match strategy1 extractPhoneFromText page with
  | Some r => r
  | None =>
  match strategy2 extractPhoneFromText page with
  | Some r => r
  | None =>
  match strategy3 page with
  | Some r => r
  | None =>
  match strategy4 extractPhoneFromText page with
  | Some r => r
  | None => []
  end end end end.

(** [findPhoneNumber] of the batch scraper: it ends after the third
    strategy. *)
Definition findPhoneNumber_batch (page : Page) : gostring :=
  match strategy1 extractPhoneFromText_batch page with
  | Some r => r
  | None =>
  match strategy2 extractPhoneFromText_batch page with
  | Some r => r
  | None =>
  match strategy3 page with
  | Some r => r
  | None => []
  end end end.

End Locator.

(* ------------------------------------------------------------------ *)
(** ** The extraction job runner (batch scraper) *)
(* ------------------------------------------------------------------ *)

Module JobRunner.
Import Dom Locator.

(** The errors built with [fmt.Errorf]. *)
Inductive error : Type :=
| ErrNavigate      (* "failed to navigate to URL: ..." *)
| ErrNoPhone       (* "no phone found" *)
| ErrTimeout.      (* "timeout finding phone" *)

(** A Go result [(string, error)]; [None] is the nil error. *)
Definition result : Type := gostring * option error.

(** [time.Second] and [phoneTimeout], in milliseconds. *)
Definition Second : N := 1000.
Definition phoneTimeout : N := 30 * Second.

(** The channels [findPhoneWithTimeout] selects on: [done] and
    [errChan] have capacity 1, [ctx.Done()] is closed when the
    deadline elapses. *)
Record chans : Type := {
  done : option gostring;
  errChan : option error;
  ctx_done : bool
}.

(** What can happen during a call of [findPhoneWithTimeout], once its
    goroutine is started. *)
Inductive event : Type :=
| SelectReached      (* the caller arrives at the [select] *)
| LookupReturns      (* [findPhoneNumber] returns in the goroutine *)
| DeadlineElapses.   (* the timer of the context closes [ctx.Done()] *)

(** The goroutine of [findPhoneWithTimeout], once [findPhoneNumber]
    has returned [phone]: one buffered send, which never blocks. *)
Definition lookup_sends (phone : gostring) (c : chans) : chans :=
  if nonempty phone
  then {| done := Some phone; errChan := errChan c; ctx_done := ctx_done c |}
  else {| done := done c; errChan := Some ErrNoPhone; ctx_done := ctx_done c |}.

(** The cases of the [select] that can proceed, each with the result it
    returns and the channels after the receive. *)
Definition ready (c : chans) : list (result * chans) :=
  match done c with
  | Some phone =>
      [((phone, None), {| done := None; errChan := errChan c; ctx_done := ctx_done c |})]
  | None => []
  end ++
  match errChan c with
  | Some err =>
      [(([], Some err), {| done := done c; errChan := None; ctx_done := ctx_done c |})]
  | None => []
  end ++
  (if ctx_done c then [(([], Some ErrTimeout), c)] else []).

(** The [select]: it blocks ([None]) while no case is ready, and takes
    one of the ready cases otherwise, chosen by [pick] when several are
    (Go chooses at random). *)
Definition select (pick : nat) (c : chans) : option (result * chans) :=
  ready c !! (pick mod length (ready c)).

(** Where the caller of [findPhoneWithTimeout] is. *)
Inductive caller : Type :=
| Arriving                (* between the [go] statement and the [select] *)
| InSelect                (* blocked in the [select] *)
| Left (r : result).      (* returned from the [select] with [r] *)

(** The state of one call: the channels, whether the lookup goroutine
    is still running, and where the caller is. *)
Record call : Type := {
  ch : chans;
  lookup_running : bool;
  at_select : caller
}.

(** The value returned by the caller, if it has returned. *)
Definition returned (st : call) : option result :=
  match at_select st with
  | Left r => Some r
  | _ => None
  end.

(** The caller evaluates the [select]: it leaves with a ready case, or
    waits when there is none. *)
Definition selects (pick : nat) (st : call) : call :=
  match select pick (ch st) with
  | Some (r, c) => {| ch := c; lookup_running := lookup_running st; at_select := Left r |}
  | None => {| ch := ch st; lookup_running := lookup_running st; at_select := InSelect |}
  end.

(** A caller waiting in the [select] is woken by whatever makes a case
    ready. *)
Definition wakes (pick : nat) (st : call) : call :=
  match at_select st with
  | InSelect => selects pick st
  | _ => st
  end.

(** One event.  The lookup is given the page only, not the context, so
    nothing stops it; it finds [phone] on the page while the caller has
    not returned, and [late] when the caller has: the caller of
    [findPhoneWithTimeout] closes the page when it returns (the deferred
    [page.Close()] of [ExtractPhoneFromGoogleMapsURL]), under the lookup
    that is still reading it. *)
Definition occurs (phone late : gostring) (pick : nat) (ev : event) (st : call) : call :=
  match ev with
  | SelectReached =>
      match at_select st with
      | Arriving => selects pick st
      | _ => st
      end
  | LookupReturns =>
      if lookup_running st
      then
        let found := match at_select st with Left _ => late | _ => phone end in
        wakes pick {| ch := lookup_sends found (ch st); lookup_running := false;
                      at_select := at_select st |}
      else st
  | DeadlineElapses =>
      wakes pick
        {| ch := {| done := done (ch st); errChan := errChan (ch st); ctx_done := true |};
           lookup_running := lookup_running st; at_select := at_select st |}
  end.

(** What the environment decides about one call: the order in which
    the caller reaches the [select], the lookup returns and the deadline
    elapses (the context is created before the navigation, so the
    deadline can elapse before the call starts: it is then the first
    event), the choice of the [select] among ready cases, and what the
    lookup finds on a page that is closed under it. *)
Record schedule : Type := {
  events : list event;
  pick : nat;
  late : gostring
}.

Definition run_events (phone late : gostring) (pick : nat) (evs : list event)
    (st : call) : call :=
  foldl (fun st ev => occurs phone late pick ev st) st evs.

(** [findPhoneWithTimeout]: two empty channels, the goroutine started,
    then the [select]. *)
Definition findPhoneWithTimeout_call (page : Page) (sch : schedule) : call :=
  run_events (findPhoneNumber_batch page) (late sch) (pick sch) (events sch)
    {| ch := {| done := None; errChan := None; ctx_done := false |};
       lookup_running := true; at_select := Arriving |}.

(** [None]: the caller has not returned at the end of the schedule. *)
Definition findPhoneWithTimeout (page : Page) (sch : schedule) : option result :=
  returned (findPhoneWithTimeout_call page sch).

(** The order of two events: by their instants, and by [tie] when the
    instants are the same. *)
Definition earlier (tie : event -> N) (a b : N * event) : bool :=
  if N.eqb a.1 b.1 then N.leb (tie a.2) (tie b.2) else N.ltb a.1 b.1.

Fixpoint place_event (tie : event -> N) (a : N * event) (l : list (N * event))
    : list (N * event) :=
  match l with
  | [] => [a]
  | b :: l' => if earlier tie a b then a :: b :: l' else b :: place_event tie a l'
  end.

(** The schedule fixed by the instants (in milliseconds from the
    creation of the context) at which the [select] is reached and at
    which the lookup returns ([None]: it never does); the deadline
    elapses at [phoneTimeout]. *)
Definition schedule_at (select_at : N) (lookup_at : option N)
    (tie : event -> N) (pick : nat) (late : gostring) : schedule :=
  let stamps :=
    (select_at, SelectReached) :: (phoneTimeout, DeadlineElapses)
    :: match lookup_at with
       | Some t => [(t, LookupReturns)]
       | None => []
       end in
  {| events := map snd (foldr (place_event tie) [] stamps);
     pick := pick; late := late |}.

(** What one visit of a URL meets: whether [MustPage] opens a page,
    whether [Navigate] succeeds, whether [MustWaitStable] returns
    ([Settles]), panics or waits for ever, then the page and the schedule
    of the lookup. *)
Inductive wait : Type := Settles | WaitPanics | NeverSettles.

Record visit : Type := {
  page_opens : bool;
  navigate_ok : bool;
  settles : wait;
  page : Page;
  sched : schedule
}.

(** What a call of [ExtractPhoneFromGoogleMapsURL] comes to: it returns
    a result, it panics ([MustPage], [MustWaitStable]), or it has not
    returned (the page never settles, or the caller is still in the
    [select] at the end of the schedule). *)
Inductive outcome : Type :=
| Reports (r : result)
| Panics
| Pending.

(** [ExtractPhoneFromGoogleMapsURL].  Only the [select] of
    [findPhoneWithTimeout] looks at the context. *)
Definition ExtractPhoneFromGoogleMapsURL (v : visit) : outcome :=
  if negb (page_opens v) then Panics
  else if negb (navigate_ok v) then Reports ([], Some ErrNavigate)
  else
    match settles v with
    | WaitPanics => Panics
    | NeverSettles => Pending
    | Settles =>
        match findPhoneWithTimeout (page v) (sched v) with
        | Some (phone, Some err) => Reports ([], Some err)
        | Some (phone, None) => Reports (phone, None)
        | None => Pending
        end
    end.

End JobRunner.

(* ------------------------------------------------------------------ *)
(** ** Records and the worker pool *)
(* ------------------------------------------------------------------ *)

Record PlaceWithPhone : Type := {
  Name : gostring;
  Address : gostring;
  Stars : gostring;
  Reviews : gostring;
  Phone : gostring;
  Hours : gostring;
  Website : gostring;
  GoogleURL : gostring;
  ScrapedPhone : gostring
}.

(** [place.ScrapedPhone = phone]. *)
Definition set_ScrapedPhone (phone : gostring) (place : PlaceWithPhone) : PlaceWithPhone :=
  {| Name := Name place; Address := Address place; Stars := Stars place;
     Reviews := Reviews place; Phone := Phone place; Hours := Hours place;
     Website := Website place; GoogleURL := GoogleURL place;
     ScrapedPhone := phone |}.

Definition is_empty (s : gostring) : bool :=
  match s with [] => true | _ :: _ => false end.

(** [maxPhoneWorkers]. *)
Definition maxPhoneWorkers : nat := 3.

(** The outcome of the call [scraper.ExtractPhoneFromGoogleMapsURL(url)]
    made for the record at a given index. *)
Definition extractor : Type := nat -> gostring -> JobRunner.result.

Module Pool.
Import JobRunner.

(** [place.Phone == "" && place.GoogleURL != ""]. *)
Definition eligible (place : PlaceWithPhone) : bool :=
  is_empty (Phone place) && negb (is_empty (GoogleURL place)).

(** [if err == nil && phone != "" { place.ScrapedPhone = phone }]. *)
Definition store (r : result) (place : PlaceWithPhone) : PlaceWithPhone :=
  match r with
  | (phone, None) => if is_empty phone then place else set_ScrapedPhone phone place
  | (_, Some _) => place
  end.

(** Where the goroutine started for one index stands. *)
Inductive worker_pc : Type :=
| NotStarted      (* the loop of the main goroutine has not reached it *)
| AtAcquire       (* before [semaphore <- struct{}{}] *)
| AtCheck         (* before the test of [place.Phone] and [place.GoogleURL] *)
| Extracting      (* inside [ExtractPhoneFromGoogleMapsURL] *)
| Pacing          (* inside [time.Sleep(1 * time.Second)] *)
| AtRelease       (* body finished; before the deferred [<-semaphore] *)
| AtBarAdd        (* before the deferred [bar.Add(1)] *)
| AtWgDone        (* before the deferred [wg.Done()] *)
| Finished.

(** A worker and the ghost flag telling whether the token it sent on
    the semaphore channel is still in the channel. *)
Record worker : Type := { pc : worker_pc; slot : bool }.

Inductive main_pc : Type :=
| Spawning (i : nat)   (* [for i := range updatedPlaces] *)
| Waiting              (* [wg.Wait()] *)
| Returned.

Record state : Type := {
  main : main_pc;
  semaphore : nat;                         (* [len(semaphore)] *)
  workers : list worker;
  updatedPlaces : list PlaceWithPhone;
  bar : nat;
  wg : nat
}.

Inductive action : Type :=
| Spawn | LoopExit | WaitReturns
| Acquire (index : nat)
| Check (index : nat)
| ExtractReturns (index : nat)
| SleepDone (index : nat)
| Release (index : nat)
| BarAdd (index : nat)
| WgDone (index : nat).

Definition init (places : list PlaceWithPhone) : state :=
  {| main := Spawning 0; semaphore := 0;
     workers := replicate (length places) {| pc := NotStarted; slot := false |};
     updatedPlaces := places; bar := 0; wg := 0 |}.

Definition pc_eqb (a b : worker_pc) : bool :=
  match a, b with
  | NotStarted, NotStarted | AtAcquire, AtAcquire | AtCheck, AtCheck
  | Extracting, Extracting | Pacing, Pacing | AtRelease, AtRelease
  | AtBarAdd, AtBarAdd | AtWgDone, AtWgDone | Finished, Finished => true
  | _, _ => false
  end.

Section Machine.
(** The capacity of the semaphore channel and the outcomes of the
    extractions. *)
Variable cap : nat.
Variable ext : extractor.

(** A worker at [from] moves on. *)
Definition advance (index : nat) (from : worker_pc) (w' : worker)
    (update : state -> state) (s : state) : option state :=
  match workers s !! index with
  | Some w =>
      if pc_eqb (pc w) from then
        let s' := update s in
        Some {| main := main s'; semaphore := semaphore s';
                workers := <[index := w']> (workers s');
                updatedPlaces := updatedPlaces s'; bar := bar s'; wg := wg s' |}
      else None
  | None => None
  end.

Definition with_semaphore (n : nat) (s : state) : state :=
  {| main := main s; semaphore := n; workers := workers s;
     updatedPlaces := updatedPlaces s; bar := bar s; wg := wg s |}.
Definition with_places (l : list PlaceWithPhone) (s : state) : state :=
  {| main := main s; semaphore := semaphore s; workers := workers s;
     updatedPlaces := l; bar := bar s; wg := wg s |}.
Definition with_bar (n : nat) (s : state) : state :=
  {| main := main s; semaphore := semaphore s; workers := workers s;
     updatedPlaces := updatedPlaces s; bar := n; wg := wg s |}.
Definition with_wg (n : nat) (s : state) : state :=
  {| main := main s; semaphore := semaphore s; workers := workers s;
     updatedPlaces := updatedPlaces s; bar := bar s; wg := n |}.
Definition with_main (m : main_pc) (s : state) : state :=
  {| main := m; semaphore := semaphore s; workers := workers s;
     updatedPlaces := updatedPlaces s; bar := bar s; wg := wg s |}.

(** One atomic step of [processPlacesWithPhones]; [None] when the
    action cannot be taken in [s] (a send on a full channel blocks, as
    does [wg.Wait()] on a non-zero counter). *)
Definition exec (a : action) (s : state) : option state :=
  match a with
  | Spawn =>
      match main s with
      | Spawning i =>
          if Nat.ltb i (length (updatedPlaces s)) then
            advance i NotStarted {| pc := AtAcquire; slot := false |}
              (fun s => with_main (Spawning (S i)) (with_wg (S (wg s)) s)) s
          else None
      | _ => None
      end
  | LoopExit =>
      match main s with
      | Spawning i =>
          if Nat.ltb i (length (updatedPlaces s)) then None
          else Some (with_main Waiting s)
      | _ => None
      end
  | WaitReturns =>
      match main s, wg s with
      | Waiting, 0 => Some (with_main Returned s)
      | _, _ => None
      end
  | Acquire index =>
      if Nat.ltb (semaphore s) cap then
        advance index AtAcquire {| pc := AtCheck; slot := true |}
          (fun s => with_semaphore (S (semaphore s)) s) s
      else None
  | Check index =>
      match updatedPlaces s !! index with
      | Some place =>
          if eligible place
          then advance index AtCheck {| pc := Extracting; slot := true |} id s
          else advance index AtCheck {| pc := AtRelease; slot := true |} id s
      | None => None
      end
  | ExtractReturns index =>
      match updatedPlaces s !! index with
      | Some place =>
          advance index Extracting {| pc := Pacing; slot := true |}
            (fun s => with_places
               (<[index := store (ext index (GoogleURL place)) place]> (updatedPlaces s)) s) s
      | None => None
      end
  | SleepDone index =>
      advance index Pacing {| pc := AtRelease; slot := true |} id s
  | Release index =>
      advance index AtRelease {| pc := AtBarAdd; slot := false |}
        (fun s => with_semaphore (pred (semaphore s)) s) s
  | BarAdd index =>
      advance index AtBarAdd {| pc := AtWgDone; slot := false |}
        (fun s => with_bar (S (bar s)) s) s
  | WgDone index =>
      advance index AtWgDone {| pc := Finished; slot := false |}
        (fun s => with_wg (pred (wg s)) s) s
  end.

(** The state after a sequence of steps. *)
Fixpoint run (trace : list action) (s : state) : option state :=
  match trace with
  | [] => Some s
  | a :: trace' =>
      match exec a s with
      | Some s' => run trace' s'
      | None => None
      end
  end.

Definition reachable (places : list PlaceWithPhone) (s : state) : Prop :=
  exists trace, run trace (init places) = Some s.

(** The number of workers that satisfy [p]. *)
Fixpoint count (p : worker -> bool) (ws : list worker) : nat :=
  match ws with
  | [] => 0
  | w :: ws' => (if p w then 1 else 0) + count p ws'
  end.

Definition holding (s : state) : nat := count slot (workers s).
Definition extracting (s : state) : nat :=
  count (fun w => pc_eqb (pc w) Extracting) (workers s).

End Machine.

End Pool.

(** The slice returned by [processPlacesWithPhones]: every goroutine
    writes only the element of its own index. *)
Fixpoint processPlacesFrom (ext : extractor) (index : nat)
    (places : list PlaceWithPhone) : list PlaceWithPhone :=
  match places with
  | [] => []
  | place :: rest =>
      (if Pool.eligible place
       then Pool.store (ext index (GoogleURL place)) place
       else place) :: processPlacesFrom ext (S index) rest
  end.

Definition processPlacesWithPhones (ext : extractor)
    (places : list PlaceWithPhone) : list PlaceWithPhone :=
  processPlacesFrom ext 0 places.

(* ------------------------------------------------------------------ *)
(** ** The CSV orchestrator *)
(* ------------------------------------------------------------------ *)

Module Orchestrator.

Inductive error : Type :=
| ErrReadingCSV       (* "error reading CSV: ..." *)
| ErrNoPlaces         (* "no places found in CSV" *)
| ErrCreatingScraper  (* "error creating phone scraper: ..." *)
| ErrSaving.          (* "error saving updated CSV: ..." *)

Definition field (record : list gostring) (i : nat) : gostring :=
  default [] (record !! i).

(** The loop of [readCSV] over [records[1:]]. *)
Fixpoint readRows (records : list (list gostring)) : list PlaceWithPhone :=
  match records with
  | [] => []
  | record :: rest =>
      if Nat.ltb (length record) 8 then readRows rest
      else {| Name := field record 0; Address := field record 1;
              Stars := field record 2; Reviews := field record 3;
              Phone := field record 4; Hours := field record 5;
              Website := field record 6; GoogleURL := field record 7;
              ScrapedPhone := [] |} :: readRows rest
  end.

(** [readCSV], from what [os.Open] and [reader.ReadAll] give: the
    records of the file, [None] when either fails.  [ReadAll] fails on a
    file whose records do not all have as many fields as the first. *)
Definition readCSV (file : option (list (list gostring))) : option (list PlaceWithPhone) :=
  match file with
  | None => None
  | Some records =>
      if Nat.ltb (length records) 2 then None
      else Some (readRows (drop 1 records))
  end.

(** The loop counting [place.ScrapedPhone != ""]. *)
Fixpoint countPhonesFound (updatedPlaces : list PlaceWithPhone) : nat :=
  match updatedPlaces with
  | [] => 0
  | place :: rest =>
      (if is_empty (ScrapedPhone place) then 0 else 1) + countPhonesFound rest
  end.

(** The percentage printed with the count,
    [float64(phonesFound)/float64(len(updatedPlaces))*100], as an exact
    rational. *)
Definition percentage (phonesFound total : nat) : Q :=
  (inject_Z (Z.of_nat phonesFound) / inject_Z (Z.of_nat total) * 100)%Q.

(** What [ProcessCSV] leaves behind. *)
Record report : Type := {
  err : option error;
  saved : option (list PlaceWithPhone);   (* the rows of a save that returned no error *)
  total : option nat;                     (* "Total lugares" *)
  phonesFound : option nat;               (* "Teléfonos encontrados" *)
  rate : option Q
}.

Definition failed (e : error) (saved : option (list PlaceWithPhone)) : report :=
  {| err := Some e; saved := saved; total := None; phonesFound := None; rate := None |}.

(** The environment of one run: the content of the input file, whether
    Chrome is installed, the outcomes of the extractions, and whether
    [saveCSVWithPhones] returns no error ([writable]).  What a save that
    fails leaves in the output file is not described: [os.Create] empties
    the file before the first record is written. *)
Record world : Type := {
  file : option (list (list gostring));
  chrome : bool;
  ext : extractor;
  writable : bool
}.

Definition ProcessCSV (w : world) : report :=
  match readCSV (file w) with
  | None => failed ErrReadingCSV None
  | Some places =>
      if Nat.eqb (length places) 0 then failed ErrNoPlaces None
      else if negb (chrome w) then failed ErrCreatingScraper None
      else
        let updatedPlaces := processPlacesWithPhones (ext w) places in
        if negb (writable w) then failed ErrSaving None
        else
          let phonesFound := countPhonesFound updatedPlaces in
          {| err := None; saved := Some updatedPlaces;
             total := Some (length updatedPlaces);
             phonesFound := Some phonesFound;
             rate := Some (percentage phonesFound (length updatedPlaces)) |}
  end.

End Orchestrator.

(* ------------------------------------------------------------------ *)
(** ** The progress broadcaster of the web server *)
(* ------------------------------------------------------------------ *)

Module Broadcaster.

(** A connection ([*websocket.Conn]) is identified by a number; the
    state is the global map [clients]. *)
Abbreviation clients_map := (gmap nat bool).

Inductive event : Type :=
| Connect (conn : nat)                     (* [handleWebSocket] registers *)
| Write (conn : nat) (failed : bool)       (* one turn of the loop of [handleMessages] *)
| ReadError (conn : nat).                  (* [conn.ReadMessage] fails in [handleWebSocket] *)

(** The body of the loop [for client := range clients] for one client:
    [err := client.WriteJSON(msg)], then the removal when [err != nil]. *)
Definition write_to (client : nat) (failed : bool) (clients : clients_map) : clients_map :=
  if failed then delete client clients else clients.

Definition step (ev : event) (clients : clients_map) : clients_map :=
  match ev with
  | Connect conn => <[conn := true]> clients
  | Write conn failed =>
      match clients !! conn with
      | Some _ => write_to conn failed clients
      | None => clients
      end
  | ReadError conn => delete conn clients
  end.

(** [handleMessages] for one message: every registered client is
    written to once; [fails] tells which writes return an error. *)
Definition handleMessage (fails : nat -> bool) (clients : clients_map) : clients_map :=
  foldr (fun client acc => step (Write client (fails client)) acc)
        clients (elements (dom clients)).

(** An event removes an observer. *)
Definition removes (ev : event) (clients : clients_map) (conn : nat) : Prop :=
  is_Some (clients !! conn) /\ step ev clients !! conn = None.

End Broadcaster.

(* ------------------------------------------------------------------ *)
(** ** The output file of the batch scraper *)
(* ------------------------------------------------------------------ *)

Module Output.
Import GoStrings.

(** The header written by [saveCSVWithPhones]. *)
Definition header : list gostring :=
  [str "Name"; str "Address"; str "Stars"; str "Reviews"; str "Phone";
   str "Hours"; str "Website"; str "GoogleURL"; str "ScrapedPhone"].

(** The record written for one place. *)
Definition record (place : PlaceWithPhone) : list gostring :=
  [Name place; Address place; Stars place; Reviews place; Phone place;
   Hours place; Website place; GoogleURL place; ScrapedPhone place].

(** [saveCSVWithPhones]: the records handed to [writer.Write], in
    order, when the file can be created and written. *)
Definition saveCSVWithPhones (places : list PlaceWithPhone) : list (list gostring) :=
  header :: map record places.

(** [strings.Replace(csvPath, ".csv", "_with_phones.csv", 1)] in
    [ProcessCSV]. *)
Definition outputPath (csvPath : gostring) : gostring :=
  ReplaceFirst csvPath (str ".csv") (str "_with_phones.csv").

(** What [encoding/csv]'s [Writer] (comma separator, no CRLF) writes. *)

Definition quote : ascii := ascii_of_nat 34.
Definition lineFeed : ascii := ascii_of_nat 10.
Definition carriageReturn : ascii := ascii_of_nat 13.
Definition backslash : ascii := ascii_of_nat 92.

(** Whether the first rune of a field is white space. *)
Definition first_rune_space (field : gostring) : bool :=
  match field with
  | a :: rest =>
      asciiSpace a ||
      match rest with
      | b :: rest' =>
          space2 a b || match rest' with c :: _ => space3 a b c | [] => false end
      | [] => false
      end
  | [] => false
  end.

Definition special (c : ascii) : bool :=
  Ascii.eqb c lineFeed || Ascii.eqb c carriageReturn || Ascii.eqb c quote
  || Ascii.eqb c ",".

(** [fieldNeedsQuotes]. *)
Definition fieldNeedsQuotes (field : gostring) : bool :=
  match field with
  | [] => false
  | _ :: _ =>
      match field with
      | [a; b] => Ascii.eqb a backslash && Ascii.eqb b "."
      | _ => false
      end
      || existsb special field || first_rune_space field
  end.

(** One field as [Write] writes it: as it is, or between quotes with its
    quotes doubled. *)
Definition writeField (field : gostring) : gostring :=
  if fieldNeedsQuotes field
  then quote :: flat_map (fun c => if Ascii.eqb c quote then [quote; quote] else [c]) field
       ++ [quote]
  else field.

Fixpoint joinFields (fields : list gostring) : gostring :=
  match fields with
  | [] => []
  | [field] => field
  | field :: rest => field ++ ","%char :: joinFields rest
  end.

(** [Writer.Write]: one record, one line. *)
Definition writeRecord (fields : list gostring) : gostring :=
  joinFields (map writeField fields) ++ [lineFeed].

(** The bytes of the file written by [saveCSVWithPhones]. *)
Definition savedFile (places : list PlaceWithPhone) : gostring :=
  concat (map writeRecord (saveCSVWithPhones places)).

End Output.

(* ------------------------------------------------------------------ *)
(** ** The file statistics of the web server *)
(* ------------------------------------------------------------------ *)

Module WebServer.
Import GoStrings.

(** [strings.Split(s, sep)] for a separator of one byte: the pieces
    between the separators, one piece (the empty string) for the empty
    string. *)
Fixpoint Split (s : gostring) (sep : ascii) : list gostring :=
  match s with
  | [] => [[]]
  | c :: s' =>
      if Ascii.eqb c sep then [] :: Split s' sep
      else match Split s' sep with
           | piece :: pieces => (c :: piece) :: pieces
           | [] => [[c]]
           end
  end.

Fixpoint TrimLeftByte (s : gostring) (cut : ascii) : gostring :=
  match s with
  | [] => []
  | c :: s' => if Ascii.eqb c cut then TrimLeftByte s' cut else s
  end.

(** [strings.Trim(s, cutset)] for a cutset of one byte. *)
Definition Trim (s : gostring) (cut : ascii) : gostring :=
  rev (TrimLeftByte (rev (TrimLeftByte s cut)) cut).

Definition newline : ascii := ascii_of_nat 10.

(** The double quote, the cutset of the calls of [strings.Trim]. *)
Definition quote : ascii := ascii_of_nat 34.

(** The test of one column: [len(fields) > i], the field is not empty,
    and it is not empty once its quotes are trimmed. *)
Definition has_phone_at (fields : list gostring) (i : nat) : bool :=
  Nat.ltb i (length fields)
  && negb (is_empty (default [] (fields !! i)))
  && negb (is_empty (Trim (default [] (fields !! i)) quote)).

(** The loop of [countPlacesInCSV] over [lines[1:]]. *)
Fixpoint countPhoneColumns (lines : list gostring) : Z :=
  match lines with
  | [] => 0
  | line :: rest =>
      if is_empty line then countPhoneColumns rest
      else
        let fields := Split line "," in
        ((if has_phone_at fields 4 then 1 else 0)
         + (if has_phone_at fields 8 then 1 else 0)
         + countPhoneColumns rest)%Z
  end.

(** [countPlacesInCSV], from the content of the file ([None] when it
    cannot be opened or read). *)
Definition countPlacesInCSV (content : option gostring) (includePhone : bool) : Z * Z :=
  match content with
  | None => (0, 0)%Z
  | Some content =>
      let lines := Split content newline in
      let placeCount := (Z.of_nat (length lines) - 1)%Z in
      let placeCount := if (placeCount <? 0)%Z then 0%Z else placeCount in
      let phoneCount := if includePhone then countPhoneColumns (drop 1 lines) else 0%Z in
      (placeCount, phoneCount)
  end.

(** [strings.HasSuffix], on the reversed bytes. *)
Definition HasSuffix (s suffix : gostring) : bool :=
  HasPrefix (rev s) (rev suffix).

(** [isValidFilename]: the names [handleDownloadFile] accepts. *)
Definition isValidFilename (filename : gostring) : bool :=
  if negb (HasSuffix filename (str ".csv")) then false
  else if Contains filename (str "..") || Contains filename (str "/") then false
  else HasPrefix filename (str "prospects_").

(** [strings.ReplaceAll(keyword, " ", "_")]: both strings are one byte. *)
Definition sanitize (keyword : gostring) : gostring :=
  map (fun c => if Ascii.eqb c " " then "_"%char else c) keyword.

(** The slice [patterns] of [findLatestCSV]; [radius1] and [radius0] are
    the renderings of the radius by [%.1f] and [%.0f]. *)
Definition patterns (keyword radius1 radius0 : gostring) : list gostring :=
  let sanitizedKeyword := sanitize keyword in
  [ str "prospects_" ++ sanitizedKeyword ++ str "_" ++ radius1 ++ str "km_*.csv";
    str "prospects_" ++ sanitizedKeyword ++ str "_" ++ radius0 ++ str "km_*.csv";
    str "prospects_" ++ sanitizedKeyword ++ str "_*_with_phones.csv";
    str "prospects_" ++ sanitizedKeyword ++ str "_*.csv";
    str "prospects_*_with_phones.csv";
    str "prospects_*.csv" ].

(** The bytes of a reversed path up to its first separator. *)
Fixpoint lastElementRev (r : gostring) : gostring :=
  match r with
  | [] => []
  | c :: r' => if Ascii.eqb c "/" then [] else c :: lastElementRev r'
  end.

(** [filepath.Base] with the separator [/] and no volume name. *)
Definition Base (path : gostring) : gostring :=
  if is_empty path then str "."
  else
    let path := rev (lastElementRev (TrimLeftByte (rev path) "/")) in
    if is_empty path then str "/" else path.

Section FindLatest.

(** [filepath.Glob]: the matches of a pattern, [None] for its error. *)
Variable Glob : gostring -> option (list gostring).

(** [os.Stat] followed by [ModTime]: the time elapsed since the zero
    [time.Time], [None] for the error of [os.Stat]. *)
Variable Stat : gostring -> option Z.

(** The loop over the matches of one pattern, on [latestFile] and
    [latestTime]. *)
Fixpoint matchesLoop (matches : list gostring) (latest : gostring * Z) : gostring * Z :=
  match matches with
  | [] => latest
  | m :: rest =>
      match Stat m with
      | None => matchesLoop rest latest
      | Some modTime =>
          if (latest.2 <? modTime)%Z then matchesLoop rest (m, modTime)
          else matchesLoop rest latest
      end
  end.

(** The loop over the patterns, left at the first pattern after which
    [latestFile] is not empty. *)
Fixpoint patternsLoop (ps : list gostring) (latest : gostring * Z) : gostring * Z :=
  match ps with
  | [] => latest
  | p :: rest =>
      match Glob p with
      | None => patternsLoop rest latest
      | Some matches =>
          let latest := matchesLoop matches latest in
          if negb (is_empty latest.1) then latest else patternsLoop rest latest
      end
  end.

(** [findLatestCSV]: the name and the path of the file found, two empty
    strings when there is none. *)
Definition findLatestCSV (keyword radius1 radius0 : gostring) : gostring * gostring :=
  let latestFile := (patternsLoop (patterns keyword radius1 radius0) ([], 0%Z)).1 in
  if negb (is_empty latestFile) then (Base latestFile, latestFile) else ([], []).

End FindLatest.

End WebServer.


(* ================================================================== *)
(** * Properties *)
(* ================================================================== *)

Import GoStrings Regexp PhoneScraper.

(** ** Characters and cleaning *)

Section Cleaning.

Definition clean (s : gostring) : gostring := ReplaceAllString separator s [].

Definition kept (c : ascii) : Prop := separator c = false.

Lemma clean_cons_kept c s : kept c -> clean (c :: s) = c :: clean s.
Proof. unfold kept, clean; simpl; intros ->; reflexivity. Qed.

Lemma clean_cons_sep c s : separator c = true -> clean (c :: s) = clean s.
Proof. unfold clean; simpl; intros ->; reflexivity. Qed.

Lemma clean_app a b : clean (a ++ b) = clean a ++ clean b.
Proof.
  induction a as [|c a IH]; [reflexivity|].
  unfold clean in *; simpl. destruct (separator c); simpl; congruence.
Qed.

Lemma clean_kept s : Forall kept s -> clean s = s.
Proof.
  induction 1 as [|c s Hc _ IH]; [reflexivity|].
  rewrite clean_cons_kept, IH; auto.
Qed.

Lemma clean_all_kept s : Forall kept (clean s).
Proof.
  induction s as [|c s IH]; [constructor|].
  destruct (separator c) eqn:E.
  - rewrite clean_cons_sep; auto.
  - rewrite clean_cons_kept; auto.
Qed.

Lemma clean_dropped s : Forall (fun c => separator c = true) s -> clean s = [].
Proof.
  induction 1 as [|c s Hc _ IH]; [reflexivity|].
  rewrite clean_cons_sep; auto.
Qed.

Lemma digit_kept c : digit c = true -> kept c.
Proof.
  unfold kept. destruct c as [[] [] [] [] [] [] [] []]; vm_compute; congruence.
Qed.

Lemma digit_not_plus c : digit c = true -> lit "+" c = false.
Proof. destruct c as [[] [] [] [] [] [] [] []]; vm_compute; congruence. Qed.

Lemma digit_ascii c : digit c = true -> nat_of_ascii c < 128 /\ asciiSpace c = false.
Proof.
  destruct c as [[] [] [] [] [] [] [] []]; vm_compute; intros; split; (congruence || lia).
Qed.

Lemma plus_kept c : lit "+" c = true -> kept c.
Proof.
  unfold kept. destruct c as [[] [] [] [] [] [] [] []]; vm_compute; congruence.
Qed.

Lemma space_dropped c : space c = true -> separator c = true.
Proof. unfold separator; intros ->; reflexivity. Qed.

Lemma space_or_hyphen_dropped c : either space (lit "-") c = true -> separator c = true.
Proof.
  unfold separator, either. destruct (space c), (lit "-" c); simpl; congruence.
Qed.

Lemma lit_eq a c : lit a c = true -> c = a.
Proof. unfold lit. apply Ascii.eqb_eq. Qed.

Lemma blank_dropped : separator " " = true.
Proof. reflexivity. Qed.

(** The three groups, written out. *)
Lemma grouped_ten c0 c1 c2 c3 c4 c5 c6 c7 c8 c9 :
  grouped [c0; c1; c2; c3; c4; c5; c6; c7; c8; c9]
  = [c0; c1; c2; " "%char; c3; c4; c5; " "%char; c6; c7; c8; c9].
Proof. reflexivity. Qed.

Lemma length_ten (s : gostring) :
  length s = 10 ->
  exists c0 c1 c2 c3 c4 c5 c6 c7 c8 c9, s = [c0; c1; c2; c3; c4; c5; c6; c7; c8; c9].
Proof.
  intros H.
  do 10 (destruct s as [|? s]; [discriminate H|]).
  destruct s; [|discriminate H]. do 10 eexists; reflexivity.
Qed.

(** Cleaning a grouped string gives back the ten kept bytes. *)
Lemma clean_grouped s : length s = 10 -> Forall kept s -> clean (grouped s) = s.
Proof.
  intros Hlen Hk. destruct (length_ten s Hlen) as (c0&c1&c2&c3&c4&c5&c6&c7&c8&c9&->).
  rewrite grouped_ten.
  repeat (apply Forall_cons_1 in Hk as [? Hk]).
  repeat first [rewrite clean_cons_kept by assumption
               | rewrite clean_cons_sep by exact blank_dropped].
  reflexivity.
Qed.

(** [formatPhone] in terms of the cleaned string. *)
Definition ten_digits (phone cleaned : gostring) : gostring :=
  if Nat.eqb (length cleaned) 10 && negb (HasPrefix cleaned (str "+"))
  then grouped cleaned else phone.

Lemma formatPhone_unfold phone :
  formatPhone phone =
  if HasPrefix (clean phone) (str "+52") then
    if Nat.eqb (length (TrimPrefix (clean phone) (str "+52"))) 10
    then grouped (TrimPrefix (clean phone) (str "+52"))
    else ten_digits phone (TrimPrefix (clean phone) (str "+52"))
  else ten_digits phone (clean phone).
Proof. reflexivity. Qed.

Lemma HasPrefix_plus52 s :
  HasPrefix s (str "+52") = true -> s = str "+52" ++ TrimPrefix s (str "+52").
Proof.
  intros H. unfold TrimPrefix. rewrite H.
  destruct s as [|a [|b [|c s]]]; simpl in H;
    rewrite ?andb_false_r in H; try discriminate H.
  apply andb_prop in H as [Ha H]. apply andb_prop in H as [Hb H].
  apply andb_prop in H as [Hc _].
  apply Ascii.eqb_eq in Ha, Hb, Hc. subst. reflexivity.
Qed.

Lemma HasPrefix_app p s : HasPrefix (p ++ s) p = true.
Proof.
  induction p as [|c p IH]; simpl; [destruct s; reflexivity|].
  rewrite Ascii.eqb_refl. exact IH.
Qed.

Lemma TrimPrefix_app p s : TrimPrefix (p ++ s) p = s.
Proof. unfold TrimPrefix. rewrite HasPrefix_app. apply drop_app_length. Qed.

(** Either the input comes back unchanged, or the result is the
    grouping of ten kept bytes. *)
Lemma formatPhone_cases phone :
  formatPhone phone = phone \/
  exists s, length s = 10 /\ Forall kept s /\ formatPhone phone = grouped s.
Proof.
  rewrite formatPhone_unfold. unfold ten_digits.
  pose proof (clean_all_kept phone) as Hk.
  destruct (HasPrefix (clean phone) (str "+52")) eqn:Hp.
  - apply HasPrefix_plus52 in Hp. rewrite Hp in Hk.
    apply Forall_app in Hk as [_ Hk].
    destruct (Nat.eqb (length _) 10) eqn:Hl.
    + right. eexists; split; [apply Nat.eqb_eq, Hl|]. split; [exact Hk|reflexivity].
    + simpl. left; reflexivity.
  - destruct (Nat.eqb (length (clean phone)) 10) eqn:Hl; simpl; [|left; reflexivity].
    destruct (negb _); [|left; reflexivity].
    right. eexists; split; [apply Nat.eqb_eq, Hl|]. split; [exact Hk|reflexivity].
Qed.

Lemma formatPhone_grouped s :
  length s = 10 -> Forall kept s -> formatPhone (grouped s) = grouped s.
Proof.
  intros Hlen Hk. rewrite formatPhone_unfold, (clean_grouped s Hlen Hk).
  unfold ten_digits.
  destruct (HasPrefix s (str "+52")) eqn:Hp.
  - apply HasPrefix_plus52 in Hp.
    assert (length (TrimPrefix s (str "+52")) = 7) as Hl7.
    { apply (f_equal length) in Hp. rewrite length_app in Hp.
      change (length (str "+52")) with 3 in Hp. lia. }
    rewrite Hl7. reflexivity.
  - rewrite Hlen. simpl. destruct (negb _); reflexivity.
Qed.

End Cleaning.

(** ** The normalizer *)

(** C3: [formatPhone] is idempotent on every input string. *)
Theorem formatPhone_idempotent (x : gostring) :
  formatPhone (formatPhone x) = formatPhone x.
Proof.
  destruct (formatPhone_cases x) as [E | (s & Hlen & Hk & E)].
  - rewrite E. exact E.
  - rewrite E. apply formatPhone_grouped; assumption.
Qed.

(** C4: a ten-digit string is returned as three groups of three, three
    and four digits separated by one space, and the same groups are
    returned when the ten digits follow the prefix [+52]. *)
Theorem formatPhone_groups (d1 d2 d3 d4 d5 d6 d7 d8 d9 d10 : ascii) :
  Forall (fun d => digit d = true) [d1; d2; d3; d4; d5; d6; d7; d8; d9; d10] ->
  formatPhone [d1; d2; d3; d4; d5; d6; d7; d8; d9; d10]
  = [d1; d2; d3; " "%char; d4; d5; d6; " "%char; d7; d8; d9; d10]
  /\ formatPhone (str "+52" ++ [d1; d2; d3; d4; d5; d6; d7; d8; d9; d10])
     = formatPhone [d1; d2; d3; d4; d5; d6; d7; d8; d9; d10].
Proof.
  intros Hd.
  assert (Forall kept [d1; d2; d3; d4; d5; d6; d7; d8; d9; d10]) as Hk
    by (eapply Forall_impl; [exact Hd | exact digit_kept]).
  assert (lit "+" d1 = false) as Hplus
    by (apply digit_not_plus; inversion Hd; assumption).
  unfold lit in Hplus.
  assert (formatPhone [d1; d2; d3; d4; d5; d6; d7; d8; d9; d10]
          = [d1; d2; d3; " "%char; d4; d5; d6; " "%char; d7; d8; d9; d10]) as E.
  { rewrite formatPhone_unfold, (clean_kept _ Hk). unfold ten_digits.
    simpl. rewrite Hplus. reflexivity. }
  split; [exact E|]. rewrite E.
  rewrite formatPhone_unfold, clean_app, (clean_kept _ Hk).
  reflexivity.
Qed.

Lemma formatPhone_groups_witness :
  formatPhone (str "2221234567") = str "222 123 4567"
  /\ formatPhone (str "+522221234567") = formatPhone (str "2221234567").
Proof.
  apply (formatPhone_groups "2" "2" "2" "1" "2" "3" "4" "5" "6" "7").
  repeat constructor.
Defined.

(** ** The matcher of regular expressions *)

Section Matching.

(** The texts a sequence of items can match. *)
Fixpoint shape (p : list item) (m : gostring) : Prop :=
  match p with
  | [] => m = []
  | Class cls lo hi :: p' =>
      exists a m', m = a ++ m' /\ Forall (fun c => cls c = true) a
                   /\ lo <= length a <= hi /\ shape p' m'
  | EndText :: p' => shape p' m
  end.

Lemma rep_sound cls k : forall hi lo s m,
  rep cls k lo hi s = Some m ->
  exists a m' s', m = a ++ m' /\ s = a ++ s' /\ Forall (fun c => cls c = true) a
                  /\ lo <= length a <= hi /\ k s' = Some m'.
Proof.
  assert (forall hi lo s m,
    match lo with 0 => k s | S _ => None end = Some m ->
    exists a m' s', m = a ++ m' /\ s = a ++ s' /\ Forall (fun c => cls c = true) a
                    /\ lo <= length a <= hi /\ k s' = Some m') as Hstop.
  { intros hi lo s m H. destruct lo; [|discriminate].
    exists [], m, s. repeat split; auto; simpl; lia. }
  induction hi as [|hi IH]; intros lo s m H; simpl in H; [eauto|].
  destruct s as [|c s]; [eauto|].
  destruct (cls c) eqn:Hc; [|eauto].
  destruct (rep cls k (pred lo) hi s) as [m1|] eqn:Hr; [|eauto].
  injection H as <-.
  apply IH in Hr as (a & m' & s' & -> & -> & Ha & Hlen & Hk).
  exists (c :: a), m', s'. repeat split; auto; simpl; lia.
Qed.

Lemma match_here_sound : forall p s m, match_here p s = Some m -> shape p m.
Proof.
  induction p as [|[cls lo hi|] p IH]; intros s m H; simpl in *.
  - congruence.
  - apply rep_sound in H as (a & m' & s' & -> & _ & Ha & Hlen & Hk).
    exists a, m'. eauto.
  - destruct s; [eauto | discriminate].
Qed.

Lemma search_sound p : forall s m, search p s = Some m -> shape p m.
Proof.
  induction s as [|c s IH]; intros m H; simpl in H;
    destruct (match_here p _) eqn:Hm;
    try (injection H as <-; eapply match_here_sound; eassumption);
    [discriminate | eauto].
Qed.

(** A non-empty result of [FindString] has the shape of the pattern. *)
Lemma FindString_shape re text c m :
  FindString re text = c :: m -> shape (body re) (c :: m).
Proof.
  unfold FindString, find. intros H.
  destruct (begin_text re).
  - destruct (match_here _ _) eqn:Hm; simpl in H; [|discriminate].
    subst. eapply match_here_sound; eassumption.
  - destruct (search _ _) eqn:Hm; simpl in H; [|discriminate].
    subst. eapply search_sound; eassumption.
Qed.

(** A run of characters of the class, of a length within the bounds,
    is taken whole when the rest of the pattern accepts the end. *)
Lemma rep_all cls k : forall hi lo ds,
  Forall (fun c => cls c = true) ds -> lo <= length ds <= hi ->
  k [] = Some [] -> rep cls k lo hi ds = Some ds.
Proof.
  induction hi as [|hi IH]; intros lo ds Hds Hlen Hk.
  - destruct ds; simpl in *; [|lia]. destruct lo; [exact Hk | lia].
  - destruct ds as [|c ds]; simpl in *.
    + destruct lo; [exact Hk | lia].
    + inversion Hds; subst. rewrite H1.
      rewrite IH; auto. lia.
Qed.

(** An optional character that is not there is skipped. *)
Lemma rep_skip cls k c s : cls c = false -> rep cls k 0 1 (c :: s) = k (c :: s).
Proof. intros H. simpl. rewrite H. reflexivity. Qed.

Lemma shape_app : forall p q m,
  shape (p ++ q) m -> exists m1 m2, m = m1 ++ m2 /\ shape p m1 /\ shape q m2.
Proof.
  induction p as [|[cls lo hi|] p IH]; intros q m H; simpl in *.
  - exists [], m. auto.
  - destruct H as (a & m' & -> & Ha & Hlen & H).
    apply IH in H as (m1 & m2 & -> & H1 & H2).
    exists (a ++ m1), m2. rewrite app_assoc. split; [reflexivity|].
    split; [|exact H2]. exists a, m1. auto.
  - apply IH in H. exact H.
Qed.

(** The pattern keeps [n] digits besides separators. *)
Fixpoint digits_in (p : list item) (n : nat) : Prop :=
  match p with
  | [] => n = 0
  | Class cls lo hi :: p' =>
      ((forall c, cls c = true -> digit c = true) /\ lo = hi
       /\ exists n', n = lo + n' /\ digits_in p' n')
      \/ ((forall c, cls c = true -> separator c = true) /\ digits_in p' n)
  | EndText :: p' => digits_in p' n
  end.

Lemma shape_clean : forall p m n,
  shape p m -> digits_in p n ->
  Forall (fun c => digit c = true) (clean m) /\ length (clean m) = n.
Proof.
  induction p as [|[cls lo hi|] p IH]; intros m n Hs Hd; simpl in *.
  - subst. split; [constructor | reflexivity].
  - destruct Hs as (a & m' & -> & Ha & Hlen & Hs). rewrite clean_app.
    destruct Hd as [(Hcls & <- & n' & -> & Hd) | (Hcls & Hd)].
    + destruct (IH _ _ Hs Hd) as [IH1 IH2].
      assert (Forall (fun c => digit c = true) a) as Hda
        by (eapply Forall_impl; eauto).
      rewrite (clean_kept a) by (eapply Forall_impl; [exact Hda | exact digit_kept]).
      split; [apply Forall_app; auto | rewrite length_app; lia].
    + rewrite (clean_dropped a) by (eapply Forall_impl; eauto).
      simpl. eauto.
  - eauto.
Qed.

End Matching.

(** ** The validator and the text-pattern matcher *)

Section Validator.

Definition all_digits (ds : gostring) : Prop := Forall (fun c => digit c = true) ds.

(** The validator accepts every text whose cleaned form is ten to
    fifteen digits. *)
Lemma isPhoneNumber_digits text :
  all_digits (clean text) -> 10 <= length (clean text) <= 15 ->
  isPhoneNumber text = true.
Proof.
  intros Hd Hlen. unfold isPhoneNumber, MatchString, find. fold (clean text).
  destruct (clean text) as [|d ds] eqn:E; [simpl in Hlen; lia|].
  assert (lit "+" d = false) as Hplus
    by (apply digit_not_plus; inversion Hd; assumption).
  change (match_here (body phonePattern) (d :: ds))
    with (rep (lit "+") (rep digit (match_here [EndText]) 10 15) 0 1 (d :: ds)).
  change (begin_text phonePattern) with true. cbv iota.
  rewrite rep_skip by assumption.
  rewrite (rep_all digit _ 15 10 (d :: ds)); auto.
Qed.

(** A byte that [TrimSpace] leaves alone at either end of a string. *)
Definition plain (c : ascii) : Prop := nat_of_ascii c < 128 /\ asciiSpace c = false.

Lemma plain_not_lead c b : plain c -> space2 c b = false.
Proof.
  intros [H _]. unfold space2, byte_is.
  destruct (Nat.eqb_spec (nat_of_ascii c) 194); [lia | reflexivity].
Qed.

Lemma plain_not_lead3 c b d : plain c -> space3 c b d = false.
Proof.
  intros [H _]. unfold space3, byte_is.
  destruct (Nat.eqb_spec (nat_of_ascii c) 225); [lia|].
  destruct (Nat.eqb_spec (nat_of_ascii c) 226); [lia|].
  destruct (Nat.eqb_spec (nat_of_ascii c) 227); [lia|]. reflexivity.
Qed.

Lemma plain_not_trail c b : plain c -> space2 b c = false.
Proof.
  intros [H _]. unfold space2, byte_is.
  destruct (Nat.eqb_spec (nat_of_ascii c) 133); [lia|].
  destruct (Nat.eqb_spec (nat_of_ascii c) 160); [lia|].
  apply andb_false_r.
Qed.

Lemma plain_not_trail3 c a b : plain c -> space3 a b c = false.
Proof.
  intros [H _]. unfold space3, byte_is.
  destruct (Nat.eqb_spec (nat_of_ascii c) 128); [lia|].
  destruct (Nat.eqb_spec (nat_of_ascii c) 168); [lia|].
  destruct (Nat.eqb_spec (nat_of_ascii c) 169); [lia|].
  destruct (Nat.eqb_spec (nat_of_ascii c) 175); [lia|].
  destruct (Nat.eqb_spec (nat_of_ascii c) 159); [lia|].
  destruct (Nat.leb_spec 128 (nat_of_ascii c)); [lia|].
  rewrite !andb_false_r. reflexivity.
Qed.

Lemma TrimLeftSpace_plain c s : plain c -> TrimLeftSpace (c :: s) = c :: s.
Proof.
  intros Hc. simpl. rewrite (proj2 Hc).
  destruct s as [|b [|d s]]; auto; rewrite plain_not_lead by assumption; auto.
  rewrite plain_not_lead3 by assumption. reflexivity.
Qed.

Lemma TrimLeftSpaceRev_plain c s : plain c -> TrimLeftSpaceRev (c :: s) = c :: s.
Proof.
  intros Hc. simpl. rewrite (proj2 Hc).
  destruct s as [|b [|d s]]; auto; rewrite plain_not_trail by assumption; auto.
  rewrite plain_not_trail3 by assumption. reflexivity.
Qed.

(** [TrimSpace] returns a string unchanged when its first and last
    bytes are plain. *)
Lemma TrimSpace_plain m c0 rest front c9 :
  m = c0 :: rest -> m = front ++ [c9] -> plain c0 -> plain c9 -> TrimSpace m = m.
Proof.
  intros E0 E9 H0 H9. unfold TrimSpace.
  assert (TrimLeftSpace m = m) as ->
    by (rewrite E0; apply TrimLeftSpace_plain; assumption).
  assert (rev m = c9 :: rev front) as Er
    by (rewrite E9, rev_app_distr; reflexivity).
  rewrite Er, TrimLeftSpaceRev_plain, <- Er by assumption.
  apply rev_involutive.
Qed.

Lemma digit_plain c : digit c = true -> plain c.
Proof. apply digit_ascii. Qed.

Lemma plus_plain c : lit "+" c = true -> plain c.
Proof. intros H. apply lit_eq in H as ->. split; [vm_compute; lia | reflexivity]. Qed.

(** A text matched by a pattern that ends with four digits ends with
    a digit. *)
Lemma shape_ends_with_digit p m :
  shape (p ++ [Class digit 4 4]) m ->
  exists front c9, m = front ++ [c9] /\ digit c9 = true.
Proof.
  intros H. apply shape_app in H as (m1 & m2 & -> & _ & H2).
  simpl in H2. destruct H2 as (a & m' & -> & Ha & Hlen & ->).
  destruct a as [|x1 [|x2 [|x3 [|x4 [|]]]]]; simpl in Hlen; try lia.
  exists (m1 ++ [x1; x2; x3]), x4. rewrite app_nil_r, <- app_assoc.
  split; [reflexivity|].
  repeat (apply Forall_cons_1 in Ha as [? Ha]). assumption.
Qed.

(** The items common to the first two patterns after the country code:
    [\s?\d{3}\s?\d{3}\s?\d{4}]. *)
Definition national : list item :=
  [Class space 0 1; Class digit 3 3; Class space 0 1; Class digit 3 3;
   Class space 0 1; Class digit 4 4].

Lemma national_digits : digits_in national 10.
Proof.
  unfold national; simpl.
  right; split; [exact space_dropped|].
  left; split; [auto|]; split; [reflexivity|]; exists 7; split; [reflexivity|].
  right; split; [exact space_dropped|].
  left; split; [auto|]; split; [reflexivity|]; exists 4; split; [reflexivity|].
  right; split; [exact space_dropped|].
  left; split; [auto|]; split; [reflexivity|]; exists 0; split; reflexivity.
Qed.

Lemma tenDigit_digits : digits_in (body tenDigitRegex) 10.
Proof.
  simpl.
  left; split; [auto|]; split; [reflexivity|]; exists 7; split; [reflexivity|].
  right; split; [exact space_dropped|].
  left; split; [auto|]; split; [reflexivity|]; exists 4; split; [reflexivity|].
  right; split; [exact space_dropped|].
  left; split; [auto|]; split; [reflexivity|]; exists 0; split; reflexivity.
Qed.

Lemma general_digits : digits_in (body generalPhoneRegex) 10.
Proof.
  simpl.
  left; split; [auto|]; split; [reflexivity|]; exists 7; split; [reflexivity|].
  right; split; [exact space_or_hyphen_dropped|].
  left; split; [auto|]; split; [reflexivity|]; exists 4; split; [reflexivity|].
  right; split; [exact space_or_hyphen_dropped|].
  left; split; [auto|]; split; [reflexivity|]; exists 0; split; reflexivity.
Qed.

(** What the validator is shown to accept: the cleaned text is ten to
    fifteen digits. *)
Definition valid_phone (r : gostring) : Prop :=
  isPhoneNumber r = true /\ all_digits (clean r) /\ 10 <= length (clean r) <= 15.

Lemma valid_of_digits r n :
  all_digits (clean r) /\ length (clean r) = n -> 10 <= n <= 15 -> valid_phone r.
Proof.
  intros [Hd Hl] Hn. subst n. split; [apply isPhoneNumber_digits; assumption | auto].
Qed.

(** A match of a pattern made of ten digits and separators, starting
    with three digits and ending with four, is returned as it is and is
    valid. *)
Lemma ten_digit_match_valid p m :
  shape (Class digit 3 3 :: p ++ [Class digit 4 4]) m ->
  digits_in (Class digit 3 3 :: p ++ [Class digit 4 4]) 10 ->
  TrimSpace m = m /\ valid_phone m.
Proof.
  intros Hs Hd. split.
  - destruct (shape_ends_with_digit (Class digit 3 3 :: p) m Hs) as (front & c9 & E9 & H9).
    simpl in Hs. destruct Hs as (a & m' & E0 & Ha & Hlen & _).
    destruct a as [|c0 a]; simpl in Hlen; [lia|].
    apply Forall_cons_1 in Ha as [H0 _].
    eapply TrimSpace_plain; eauto using digit_plain.
  - eapply valid_of_digits; [eapply shape_clean; eassumption | lia].
Qed.

(** A match of the first pattern is formatted into a valid phone. *)
Lemma mexican_match_valid m :
  shape (body mexicanPhoneRegex) m -> valid_phone (formatPhone (TrimSpace m)).
Proof.
  intros Hs.
  assert (exists front c9, m = front ++ [c9] /\ digit c9 = true) as (front & c9 & E9 & H9).
  { apply (shape_ends_with_digit
             [Class (lit "+") 0 1; Class (lit "5") 1 1; Class (lit "2") 1 1;
              Class space 0 1; Class digit 3 3; Class space 0 1; Class digit 3 3;
              Class space 0 1]). exact Hs. }
  change (body mexicanPhoneRegex)
    with ([Class (lit "+") 0 1; Class (lit "5") 1 1; Class (lit "2") 1 1] ++ national) in Hs.
  cbn [app shape] in Hs.
  destruct Hs as (a & m1 & E & Ha & Hla & a5 & m2 & -> & H5 & Hl5 & a2 & m3 & -> & H2 & Hl2 & Hs).
  destruct a5 as [|c5 [|]]; simpl in Hl5; try lia.
  destruct a2 as [|c2 [|]]; simpl in Hl2; try lia.
  apply Forall_cons_1 in H5 as [H5 _]; apply lit_eq in H5 as ->.
  apply Forall_cons_1 in H2 as [H2 _]; apply lit_eq in H2 as ->.
  destruct (shape_clean _ _ _ Hs national_digits) as [Hd Hl].
  assert (Forall kept (clean m3)) as Hk
    by (eapply Forall_impl; [exact Hd | exact digit_kept]).
  destruct a as [|cp [|]]; simpl in Hla; try lia; simpl in E.
  - (* no sign: the match comes back as it is *)
    assert (clean m = "5"%char :: "2"%char :: clean m3) as Ec.
    { rewrite E. rewrite !clean_cons_kept by reflexivity. reflexivity. }
    assert (TrimSpace m = m) as ->
      by (eapply TrimSpace_plain; eauto using digit_plain).
    assert (formatPhone m = m) as ->.
    { rewrite formatPhone_unfold, Ec. unfold ten_digits. simpl. rewrite Hl. reflexivity. }
    apply (valid_of_digits m 12); [|lia]. rewrite Ec. split.
    + repeat constructor. exact Hd.
    + simpl. lia.
  - (* a sign: the prefix is removed and the ten digits are grouped *)
    apply Forall_cons_1 in Ha as [Hp _].
    assert (clean m = str "+52" ++ clean m3) as Ec.
    { rewrite E. rewrite clean_cons_kept by (apply plus_kept; assumption).
      rewrite !clean_cons_kept by reflexivity. apply lit_eq in Hp as ->. reflexivity. }
    assert (TrimSpace m = m) as ->
      by (eapply TrimSpace_plain; eauto using digit_plain, plus_plain).
    assert (formatPhone m = grouped (clean m3)) as ->.
    { rewrite formatPhone_unfold, Ec, HasPrefix_app, TrimPrefix_app, Hl. reflexivity. }
    apply (valid_of_digits _ 10); [|lia].
    rewrite clean_grouped by assumption. auto.
Qed.

End Validator.

(** C10: every non-empty result of the text-pattern matcher, in either
    scraper, is accepted by the validator: without white space,
    parentheses and hyphens it consists of ten to fifteen digits. *)
Theorem extractPhoneFromText_valid (text r : gostring) :
  r = extractPhoneFromText text \/ r = extractPhoneFromText_batch text ->
  r <> [] ->
  isPhoneNumber r = true
  /\ Forall (fun c => digit c = true) (ReplaceAllString separator r [])
  /\ 10 <= length (ReplaceAllString separator r []) <= 15.
Proof.
  intros Hr Hne. change (valid_phone r).
  unfold extractPhoneFromText, extractPhoneFromText_batch in Hr.
  destruct (FindString mexicanPhoneRegex text) as [|c1 m1] eqn:E1.
  - destruct (FindString tenDigitRegex text) as [|c2 m2] eqn:E2.
    + destruct (FindString generalPhoneRegex text) as [|c3 m3] eqn:E3.
      * destruct Hr; congruence.
      * destruct Hr as [-> | ->]; [|congruence].
        apply FindString_shape in E3.
        destruct (ten_digit_match_valid
                    [Class (either space (lit "-")) 0 1; Class digit 3 3;
                     Class (either space (lit "-")) 0 1] _ E3 general_digits) as [-> H].
        exact H.
    + apply FindString_shape in E2.
      destruct (ten_digit_match_valid
                  [Class space 0 1; Class digit 3 3; Class space 0 1] _ E2 tenDigit_digits)
        as [Et H].
      destruct Hr as [-> | ->]; rewrite Et; exact H.
  - apply FindString_shape in E1. apply mexican_match_valid in E1.
    destruct Hr as [-> | ->]; exact E1.
Qed.

Lemma extractPhoneFromText_valid_witness :
  isPhoneNumber (str "222 123 4567") = true
  /\ Forall (fun c => digit c = true) (ReplaceAllString separator (str "222 123 4567") [])
  /\ 10 <= length (ReplaceAllString separator (str "222 123 4567") []) <= 15.
Proof.
  apply (extractPhoneFromText_valid (str "Tel: +52 222 123 4567") (str "222 123 4567")).
  - left. vm_compute. reflexivity.
  - discriminate.
Defined.

(** ** The locator *)

Import Dom Locator.

Section LocatorOrder.

(** The first non-empty string of a list, the empty string when there
    is none. *)
Fixpoint first_nonempty (results : list gostring) : gostring :=
  match results with
  | [] => []
  | r :: rest => if nonempty r then r else first_nonempty rest
  end.

(** What a strategy yields: the empty string when it falls through. *)
Definition yield (o : option gostring) : gostring := default [] o.

(** The locator as the specification words it: the four strategies in
    their order of priority, the first non-empty result being
    returned. *)
Definition locate_in_order (extract : gostring -> gostring) (page : Page) : gostring :=
  first_nonempty
    [yield (strategy1 extract page); yield (strategy2 extract page);
     yield (strategy3 page); yield (strategy4 extract page)].

(** No phone button has the bare scheme prefix as its identifier. *)
Definition no_bare_scheme (page : Page) : Prop :=
  forall els, Elements page PhoneButtons = Some els ->
    Forall (fun e => Attribute e DataItemId <> Some (Some (str "phone:tel:"))) els.

Lemma formatPhone_empty x : formatPhone x = [] -> x = [].
Proof.
  intros H. destruct (formatPhone_cases x) as [E | (s & Hlen & _ & E)]; [congruence|].
  rewrite H in E. destruct (length_ten s Hlen) as (?&?&?&?&?&?&?&?&?&?&->).
  discriminate E.
Qed.

Lemma HasPrefix_split : forall p s, HasPrefix s p = true -> s = p ++ drop (length p) s.
Proof.
  induction p as [|a p IH]; intros s H; [reflexivity|].
  destruct s as [|c s]; [discriminate|]. simpl in H.
  apply andb_prop in H as [Hc H]. apply Ascii.eqb_eq in Hc as ->.
  simpl. f_equal. apply IH, H.
Qed.

Lemma ReplaceFirst_empty old : forall s,
  old <> [] -> Contains s old = true -> ReplaceFirst s old [] = [] -> s = old.
Proof.
  intros s Hold Hc Hr. destruct s as [|c s].
  - destruct old; [congruence | simpl in Hc; discriminate].
  - change (ReplaceFirst (c :: s) old [])
      with (if HasPrefix (c :: s) old then [] ++ drop (length old) (c :: s)
            else c :: ReplaceFirst s old []) in Hr.
    destruct (HasPrefix (c :: s) old) eqn:Hp; [|discriminate].
    apply HasPrefix_split in Hp. rewrite app_nil_l in Hr.
    rewrite Hr, app_nil_r in Hp. exact Hp.
Qed.

Lemma phoneButtonsLoop_nonempty extract els r :
  Forall (fun e => Attribute e DataItemId <> Some (Some (str "phone:tel:"))) els ->
  phoneButtonsLoop extract els = Some r -> nonempty r = true.
Proof.
  induction 1 as [|e els He _ IH]; cbn [phoneButtonsLoop]; [discriminate|].
  assert (match Text e with
          | Some text => if nonempty (extract text) then Some (extract text)
                         else phoneButtonsLoop extract els
          | None => phoneButtonsLoop extract els
          end = Some r -> nonempty r = true) as Htext.
  { destruct (Text e) as [text|]; [|exact IH].
    destruct (nonempty (extract text)) eqn:Hn; [|exact IH].
    intros [= <-]. exact Hn. }
  destruct (Attribute e DataItemId) as [[id|]|] eqn:Hid; try exact Htext.
  destruct (Contains id (str "phone:tel:")) eqn:Hc; [|exact Htext].
  intros [= <-]. destruct (formatPhone _) eqn:Hf; [|reflexivity].
  apply formatPhone_empty in Hf. apply ReplaceFirst_empty in Hf; [|discriminate|exact Hc].
  subst id. contradiction.
Qed.

Lemma labelButtonsLoop_nonempty extract els r :
  labelButtonsLoop extract els = Some r -> nonempty r = true.
Proof.
  induction els as [|e els IH]; simpl; [discriminate|].
  destruct (Attribute e AriaLabel) as [[label|]|]; try exact IH.
  destruct (nonempty (extract label)) eqn:Hn; [|exact IH].
  intros [= <-]. exact Hn.
Qed.

Lemma displayBlocksLoop_nonempty els r :
  displayBlocksLoop els = Some r -> nonempty r = true.
Proof.
  induction els as [|e els IH]; simpl; [discriminate|].
  destruct (Text e) as [text|]; [|exact IH].
  destruct (isPhoneNumber (TrimSpace text)) eqn:Hv; [|exact IH].
  intros [= <-]. destruct (TrimSpace text); [discriminate Hv | reflexivity].
Qed.

Lemma allElementsLoop_nonempty extract els r :
  allElementsLoop extract els = Some r -> nonempty r = true.
Proof.
  induction els as [|e els IH]; simpl; [discriminate|].
  destruct (Text e) as [text|]; [|exact IH].
  destruct (nonempty text); [|exact IH].
  destruct (nonempty (extract text)) eqn:Hn; [|exact IH].
  intros [= <-]. exact Hn.
Qed.

Lemma strategy_nonempty page sel loop r :
  (forall els r, Elements page sel = Some els -> loop els = Some r -> nonempty r = true) ->
  strategy page sel loop = Some r -> nonempty r = true.
Proof. unfold strategy. destruct (Elements page sel); [eauto | discriminate]. Qed.

(** A page on which only the scan of all the elements finds a phone. *)
Definition page_with_plain_text : Page :=
  {| Elements := fun sel =>
       match sel with
       | AllElements =>
           Some [{| Attribute := fun _ => Some None;
                    Text := Some (str "Llame al 222 123 4567") |}]
       | _ => Some []
       end |}.

End LocatorOrder.

(** C5, as the batch scraper contradicts it: on a page where strategies
    1 to 3 find nothing and a scan of all the elements would find a
    phone, the locator of the batch scraper reports absent. *)
Lemma findPhoneNumber_batch_no_fallback :
  strategy1 extractPhoneFromText_batch page_with_plain_text = None
  /\ strategy2 extractPhoneFromText_batch page_with_plain_text = None
  /\ strategy3 page_with_plain_text = None
  /\ strategy4 extractPhoneFromText_batch page_with_plain_text = Some (str "222 123 4567")
  /\ findPhoneNumber_batch page_with_plain_text = []
  /\ findPhoneNumber_batch page_with_plain_text
     <> locate_in_order extractPhoneFromText_batch page_with_plain_text.
Proof. vm_compute. repeat split; discriminate. Qed.

(** C5, amended: when no phone button has the bare scheme prefix as its
    identifier, the locator of [phone_scraper.go] returns the first
    non-empty result of strategies 1, 2, 3 and 4 in this order, and the
    locator of the batch scraper the first non-empty result of strategies
    1, 2 and 3, with no scan of all the elements. *)
Theorem findPhoneNumber_priority (page : Page) :
  no_bare_scheme page ->
  findPhoneNumber page = locate_in_order extractPhoneFromText page
  /\ findPhoneNumber_batch page
     = first_nonempty [yield (strategy1 extractPhoneFromText_batch page);
                       yield (strategy2 extractPhoneFromText_batch page);
                       yield (strategy3 page)].
Proof.
  intros Hbare.
  assert (forall extract r, strategy1 extract page = Some r -> nonempty r = true) as H1.
  { intros extract r. apply strategy_nonempty. intros els r' Hels.
    apply phoneButtonsLoop_nonempty. auto. }
  assert (forall extract r, strategy2 extract page = Some r -> nonempty r = true) as H2.
  { intros extract r. apply strategy_nonempty. intros els r' _.
    apply labelButtonsLoop_nonempty. }
  assert (forall r, strategy3 page = Some r -> nonempty r = true) as H3.
  { intros r. apply strategy_nonempty. intros els r' _. apply displayBlocksLoop_nonempty. }
  assert (forall extract r, strategy4 extract page = Some r -> nonempty r = true) as H4.
  { intros extract r. apply strategy_nonempty. intros els r' _.
    apply allElementsLoop_nonempty. }
  unfold findPhoneNumber, findPhoneNumber_batch, locate_in_order. split.
  - destruct (strategy1 _ page) as [r1|] eqn:E1; simpl;
      [rewrite (H1 _ _ E1); reflexivity|].
    destruct (strategy2 _ page) as [r2|] eqn:E2; simpl;
      [rewrite (H2 _ _ E2); reflexivity|].
    destruct (strategy3 page) as [r3|] eqn:E3; simpl;
      [rewrite (H3 _ eq_refl); reflexivity|].
    destruct (strategy4 _ page) as [r4|] eqn:E4; simpl;
      [rewrite (H4 _ _ E4); reflexivity | reflexivity].
  - destruct (strategy1 _ page) as [r1|] eqn:E1; simpl;
      [rewrite (H1 _ _ E1); reflexivity|].
    destruct (strategy2 _ page) as [r2|] eqn:E2; simpl;
      [rewrite (H2 _ _ E2); reflexivity|].
    destruct (strategy3 page) as [r3|] eqn:E3; simpl;
      [rewrite (H3 _ eq_refl); reflexivity | reflexivity].
Qed.

Lemma findPhoneNumber_priority_witness :
  findPhoneNumber page_with_plain_text
  = locate_in_order extractPhoneFromText page_with_plain_text
  /\ findPhoneNumber_batch page_with_plain_text
     = first_nonempty
         [yield (strategy1 extractPhoneFromText_batch page_with_plain_text);
          yield (strategy2 extractPhoneFromText_batch page_with_plain_text);
          yield (strategy3 page_with_plain_text)].
Proof.
  apply (findPhoneNumber_priority page_with_plain_text).
  intros els [= <-]. constructor.
Defined.

(** ** The extraction job runner *)

Import JobRunner.

Section Deadline.

Lemma select_blocked pick c : ready c = [] -> select pick c = None.
Proof. unfold select. intros ->. reflexivity. Qed.

Lemma select_single pick c x : ready c = [x] -> select pick c = Some x.
Proof. unfold select. intros ->. cbn [length]. rewrite Nat.mod_1_r. reflexivity. Qed.

Lemma select_two pick c x y :
  ready c = [x; y] -> select pick c = Some (if Nat.eqb (pick mod 2) 0 then x else y).
Proof.
  unfold select. intros ->. cbn [length].
  pose proof (Nat.mod_upper_bound pick 2) as Hb.
  destruct (pick mod 2) as [|[|n]]; [reflexivity | reflexivity | lia].
Qed.

(** Once the caller has returned, nothing changes what it returned. *)
Lemma occurs_left phone late pick ev st r :
  at_select st = Left r -> at_select (occurs phone late pick ev st) = Left r.
Proof.
  intros H. destruct ev; cbn [occurs].
  - rewrite H. exact H.
  - destruct (lookup_running st); [|exact H]. unfold wakes. cbn [at_select]. rewrite H.
    reflexivity.
  - unfold wakes. cbn [at_select]. rewrite H. reflexivity.
Qed.

Lemma run_events_left phone late pick evs : forall st r,
  at_select st = Left r -> at_select (run_events phone late pick evs st) = Left r.
Proof.
  induction evs as [|ev evs IH]; intros st r H; [exact H|].
  apply IH, occurs_left, H.
Qed.

Lemma run_events_app phone late pick evs evs' st :
  run_events phone late pick (evs ++ evs') st
  = run_events phone late pick evs' (run_events phone late pick evs st).
Proof. apply foldl_app. Qed.

(** The value the lookup goroutine leaves in its channel. *)
Definition left_unread (phone : gostring) (c : chans) : Prop :=
  if nonempty phone then done c = Some phone else errChan c = Some ErrNoPhone.

(** What the job reports when it takes the case of the lookup. *)
Definition lookup_result (phone : gostring) : result :=
  if nonempty phone then (phone, None) else ([], Some ErrNoPhone).

(** After the caller has returned nothing receives: a lookup that was
    still running returns later, its send goes into the buffer, and the
    value stays there. *)
Lemma left_then phone late pick r : forall evs st,
  at_select st = Left r -> lookup_running st = true -> LookupReturns ∈ evs ->
  lookup_running (run_events phone late pick evs st) = false
  /\ left_unread late (ch (run_events phone late pick evs st)).
Proof.
  assert (forall evs st, at_select st = Left r -> lookup_running st = false ->
            left_unread late (ch st) ->
            lookup_running (run_events phone late pick evs st) = false
            /\ left_unread late (ch (run_events phone late pick evs st))) as Hkeep.
  { induction evs as [|ev evs IH]; intros st Hl Hrun Hu; [auto|].
    cbn [run_events foldl]. fold (run_events phone late pick evs).
    assert (occurs phone late pick ev st = st
            \/ occurs phone late pick ev st
               = {| ch := {| done := done (ch st); errChan := errChan (ch st);
                             ctx_done := true |};
                    lookup_running := lookup_running st; at_select := at_select st |})
      as [-> | ->].
    { destruct ev; cbn [occurs]; rewrite ?Hl, ?Hrun; auto.
      all: right; unfold wakes; cbn [at_select]; rewrite Hl; reflexivity. }
    - apply IH; assumption.
    - apply IH; [exact Hl | exact Hrun |].
      unfold left_unread in *. destruct (nonempty late); exact Hu. }
  induction evs as [|ev evs IH]; intros st Hl Hrun Hin;
    [apply elem_of_nil in Hin; contradiction|].
  cbn [run_events foldl]. fold (run_events phone late pick evs).
  destruct ev.
  - apply IH; [apply occurs_left, Hl | cbn [occurs]; rewrite Hl; exact Hrun |].
    apply elem_of_cons in Hin as [Hin | Hin]; [discriminate | exact Hin].
  - apply Hkeep; cbn [occurs]; rewrite Hrun, Hl; unfold wakes; cbn [at_select];
      rewrite ?Hl; cbn [lookup_running ch at_select]; auto.
    unfold left_unread, lookup_sends. destruct (nonempty late); reflexivity.
  - apply IH.
    + apply occurs_left, Hl.
    + cbn [occurs]. unfold wakes. cbn [at_select]. rewrite Hl. exact Hrun.
    + apply elem_of_cons in Hin as [Hin | Hin]; [discriminate | exact Hin].
Qed.

(** The call of [findPhoneWithTimeout] as it starts. *)
Definition started : call :=
  {| ch := {| done := None; errChan := None; ctx_done := false |};
     lookup_running := true; at_select := Arriving |}.

(** The caller after a time-out, the lookup still running. *)
Definition timed_out : call :=
  {| ch := {| done := None; errChan := None; ctx_done := true |};
     lookup_running := true; at_select := Left ([], Some ErrTimeout) |}.

(** The deadline elapses while the caller waits, or has elapsed when it
    reaches the [select], and the lookup has not returned. *)
Lemma deadline_first phone late pick :
  run_events phone late pick [SelectReached; DeadlineElapses] started = timed_out
  /\ run_events phone late pick [DeadlineElapses; SelectReached] started = timed_out.
Proof.
  unfold run_events, started, timed_out. cbn [foldl occurs at_select wakes ch lookup_running].
  unfold selects. cbn [ch lookup_running].
  rewrite (select_blocked pick {| done := None; errChan := None; ctx_done := false |} eq_refl).
  cbn [at_select ch lookup_running done errChan].
  rewrite (select_single pick {| done := None; errChan := None; ctx_done := true |}
             (([], Some ErrTimeout),
              {| done := None; errChan := None; ctx_done := true |}) eq_refl).
  split; reflexivity.
Qed.

(** The lookup returns while the caller waits, or has returned when it
    reaches the [select], and the deadline has not elapsed. *)
Lemma lookup_first phone late pick :
  returned (run_events phone late pick [SelectReached; LookupReturns] started)
  = Some (lookup_result phone)
  /\ returned (run_events phone late pick [LookupReturns; SelectReached] started)
     = Some (lookup_result phone).
Proof.
  unfold run_events, started, lookup_result.
  cbn [foldl occurs at_select wakes ch lookup_running].
  unfold selects. cbn [ch lookup_running].
  rewrite (select_blocked pick {| done := None; errChan := None; ctx_done := false |} eq_refl).
  cbn [at_select ch lookup_running]. unfold lookup_sends.
  destruct (nonempty phone); cbn [ch done errChan ctx_done].
  - rewrite (select_single pick {| done := Some phone; errChan := None; ctx_done := false |}
               ((phone, None),
                {| done := None; errChan := None; ctx_done := false |}) eq_refl).
    split; reflexivity.
  - rewrite (select_single pick
               {| done := None; errChan := Some ErrNoPhone; ctx_done := false |}
               (([], Some ErrNoPhone),
                {| done := None; errChan := None; ctx_done := false |}) eq_refl).
    split; reflexivity.
Qed.

(** Both have happened when the caller reaches the [select]: two cases
    are ready and the [select] takes either. *)
Lemma both_first phone late pick :
  let either := if Nat.eqb (pick mod 2) 0 then lookup_result phone
                else ([], Some ErrTimeout) in
  returned (run_events phone late pick [LookupReturns; DeadlineElapses; SelectReached] started)
  = Some either
  /\ returned (run_events phone late pick [DeadlineElapses; LookupReturns; SelectReached] started)
     = Some either.
Proof.
  unfold run_events, started, lookup_result.
  cbn [foldl occurs at_select wakes ch lookup_running].
  unfold selects, lookup_sends. cbn [ch lookup_running].
  destruct (nonempty phone); cbn [ch done errChan ctx_done].
  - rewrite (select_two pick {| done := Some phone; errChan := None; ctx_done := true |}
               ((phone, None), {| done := None; errChan := None; ctx_done := true |})
               (([], Some ErrTimeout),
                {| done := Some phone; errChan := None; ctx_done := true |}) eq_refl).
    destruct (Nat.eqb (pick mod 2) 0); split; reflexivity.
  - rewrite (select_two pick
               {| done := None; errChan := Some ErrNoPhone; ctx_done := true |}
               (([], Some ErrNoPhone), {| done := None; errChan := None; ctx_done := true |})
               (([], Some ErrTimeout),
                {| done := None; errChan := Some ErrNoPhone; ctx_done := true |}) eq_refl).
    destruct (Nat.eqb (pick mod 2) 0); split; reflexivity.
Qed.

(** The events of a schedule fixed by instants, in their order. *)
Ltac order_events :=
  unfold schedule_at;
  cbn [foldr place_event fst snd map events]; unfold earlier; cbn [fst snd];
  repeat (match goal with
          | |- context [N.eqb ?a ?b] => destruct (N.eqb_spec a b); try (exfalso; lia)
          | |- context [N.ltb ?a ?b] => destruct (N.ltb_spec a b); try (exfalso; lia)
          | |- context [N.leb ?a ?b] => destruct (N.leb a b)
          end;
          cbn [foldr place_event fst snd map events]; unfold earlier; cbn [fst snd]).

Lemma schedule_deadline_first select_at lookup_at tie pick late :
  (forall t, lookup_at = Some t -> (phoneTimeout < t)%N /\ (select_at < t)%N) ->
  let rest := match lookup_at with Some _ => [LookupReturns] | None => [] end in
  events (schedule_at select_at lookup_at tie pick late)
  = [SelectReached; DeadlineElapses] ++ rest
  \/ events (schedule_at select_at lookup_at tie pick late)
     = [DeadlineElapses; SelectReached] ++ rest.
Proof.
  intros H. destruct lookup_at as [t|].
  - destruct (H t eq_refl) as [H1 H2]. cbn zeta. order_events; auto.
  - cbn zeta. order_events; auto.
Qed.

Lemma schedule_lookup_first select_at t tie pick late :
  (t < phoneTimeout)%N -> (select_at < phoneTimeout)%N ->
  events (schedule_at select_at (Some t) tie pick late)
  = [SelectReached; LookupReturns] ++ [DeadlineElapses]
  \/ events (schedule_at select_at (Some t) tie pick late)
     = [LookupReturns; SelectReached] ++ [DeadlineElapses].
Proof. intros H1 H2. order_events; auto. Qed.

Lemma schedule_both_first select_at t tie pick late :
  (t < select_at)%N -> (phoneTimeout < select_at)%N ->
  events (schedule_at select_at (Some t) tie pick late)
  = [LookupReturns; DeadlineElapses; SelectReached]
  \/ events (schedule_at select_at (Some t) tie pick late)
     = [DeadlineElapses; LookupReturns; SelectReached].
Proof. intros H1 H2. order_events; auto. Qed.

End Deadline.

Section DeadlineExample.

(** A page whose phone button carries the number in its identifier. *)
Definition page_with_phone_button : Page :=
  {| Elements := fun sel =>
       match sel with
       | PhoneButtons =>
           Some [{| Attribute := fun a =>
                      match a with
                      | DataItemId => Some (Some (str "phone:tel:+522221234567"))
                      | AriaLabel => Some None
                      end;
                    Text := Some (str "222 123 4567") |}]
       | _ => Some []
       end |}.

Example page_with_phone_button_found :
  findPhoneNumber_batch page_with_phone_button = str "222 123 4567".
Proof. reflexivity. Qed.

(** A job that reaches the [select]: the page opens, the navigation
    succeeds and the page settles. *)
Definition job_at_select (page : Page) (sch : schedule) : visit :=
  {| page_opens := true; navigate_ok := true; settles := Settles;
     page := page; sched := sch |}.

End DeadlineExample.

(** The claim C6 as it is written: a job whose deadline elapses before
    the lookup returns reports the time-out. *)
Definition deadline_means_timeout : Prop :=
  forall page select_at t tie pick late,
    (phoneTimeout < t)%N ->
    ExtractPhoneFromGoogleMapsURL
      (job_at_select page (schedule_at select_at (Some t) tie pick late))
    = Reports ([], Some ErrTimeout).

(** C6, as the code contradicts it: the context is created before the
    navigation and only the [select] looks at it.  When the deadline has
    elapsed during a slow navigation (30 s), the lookup returns 50 ms
    after its goroutine is started (at 40.05 s) and the caller reaches
    the [select] after it (at 40.06 s), the phone and the time-out are
    both ready, and the job can report the phone. *)
Lemma deadline_elapsed_phone_reported :
  (phoneTimeout < 40050)%N
  /\ ExtractPhoneFromGoogleMapsURL
       (job_at_select page_with_phone_button
          (schedule_at 40060 (Some 40050%N) (fun _ => 0%N) 0 []))
     = Reports (str "222 123 4567", None)
  /\ ~ deadline_means_timeout.
Proof.
  assert (ExtractPhoneFromGoogleMapsURL
            (job_at_select page_with_phone_button
               (schedule_at 40060 (Some 40050%N) (fun _ => 0%N) 0 []))
          = Reports (str "222 123 4567", None)) as H
    by (vm_compute; reflexivity).
  split; [vm_compute; reflexivity|]. split; [exact H|].
  intros Hc.
  rewrite (Hc page_with_phone_button 40060%N 40050%N (fun _ => 0%N) 0 []) in H;
    [discriminate H | vm_compute; reflexivity].
Qed.

(** C6, amended: for a job that reaches the [select] (the page opens,
    the navigation succeeds, the page settles),
    - when the deadline of [phoneTimeout] elapses before the lookup
      returns and the caller reaches the [select] before the lookup
      returns (or the lookup never returns), the job reports the time-out
      and no phone; the lookup is not stopped: when it returns, its send
      does not block and what it found on the page, closed under it by
      then, stays unread in its channel;
    - when the lookup returns before the deadline and the [select] is
      reached before the deadline, the job reports the phone the lookup
      found, "no phone found" when it found none;
    - when both the lookup has returned and the deadline has elapsed
      before the [select] is reached, the job reports either.
    A navigation that fails is reported as such whatever the instants. *)
Theorem ExtractPhone_deadline (page : Page) (select_at : N)
    (lookup_at : option N) (tie : event -> N) (pick : nat) (late : gostring) :
  let sch := schedule_at select_at lookup_at tie pick late in
  let job := job_at_select page sch in
  let phone := findPhoneNumber_batch page in
  let final := findPhoneWithTimeout_call page sch in
  ((forall t, lookup_at = Some t -> (phoneTimeout < t)%N /\ (select_at < t)%N) ->
     ExtractPhoneFromGoogleMapsURL job = Reports ([], Some ErrTimeout)
     /\ (forall t, lookup_at = Some t ->
           lookup_running final = false
           /\ if nonempty late then done (ch final) = Some late
              else errChan (ch final) = Some ErrNoPhone))
  /\ (forall t, lookup_at = Some t -> (t < phoneTimeout)%N -> (select_at < phoneTimeout)%N ->
        ExtractPhoneFromGoogleMapsURL job
        = Reports (if nonempty phone then (phone, None) else ([], Some ErrNoPhone)))
  /\ (forall t, lookup_at = Some t -> (t < select_at)%N -> (phoneTimeout < select_at)%N ->
        ExtractPhoneFromGoogleMapsURL job
        = Reports (if Nat.eqb (pick mod 2) 0
                   then if nonempty phone then (phone, None) else ([], Some ErrNoPhone)
                   else ([], Some ErrTimeout)))
  /\ (forall w,
        ExtractPhoneFromGoogleMapsURL
          {| page_opens := true; navigate_ok := false; settles := w;
             page := page; sched := sch |}
        = Reports ([], Some ErrNavigate)).
Proof.
  cbn zeta. unfold ExtractPhoneFromGoogleMapsURL, job_at_select, findPhoneWithTimeout,
    findPhoneWithTimeout_call.
  cbn [page_opens navigate_ok settles JobRunner.page sched negb].
  fold started. split; [|split; [|split]].
  - intros Hlate.
    assert (JobRunner.late (schedule_at select_at lookup_at tie pick late) = late) as -> by reflexivity.
    assert (JobRunner.pick (schedule_at select_at lookup_at tie pick late) = pick) as ->
      by reflexivity.
    assert (exists first rest,
              events (schedule_at select_at lookup_at tie pick late) = first ++ rest
              /\ run_events (findPhoneNumber_batch page) late pick first started = timed_out
              /\ (forall t, lookup_at = Some t -> LookupReturns ∈ rest))
      as (first & rest & -> & Hfirst & Hrest).
    { destruct (deadline_first (findPhoneNumber_batch page) late pick) as [H1 H2].
      destruct (schedule_deadline_first select_at lookup_at tie pick late Hlate) as [-> | ->];
        eexists _, _; (split; [reflexivity|]); (split; [eassumption|]);
        intros t ->; apply list_elem_of_here. }
    rewrite run_events_app, Hfirst. split.
    + unfold returned.
      rewrite (run_events_left _ _ _ rest timed_out ([], Some ErrTimeout) eq_refl).
      reflexivity.
    + intros t Ht.
      apply (left_then _ _ _ ([], Some ErrTimeout)); [reflexivity | reflexivity | eauto].
  - intros t -> Ht Hs.
    assert (JobRunner.late (schedule_at select_at (Some t) tie pick late) = late) as -> by reflexivity.
    assert (JobRunner.pick (schedule_at select_at (Some t) tie pick late) = pick) as ->
      by reflexivity.
    destruct (lookup_first (findPhoneNumber_batch page) late pick) as [H1 H2].
    assert (forall first, returned (run_events (findPhoneNumber_batch page) late pick first started)
                          = Some (lookup_result (findPhoneNumber_batch page)) ->
              returned (run_events (findPhoneNumber_batch page) late pick
                          (first ++ [DeadlineElapses]) started)
              = Some (lookup_result (findPhoneNumber_batch page))) as Hkeep.
    { intros first H. rewrite run_events_app. unfold returned in *.
      destruct (at_select (run_events _ _ _ first started)) as [| |r] eqn:E;
        [discriminate | discriminate|].
      rewrite (run_events_left _ _ _ _ _ r E). exact H. }
    destruct (schedule_lookup_first select_at t tie pick late Ht Hs) as [-> | ->];
      [rewrite (Hkeep _ H1) | rewrite (Hkeep _ H2)]; unfold lookup_result;
      destruct (nonempty (findPhoneNumber_batch page)); reflexivity.
  - intros t -> Ht Hs.
    assert (JobRunner.late (schedule_at select_at (Some t) tie pick late) = late) as -> by reflexivity.
    assert (JobRunner.pick (schedule_at select_at (Some t) tie pick late) = pick) as ->
      by reflexivity.
    destruct (both_first (findPhoneNumber_batch page) late pick) as [H1 H2].
    cbn zeta in H1, H2.
    destruct (schedule_both_first select_at t tie pick late Ht Hs) as [-> | ->];
      [rewrite H1 | rewrite H2]; unfold lookup_result;
      destruct (Nat.eqb (pick mod 2) 0), (nonempty (findPhoneNumber_batch page));
      reflexivity.
  - intros w. reflexivity.
Qed.

Lemma ExtractPhone_deadline_witness :
  ExtractPhoneFromGoogleMapsURL
    (job_at_select page_with_phone_button
       (schedule_at (5 * Second) (Some (31 * Second)%N) (fun _ => 0%N) 0 []))
  = Reports ([], Some ErrTimeout)
  /\ ExtractPhoneFromGoogleMapsURL
       (job_at_select page_with_phone_button
          (schedule_at (5 * Second) (Some (6 * Second)%N) (fun _ => 0%N) 0 []))
     = Reports (if nonempty (findPhoneNumber_batch page_with_phone_button)
                then (findPhoneNumber_batch page_with_phone_button, None)
                else ([], Some ErrNoPhone)).
Proof.
  pose proof (ExtractPhone_deadline page_with_phone_button (5 * Second)%N
                (Some (31 * Second)%N) (fun _ => 0%N) 0 []) as [Hlate _].
  pose proof (ExtractPhone_deadline page_with_phone_button (5 * Second)%N
                (Some (6 * Second)%N) (fun _ => 0%N) 0 []) as (_ & Hearly & _).
  split.
  - destruct Hlate as [H _]; [|exact H].
    intros t [= <-]. unfold phoneTimeout, Second. lia.
  - apply (Hearly (6 * Second)%N eq_refl); unfold phoneTimeout, Second; lia.
Defined.

(** ** The worker pool *)

Import Pool.

Section PoolInvariant.
Variable cap : nat.
Variable ext : extractor.

(** The program points between the acquisition of the semaphore and
    its release. *)
Definition between_acquire_and_release (p : worker_pc) : bool :=
  match p with
  | AtCheck | Extracting | Pacing | AtRelease => true
  | _ => false
  end.

(** The program points of a started goroutine that has not called
    [wg.Done()] yet. *)
Definition active (p : worker_pc) : bool :=
  match p with
  | NotStarted | Finished => false
  | _ => true
  end.

(** The program points after the body of the goroutine has dealt with
    its record. *)
Definition settled (p : worker_pc) : bool :=
  match p with
  | Pacing | AtRelease | AtBarAdd | AtWgDone | Finished => true
  | _ => false
  end.

(** The record of one index once its goroutine has dealt with it. *)
Definition final (index : nat) (place : PlaceWithPhone) : PlaceWithPhone :=
  if eligible place then store (ext index (GoogleURL place)) place else place.

Lemma pc_eqb_eq a b : pc_eqb a b = true <-> a = b.
Proof. destruct a, b; simpl; split; congruence. Qed.

Lemma count_insert (p : worker -> bool) : forall (ws : list worker) i w w',
  ws !! i = Some w ->
  count p (<[i := w']> ws) + (if p w then 1 else 0)
  = count p ws + (if p w' then 1 else 0).
Proof.
  induction ws as [|x ws IH]; intros [|i] w w' H; simpl in *; try discriminate.
  - injection H as ->. lia.
  - specialize (IH i w w' H). lia.
Qed.

Lemma count_le (p q : worker -> bool) (ws : list worker) :
  Forall (fun w => p w = true -> q w = true) ws -> count p ws <= count q ws.
Proof.
  induction 1 as [|w ws Hw _ IH]; simpl; [lia|].
  destruct (p w); [rewrite Hw by reflexivity|destruct (q w)]; lia.
Qed.

Lemma count_zero (p : worker -> bool) (ws : list worker) :
  count p ws = 0 -> Forall (fun w => p w = false) ws.
Proof.
  induction ws as [|w ws IH]; simpl; intros H; constructor.
  - destruct (p w); [discriminate | reflexivity].
  - apply IH. destruct (p w); [discriminate | exact H].
Qed.

Lemma count_pos (p : worker -> bool) (ws : list worker) i w :
  ws !! i = Some w -> p w = true -> 1 <= count p ws.
Proof.
  revert i. induction ws as [|x ws IH]; intros [|i] H Hp; simpl in *; try discriminate.
  - injection H as ->. rewrite Hp. lia.
  - specialize (IH i H Hp). lia.
Qed.

(** What a step of a worker does. *)
Lemma advance_inv index from w' update s s' :
  advance index from w' update s = Some s' ->
  exists w, workers s !! index = Some w /\ pc w = from
    /\ s' = {| main := main (update s); semaphore := semaphore (update s);
               workers := <[index := w']> (workers (update s));
               updatedPlaces := updatedPlaces (update s);
               bar := bar (update s); wg := wg (update s) |}.
Proof.
  unfold advance. destruct (workers s !! index) as [w|]; [|discriminate].
  destruct (pc_eqb (pc w) from) eqn:E; [|discriminate].
  apply pc_eqb_eq in E. intros [= <-]. eauto.
Qed.

(** The state of the main goroutine and the workers not started yet. *)
Definition main_ok (s : state) : Prop :=
  match main s with
  | Spawning i =>
      i <= length (workers s)
      /\ forall j w, workers s !! j = Some w -> (pc w = NotStarted <-> i <= j)
  | Waiting => Forall (fun w => pc w <> NotStarted) (workers s)
  | Returned => Forall (fun w => pc w = Finished) (workers s)
  end.

(** The record of each index: untouched until its goroutine has dealt
    with it. *)
Definition places_ok (places : list PlaceWithPhone) (s : state) : Prop :=
  forall i w, workers s !! i = Some w ->
    exists place, places !! i = Some place
      /\ updatedPlaces s !! i
         = Some (if settled (pc w) then final i place else place)
      /\ (pc w = Extracting -> eligible place = true).

Record invariant (places : list PlaceWithPhone) (s : state) : Prop := {
  inv_workers : length (workers s) = length places;
  inv_places : length (updatedPlaces s) = length places;
  inv_slot : Forall (fun w => slot w = between_acquire_and_release (pc w)) (workers s);
  inv_semaphore : semaphore s = holding s;
  inv_cap : semaphore s <= cap;
  inv_wg : wg s = count (fun w => active (pc w)) (workers s);
  inv_main : main_ok s;
  inv_records : places_ok places s
}.

Lemma init_invariant places : invariant places (init places).
Proof.
  unfold init. split; simpl.
  - apply length_replicate.
  - reflexivity.
  - apply Forall_replicate. reflexivity.
  - unfold holding; simpl. induction (length places); simpl; auto.
  - lia.
  - induction (length places); simpl; auto.
  - unfold main_ok; simpl. split; [lia|].
    intros j w H. apply lookup_replicate in H as [-> _]. simpl. split; [lia | auto].
  - intros i w H. apply lookup_replicate in H as [-> Hi]. simpl.
    destruct (lookup_lt_is_Some_2 places i Hi) as [place Hp].
    exists place. repeat split; [exact Hp | exact Hp | discriminate].
Qed.

Definition one_if (b : bool) : nat := if b then 1 else 0.

(** A step that replaces the worker of one index keeps the invariant
    when it keeps the accounts of the semaphore and of the wait group. *)
Lemma step_invariant places s s' index w w' :
  invariant places s ->
  workers s !! index = Some w ->
  workers s' = <[index := w']> (workers s) ->
  slot w' = between_acquire_and_release (pc w') ->
  semaphore s' + one_if (slot w) = semaphore s + one_if (slot w') ->
  semaphore s' <= cap ->
  wg s' + one_if (active (pc w)) = wg s + one_if (active (pc w')) ->
  main_ok s' ->
  length (updatedPlaces s') = length places ->
  (forall j, j <> index -> updatedPlaces s' !! j = updatedPlaces s !! j) ->
  (forall place, places !! index = Some place ->
     updatedPlaces s !! index = Some (if settled (pc w) then final index place else place) ->
     (pc w = Extracting -> eligible place = true) ->
     updatedPlaces s' !! index
     = Some (if settled (pc w') then final index place else place)
     /\ (pc w' = Extracting -> eligible place = true)) ->
  invariant places s'.
Proof.
  intros Inv Hw Hws Hslot Hsem Hcap Hwg Hmain Hlen Hother Hindex.
  destruct Inv as [I1 I2 I3 I4 I5 I6 I7 I8].
  pose proof (lookup_lt_Some _ _ _ Hw) as Hlt.
  split.
  - rewrite Hws, length_insert. exact I1.
  - exact Hlen.
  - rewrite Hws. apply Forall_insert; assumption.
  - unfold holding in *. rewrite Hws.
    pose proof (count_insert slot (workers s) index w w' Hw) as Hc.
    unfold one_if in *. destruct (slot w), (slot w'); lia.
  - exact Hcap.
  - rewrite Hws.
    pose proof (count_insert (fun w => active (pc w)) (workers s) index w w' Hw) as Hc.
    unfold one_if in *. cbv beta in Hc.
    destruct (active (pc w)), (active (pc w')); lia.
  - exact Hmain.
  - intros i wi Hi. rewrite Hws in Hi.
    destruct (decide (i = index)) as [-> | Hne].
    + rewrite list_lookup_insert_eq in Hi by exact Hlt. injection Hi as <-.
      destruct (I8 index w Hw) as (place & Hp & Hu & He).
      exists place. split; [exact Hp|]. apply Hindex; assumption.
    + rewrite list_lookup_insert_ne in Hi by auto.
      destruct (I8 i wi Hi) as (place & Hp & Hu & He).
      exists place. rewrite Hother by exact Hne. auto.
Qed.

(** A step of a started worker leaves the main goroutine where it is. *)
Lemma main_ok_worker_step s s' index w w' :
  main_ok s -> workers s !! index = Some w ->
  workers s' = <[index := w']> (workers s) -> main s' = main s ->
  pc w <> NotStarted -> pc w <> Finished -> pc w' <> NotStarted ->
  main_ok s'.
Proof.
  unfold main_ok. intros Hm Hw Hws -> Hn Hf Hn'.
  pose proof (lookup_lt_Some _ _ _ Hw) as Hlt.
  rewrite Hws. destruct (main s) as [i| |].
  - destruct Hm as [Hi Hm]. rewrite length_insert. split; [exact Hi|].
    intros j wj Hj. destruct (decide (j = index)) as [-> | Hne].
    + rewrite list_lookup_insert_eq in Hj by exact Hlt. injection Hj as <-.
      specialize (Hm index w Hw). tauto.
    + rewrite list_lookup_insert_ne in Hj by auto. auto.
  - apply Forall_insert; assumption.
  - exfalso. apply Hf. eapply (Forall_lookup_1 _ _ _ _ Hm Hw).
Qed.

Lemma worker_slot places s index w :
  invariant places s -> workers s !! index = Some w ->
  slot w = between_acquire_and_release (pc w).
Proof. intros Inv Hw. exact (Forall_lookup_1 _ _ _ _ (inv_slot _ _ Inv) Hw). Qed.

Ltac worker_step Inv Hw :=
  eapply (step_invariant _ _ _ _ _ _ Inv Hw);
  [ reflexivity | reflexivity | .. ].

Ltac facts Inv :=
  pose proof (inv_workers _ _ Inv); pose proof (inv_places _ _ Inv);
  pose proof (inv_cap _ _ Inv); pose proof (inv_main _ _ Inv);
  let H := fresh "Hsem" in pose proof (inv_semaphore _ _ Inv) as H; unfold holding in H;
  pose proof (inv_wg _ _ Inv).

(** The obligations of [step_invariant] that do not depend on the step. *)
Ltac side Inv Hw Hpc Hs :=
  simpl; rewrite ?Hpc, ?Hs; simpl;
  first
    [ assumption
    | reflexivity
    | lia
    | solve [ eapply main_ok_worker_step;
              [ apply (inv_main _ _ Inv) | exact Hw | reflexivity | reflexivity
              | rewrite ?Hpc; simpl; discriminate .. ] ]
    | solve [ let Hu := fresh in
              intros ? ? Hu ?; split; [exact Hu | discriminate] ]
    | idtac ].

(** Every step keeps the invariant. *)
Lemma exec_invariant places a s s' :
  invariant places s -> exec cap ext a s = Some s' -> invariant places s'.
Proof.
  intros Inv H. facts Inv. destruct a; simpl in H.
  - (* Spawn *)
    destruct (main s) as [i| |] eqn:Hmain; try discriminate.
    destruct (Nat.ltb_spec i (length (updatedPlaces s))) as [Hi|]; [|discriminate].
    apply advance_inv in H as (w & Hw & Hpc & ->); simpl.
    pose proof (worker_slot _ _ _ _ Inv Hw) as Hs. rewrite Hpc in Hs. simpl in Hs.
    pose proof (lookup_lt_Some _ _ _ Hw) as Hlt.
    worker_step Inv Hw; side Inv Hw Hpc Hs.
    unfold main_ok; simpl. rewrite length_insert. split; [lia|].
    pose proof (inv_main _ _ Inv) as Hm. unfold main_ok in Hm. rewrite Hmain in Hm.
    destruct Hm as [_ Hm]. intros j wj Hj.
    destruct (decide (j = i)) as [-> | Hne].
    + rewrite list_lookup_insert_eq in Hj by exact Hlt. injection Hj as <-.
      simpl. split; [discriminate | lia].
    + rewrite list_lookup_insert_ne in Hj by auto.
      rewrite (Hm j wj Hj). lia.
  - (* LoopExit *)
    destruct (main s) as [i| |] eqn:Hmain; try discriminate.
    destruct (Nat.ltb_spec i (length (updatedPlaces s))) as [|Hi]; [discriminate|].
    injection H as <-. destruct Inv as [I1 I2 I3 I4 I5 I6 I7 I8].
    split; simpl; auto.
    unfold main_ok in *; simpl. rewrite Hmain in I7. destruct I7 as [Hle Hm].
    apply Forall_lookup_2. intros j wj Hj Hn. apply (Hm j wj Hj) in Hn.
    apply lookup_lt_Some in Hj. lia.
  - (* WaitReturns *)
    destruct (main s) eqn:Hmain; try discriminate.
    destruct (wg s) eqn:Hwg; [|discriminate].
    injection H as <-. destruct Inv as [I1 I2 I3 I4 I5 I6 I7 I8].
    split; simpl; auto.
    unfold main_ok in *; simpl. rewrite Hmain in I7.
    rewrite Hwg in I6. symmetry in I6. apply count_zero in I6.
    apply Forall_lookup_2. intros j wj Hj.
    pose proof (Forall_lookup_1 _ _ _ _ I7 Hj) as Hn.
    pose proof (Forall_lookup_1 _ _ _ _ I6 Hj) as Ha. cbv beta in Hn, Ha.
    destruct (pc wj); simpl in Ha; congruence.
  - (* Acquire *)
    destruct (Nat.ltb_spec (semaphore s) cap) as [Hc|]; [|discriminate].
    apply advance_inv in H as (w & Hw & Hpc & ->); simpl.
    pose proof (worker_slot _ _ _ _ Inv Hw) as Hs. rewrite Hpc in Hs. simpl in Hs.
    worker_step Inv Hw; side Inv Hw Hpc Hs.
  - (* Check *)
    destruct (updatedPlaces s !! index) as [place|] eqn:Hplace; [|discriminate].
    destruct (eligible place) eqn:Hel;
      apply advance_inv in H as (w & Hw & Hpc & ->); simpl;
      pose proof (worker_slot _ _ _ _ Inv Hw) as Hs; rewrite Hpc in Hs; simpl in Hs;
      (worker_step Inv Hw; side Inv Hw Hpc Hs).
    + intros place0 Hp Hu _. rewrite Hplace in Hu. injection Hu as ->.
      split; [exact Hplace | intros _; exact Hel].
    + intros place0 Hp Hu _. rewrite Hplace in Hu. injection Hu as ->.
      unfold final. rewrite Hel. split; [exact Hplace | discriminate].
  - (* ExtractReturns *)
    destruct (updatedPlaces s !! index) as [place|] eqn:Hplace; [|discriminate].
    apply advance_inv in H as (w & Hw & Hpc & ->); simpl.
    pose proof (worker_slot _ _ _ _ Inv Hw) as Hs. rewrite Hpc in Hs. simpl in Hs.
    pose proof (lookup_lt_Some _ _ _ Hplace) as Hlt.
    worker_step Inv Hw; side Inv Hw Hpc Hs.
    + rewrite length_insert. assumption.
    + intros j Hj. apply list_lookup_insert_ne. auto.
    + intros place0 Hp Hu He. rewrite Hplace in Hu. injection Hu as ->.
      rewrite list_lookup_insert_eq by exact Hlt. unfold final.
      rewrite (He eq_refl). split; [reflexivity | discriminate].
  - (* SleepDone *)
    apply advance_inv in H as (w & Hw & Hpc & ->); simpl.
    pose proof (worker_slot _ _ _ _ Inv Hw) as Hs. rewrite Hpc in Hs. simpl in Hs.
    worker_step Inv Hw; side Inv Hw Hpc Hs.
  - (* Release *)
    apply advance_inv in H as (w & Hw & Hpc & ->); simpl.
    pose proof (worker_slot _ _ _ _ Inv Hw) as Hs. rewrite Hpc in Hs. simpl in Hs.
    pose proof (count_pos slot _ _ _ Hw Hs) as Hpos.
    worker_step Inv Hw; side Inv Hw Hpc Hs.
  - (* BarAdd *)
    apply advance_inv in H as (w & Hw & Hpc & ->); simpl.
    pose proof (worker_slot _ _ _ _ Inv Hw) as Hs. rewrite Hpc in Hs. simpl in Hs.
    worker_step Inv Hw; side Inv Hw Hpc Hs.
  - (* WgDone *)
    apply advance_inv in H as (w & Hw & Hpc & ->); simpl.
    pose proof (worker_slot _ _ _ _ Inv Hw) as Hs. rewrite Hpc in Hs. simpl in Hs.
    assert (active (pc w) = true) as Hact by (rewrite Hpc; reflexivity).
    pose proof (count_pos (fun w => active (pc w)) _ _ _ Hw Hact) as Hpos.
    worker_step Inv Hw; side Inv Hw Hpc Hs.
Qed.

Lemma run_invariant places : forall trace s s',
  invariant places s -> run cap ext trace s = Some s' -> invariant places s'.
Proof.
  induction trace as [|a trace IH]; intros s s' Inv H; simpl in H.
  - injection H as <-. exact Inv.
  - destruct (exec cap ext a s) as [s1|] eqn:E; [|discriminate].
    eapply IH; [|exact H]. eapply exec_invariant; eassumption.
Qed.

Lemma reachable_invariant places s :
  reachable cap ext places s -> invariant places s.
Proof.
  intros [trace H]. eapply run_invariant; [apply init_invariant | exact H].
Qed.

End PoolInvariant.

Section PoolExample.

(** Four records without a phone and with a page reference, and
    extractions that all succeed. *)
Definition listing (name url : string) : PlaceWithPhone :=
  {| Name := str name; Address := []; Stars := []; Reviews := []; Phone := [];
     Hours := []; Website := []; GoogleURL := str url; ScrapedPhone := [] |}.

Definition four_listings : list PlaceWithPhone :=
  [listing "Spa Uno" "https://maps.example/1"; listing "Spa Dos" "https://maps.example/2";
   listing "Spa Tres" "https://maps.example/3"; listing "Spa Cuatro" "https://maps.example/4"].

Definition always_found : extractor := fun _ _ => (str "222 123 4567", None).

(** Three workers have their phone and sleep; the fourth waits for the
    semaphore. *)
Definition three_pacing_trace : list action :=
  [Spawn; Spawn; Spawn; Spawn; Acquire 0; Acquire 1; Acquire 2;
   Check 0; Check 1; Check 2;
   ExtractReturns 0; ExtractReturns 1; ExtractReturns 2].

Definition three_pacing : state :=
  default (init four_listings)
    (run maxPhoneWorkers always_found three_pacing_trace (init four_listings)).

Lemma three_pacing_reachable :
  reachable maxPhoneWorkers always_found four_listings three_pacing.
Proof. exists three_pacing_trace. vm_compute. reflexivity. Qed.

End PoolExample.

(** C1: in every state that a run of the pool can reach, the workers
    holding a slot are as many as the tokens in the semaphore channel and
    never more than its capacity; the running extractions are among them;
    a worker holds a slot exactly between its acquisition and its release,
    so an extracting worker holds one and a finished worker holds none. *)
Theorem pool_respects_cap (cap : nat) (ext : extractor)
    (places : list PlaceWithPhone) (s : state) :
  reachable cap ext places s ->
  holding s = semaphore s /\ holding s <= cap /\ extracting s <= holding s
  /\ forall index w, workers s !! index = Some w ->
       (pc w = Extracting -> slot w = true)
       /\ (pc w = Finished -> slot w = false)
       /\ (slot w = true ->
           pc w = AtCheck \/ pc w = Extracting \/ pc w = Pacing \/ pc w = AtRelease).
Proof.
  intros Hr. apply reachable_invariant in Hr.
  pose proof (inv_semaphore _ _ _ _ Hr) as Hsem. pose proof (inv_cap _ _ _ _ Hr) as Hcap.
  pose proof (inv_slot _ _ _ _ Hr) as Hslot.
  split; [auto|]. split; [lia|]. split.
  - unfold extracting, holding. apply count_le.
    eapply Forall_impl; [exact Hslot|]. intros w Hw Hp. simpl in *.
    apply pc_eqb_eq in Hp. rewrite Hw, Hp. reflexivity.
  - intros index w Hw. pose proof (Forall_lookup_1 _ _ _ _ Hslot Hw) as E.
    cbv beta in E. rewrite E. destruct (pc w); simpl; repeat split; intros; auto; discriminate.
Qed.

Lemma pool_respects_cap_witness :
  holding three_pacing = semaphore three_pacing
  /\ holding three_pacing <= maxPhoneWorkers
  /\ extracting three_pacing <= holding three_pacing
  /\ forall index w, workers three_pacing !! index = Some w ->
       (pc w = Extracting -> slot w = true)
       /\ (pc w = Finished -> slot w = false)
       /\ (slot w = true ->
           pc w = AtCheck \/ pc w = Extracting \/ pc w = Pacing \/ pc w = AtRelease).
Proof.
  apply (pool_respects_cap maxPhoneWorkers always_found four_listings three_pacing).
  exists three_pacing_trace. vm_compute. reflexivity.
Defined.

(** The claim C7 as it is written: a worker that is pacing has released
    its slot. *)
Definition slot_free_while_pacing (cap : nat) (ext : extractor)
    (places : list PlaceWithPhone) : Prop :=
  forall s index w, reachable cap ext places s ->
    workers s !! index = Some w -> pc w = Pacing -> slot w = false.

(** C7, as the code contradicts it: with four records to enrich, three
    workers sleep their pacing delay with their slots held, the semaphore
    is full, and the fourth worker cannot acquire a slot. *)
Lemma pacing_occupies_slot :
  ~ slot_free_while_pacing maxPhoneWorkers always_found four_listings
  /\ workers three_pacing !! 0 = Some {| pc := Pacing; slot := true |}
  /\ workers three_pacing !! 3 = Some {| pc := AtAcquire; slot := false |}
  /\ semaphore three_pacing = maxPhoneWorkers
  /\ exec maxPhoneWorkers always_found (Acquire 3) three_pacing = None.
Proof.
  assert (workers three_pacing !! 0 = Some {| pc := Pacing; slot := true |}) as H0
    by (vm_compute; reflexivity).
  split; [|split; [exact H0 | repeat split; vm_compute; reflexivity]].
  intros H.
  specialize (H three_pacing 0 {| pc := Pacing; slot := true |}
                three_pacing_reachable H0 eq_refl).
  discriminate H.
Qed.

(** C7, amended: a worker sleeps its pacing delay with its slot held.
    While it sleeps the release cannot happen; the end of the sleep takes
    it, the slot still held, to the release; and when the semaphore is
    full no other worker can acquire a slot. *)
Theorem pacing_keeps_slot (cap : nat) (ext : extractor)
    (places : list PlaceWithPhone) (s : state) (index : nat) (w : worker) :
  reachable cap ext places s ->
  workers s !! index = Some w -> pc w = Pacing ->
  slot w = true /\ 1 <= semaphore s
  /\ exec cap ext (Release index) s = None
  /\ (exists s', exec cap ext (SleepDone index) s = Some s'
        /\ workers s' !! index = Some {| pc := AtRelease; slot := true |}
        /\ semaphore s' = semaphore s)
  /\ (semaphore s = cap -> forall j, exec cap ext (Acquire j) s = None).
Proof.
  intros Hr Hw Hpc. apply reachable_invariant in Hr.
  pose proof (worker_slot _ _ _ _ _ _ Hr Hw) as Hs. rewrite Hpc in Hs. simpl in Hs.
  split; [exact Hs|]. split.
  - rewrite (inv_semaphore _ _ _ _ Hr). eapply count_pos; eassumption.
  - split; [|split].
    + simpl. unfold advance. rewrite Hw, Hpc. reflexivity.
    + simpl. unfold advance. rewrite Hw, Hpc. simpl. eexists; split; [reflexivity|].
      simpl. split; [|reflexivity].
      apply list_lookup_insert_eq. eapply lookup_lt_Some; eassumption.
    + intros Hfull j. simpl. rewrite Hfull, Nat.ltb_irrefl. reflexivity.
Qed.

Lemma pacing_keeps_slot_witness :
  slot {| pc := Pacing; slot := true |} = true /\ 1 <= semaphore three_pacing
  /\ exec maxPhoneWorkers always_found (Release 0) three_pacing = None
  /\ (exists s', exec maxPhoneWorkers always_found (SleepDone 0) three_pacing = Some s'
        /\ workers s' !! 0 = Some {| pc := AtRelease; slot := true |}
        /\ semaphore s' = semaphore three_pacing)
  /\ (semaphore three_pacing = maxPhoneWorkers ->
      forall j, exec maxPhoneWorkers always_found (Acquire j) three_pacing = None).
Proof.
  apply (pacing_keeps_slot maxPhoneWorkers always_found four_listings three_pacing 0
           {| pc := Pacing; slot := true |}).
  - exists three_pacing_trace. vm_compute. reflexivity.
  - vm_compute. reflexivity.
  - reflexivity.
Defined.

(** ** What the pool returns *)

Section PoolReturns.
Variable cap : nat.
Variable ext : extractor.

Lemma processPlacesFrom_lookup : forall places k i,
  processPlacesFrom ext k places !! i = final ext (k + i) <$> places !! i.
Proof.
  induction places as [|place places IH]; intros k [|i]; simpl; try reflexivity.
  - rewrite Nat.add_0_r. reflexivity.
  - rewrite IH. replace (S k + i) with (k + S i) by lia. reflexivity.
Qed.

(** After [wg.Wait()] every goroutine has finished and released its
    slot, and the slice is the one [processPlacesWithPhones] returns. *)
Lemma pool_returned places s :
  reachable cap ext places s -> main s = Returned ->
  updatedPlaces s = processPlacesWithPhones ext places
  /\ Forall (fun w => pc w = Finished) (workers s)
  /\ semaphore s = 0.
Proof.
  intros Hr Hm. apply reachable_invariant in Hr.
  pose proof (inv_main _ _ _ _ Hr) as Hmain. unfold main_ok in Hmain. rewrite Hm in Hmain.
  split; [|split; [exact Hmain|]].
  - apply list_eq. intros i. unfold processPlacesWithPhones.
    rewrite processPlacesFrom_lookup. simpl.
    destruct (workers s !! i) as [w|] eqn:Hw.
    + destruct (inv_records _ _ _ _ Hr i w Hw) as (place & Hp & Hu & _).
      rewrite (Forall_lookup_1 _ _ _ _ Hmain Hw) in Hu. simpl in Hu.
      rewrite Hu, Hp. reflexivity.
    + apply lookup_ge_None in Hw.
      rewrite (inv_workers _ _ _ _ Hr) in Hw.
      rewrite (lookup_ge_None_2 (updatedPlaces s)) by (rewrite (inv_places _ _ _ _ Hr); exact Hw).
      rewrite (lookup_ge_None_2 places) by exact Hw. reflexivity.
  - rewrite (inv_semaphore _ _ _ _ Hr). unfold holding.
    pose proof (inv_slot _ _ _ _ Hr) as Hslot.
    induction (workers s) as [|w ws IH]; [reflexivity|].
    apply Forall_cons_1 in Hmain as [Hw Hws]. apply Forall_cons_1 in Hslot as [Hs Hss].
    simpl. rewrite Hs, Hw. simpl. auto.
Qed.

Lemma run_app : forall t1 t2 s,
  run cap ext (t1 ++ t2) s
  = match run cap ext t1 s with Some s1 => run cap ext t2 s1 | None => None end.
Proof.
  induction t1 as [|a t1 IH]; intros t2 s; simpl; [reflexivity|].
  destruct (exec cap ext a s); [apply IH | reflexivity].
Qed.

(** The steps of one goroutine from its start to its end, run without
    interleaving. *)
Definition round (index : nat) (place : PlaceWithPhone) : list action :=
  [Spawn; Acquire index; Check index]
  ++ (if eligible place then [ExtractReturns index; SleepDone index] else [])
  ++ [Release index; BarAdd index; WgDone index].

Fixpoint rounds (index : nat) (places : list PlaceWithPhone) : list action :=
  match places with
  | [] => []
  | place :: rest => round index place ++ rounds (S index) rest
  end.

Lemma advance_at index from w' update s w :
  workers s !! index = Some w -> pc w = from ->
  advance index from w' update s
  = Some {| main := main (update s); semaphore := semaphore (update s);
            workers := <[index := w']> (workers (update s));
            updatedPlaces := updatedPlaces (update s);
            bar := bar (update s); wg := wg (update s) |}.
Proof.
  intros Hw <-. unfold advance. rewrite Hw.
  assert (pc_eqb (pc w) (pc w) = true) as -> by (apply pc_eqb_eq; reflexivity).
  reflexivity.
Qed.

Lemma run_cons a trace s :
  run cap ext (a :: trace) s
  = match exec cap ext a s with Some s' => run cap ext trace s' | None => None end.
Proof. reflexivity. Qed.

(** The steps on a state written out. *)
Definition st (m : main_pc) (sem : nat) (ws : list worker)
    (ups : list PlaceWithPhone) (b g : nat) : state :=
  {| main := m; semaphore := sem; workers := ws; updatedPlaces := ups;
     bar := b; wg := g |}.

Lemma exec_Spawn sem ws ups b g k sl :
  ws !! k = Some {| pc := NotStarted; slot := sl |} -> k < length ups ->
  exec cap ext Spawn (st (Spawning k) sem ws ups b g)
  = Some (st (Spawning (S k)) sem (<[k := {| pc := AtAcquire; slot := false |}]> ws)
             ups b (S g)).
Proof.
  intros Hw Hk. simpl. destruct (Nat.ltb_spec k (length ups)); [|lia].
  erewrite advance_at by eauto. reflexivity.
Qed.

Lemma exec_Acquire m sem ws ups b g k sl :
  ws !! k = Some {| pc := AtAcquire; slot := sl |} -> sem < cap ->
  exec cap ext (Acquire k) (st m sem ws ups b g)
  = Some (st m (S sem) (<[k := {| pc := AtCheck; slot := true |}]> ws) ups b g).
Proof.
  intros Hw Hk. simpl. destruct (Nat.ltb_spec sem cap); [|lia].
  erewrite advance_at by eauto. reflexivity.
Qed.

Lemma exec_Check m sem ws ups b g k sl place :
  ws !! k = Some {| pc := AtCheck; slot := sl |} -> ups !! k = Some place ->
  exec cap ext (Check k) (st m sem ws ups b g)
  = Some (st m sem
            (<[k := {| pc := if eligible place then Extracting else AtRelease;
                       slot := true |}]> ws) ups b g).
Proof.
  intros Hw Hu. simpl. rewrite Hu.
  destruct (eligible place); erewrite advance_at by eauto; reflexivity.
Qed.

Lemma exec_ExtractReturns m sem ws ups b g k sl place :
  ws !! k = Some {| pc := Extracting; slot := sl |} -> ups !! k = Some place ->
  exec cap ext (ExtractReturns k) (st m sem ws ups b g)
  = Some (st m sem (<[k := {| pc := Pacing; slot := true |}]> ws)
            (<[k := store (ext k (GoogleURL place)) place]> ups) b g).
Proof.
  intros Hw Hu. simpl. rewrite Hu. erewrite advance_at by eauto. reflexivity.
Qed.

Lemma exec_SleepDone m sem ws ups b g k sl :
  ws !! k = Some {| pc := Pacing; slot := sl |} ->
  exec cap ext (SleepDone k) (st m sem ws ups b g)
  = Some (st m sem (<[k := {| pc := AtRelease; slot := true |}]> ws) ups b g).
Proof. intros Hw. simpl. erewrite advance_at by eauto. reflexivity. Qed.

Lemma exec_Release m sem ws ups b g k sl :
  ws !! k = Some {| pc := AtRelease; slot := sl |} ->
  exec cap ext (Release k) (st m sem ws ups b g)
  = Some (st m (pred sem) (<[k := {| pc := AtBarAdd; slot := false |}]> ws) ups b g).
Proof. intros Hw. simpl. erewrite advance_at by eauto. reflexivity. Qed.

Lemma exec_BarAdd m sem ws ups b g k sl :
  ws !! k = Some {| pc := AtBarAdd; slot := sl |} ->
  exec cap ext (BarAdd k) (st m sem ws ups b g)
  = Some (st m sem (<[k := {| pc := AtWgDone; slot := false |}]> ws) ups (S b) g).
Proof. intros Hw. simpl. erewrite advance_at by eauto. reflexivity. Qed.

Lemma exec_WgDone m sem ws ups b g k sl :
  ws !! k = Some {| pc := AtWgDone; slot := sl |} ->
  exec cap ext (WgDone k) (st m sem ws ups b g)
  = Some (st m sem (<[k := {| pc := Finished; slot := false |}]> ws) ups b (pred g)).
Proof. intros Hw. simpl. erewrite advance_at by eauto. reflexivity. Qed.

Hypothesis cap_positive : 0 < cap.

Ltac next L :=
  rewrite run_cons;
  erewrite L by
    first [ eassumption
          | apply list_lookup_insert_eq; assumption
          | rewrite length_insert; assumption
          | lia ];
  rewrite ?list_insert_insert_eq.

Lemma round_runs ws ups b g k place :
  ws !! k = Some {| pc := NotStarted; slot := false |} ->
  ups !! k = Some place ->
  run cap ext (round k place) (st (Spawning k) 0 ws ups b g)
  = Some (st (Spawning (S k)) 0 (<[k := {| pc := Finished; slot := false |}]> ws)
             (<[k := final ext k place]> ups) (S b) g).
Proof.
  intros Hw Hu.
  pose proof (lookup_lt_Some _ _ _ Hw) as Hlw.
  pose proof (lookup_lt_Some _ _ _ Hu) as Hlu.
  unfold round, final. cbn [app].
  next exec_Spawn. next exec_Acquire. next exec_Check.
  destruct (eligible place) eqn:Hel; cbn [app].
  - next exec_ExtractReturns. next exec_SleepDone.
    next exec_Release. next exec_BarAdd. next exec_WgDone. reflexivity.
  - next exec_Release. next exec_BarAdd. next exec_WgDone.
    rewrite (list_insert_id ups k place) by exact Hu. reflexivity.
Qed.

Lemma rounds_run : forall rest k ws ups b g,
  (forall j, j < length rest ->
     ws !! (k + j) = Some {| pc := NotStarted; slot := false |}
     /\ ups !! (k + j) = rest !! j) ->
  exists ws' ups',
    run cap ext (rounds k rest) (st (Spawning k) 0 ws ups b g)
    = Some (st (Spawning (k + length rest)) 0 ws' ups' (b + length rest) g)
    /\ length ups' = length ups.
Proof.
  induction rest as [|place rest IH]; intros k ws ups b g H.
  - exists ws, ups. simpl. rewrite !Nat.add_0_r. auto.
  - destruct (H 0) as [Hw Hu]; [simpl; lia|]. rewrite Nat.add_0_r in Hw, Hu.
    simpl in Hu. cbn [rounds]. rewrite run_app, (round_runs _ _ _ _ _ place Hw Hu).
    destruct (IH (S k) (<[k := {| pc := Finished; slot := false |}]> ws)
                (<[k := final ext k place]> ups) (S b) g) as (ws' & ups' & Hrun & Hlen).
    { intros j Hj. destruct (H (S j)) as [Hw' Hu']; [simpl; lia|].
      replace (k + S j) with (S k + j) in Hw', Hu' by lia.
      rewrite !list_lookup_insert_ne by lia. auto. }
    exists ws', ups'. rewrite Hrun, Hlen, length_insert. split; [|reflexivity].
    simpl. repeat f_equal; lia.
Qed.

(** With a semaphore of positive capacity the pool can run to the end
    of [processPlacesWithPhones]. *)
Lemma pool_can_return places :
  exists s, reachable cap ext places s /\ main s = Returned.
Proof.
  destruct (rounds_run places 0 (replicate (length places) {| pc := NotStarted; slot := false |})
              places 0 0) as (ws' & ups' & Hrun & Hlen).
  { intros j Hj. simpl. split; [|reflexivity].
    apply lookup_replicate_2. exact Hj. }
  eexists. split.
  - exists (rounds 0 places ++ [LoopExit; WaitReturns]).
    unfold st in Hrun. unfold init. rewrite run_app, Hrun.
    cbn [run exec main updatedPlaces].
    destruct (Nat.ltb_spec (0 + length places) (length ups')) as [Hlt|_]; [lia|].
    cbn [with_main main wg]. reflexivity.
  - reflexivity.
Qed.

End PoolReturns.

(** ** The orchestrator and its summary *)

Import Orchestrator.

Section Summary.

(** The record of one index is counted when it was eligible and its
    extraction returned a phone and no error. *)
Definition succeeded (ext : extractor) (index : nat) (place : PlaceWithPhone) : bool :=
  eligible place &&
  match ext index (GoogleURL place) with
  | (phone, None) => negb (is_empty phone)
  | (_, Some _) => false
  end.

Fixpoint count_succeeded (ext : extractor) (index : nat)
    (places : list PlaceWithPhone) : nat :=
  match places with
  | [] => 0
  | place :: rest =>
      (if succeeded ext index place then 1 else 0) + count_succeeded ext (S index) rest
  end.

(** The count as the specification words it: the records with a phone,
    original or extracted. *)
Fixpoint count_with_phone (places : list PlaceWithPhone) : nat :=
  match places with
  | [] => 0
  | place :: rest =>
      (if is_empty (Phone place) && is_empty (ScrapedPhone place) then 0 else 1)
      + count_with_phone rest
  end.

Definition fresh (place : PlaceWithPhone) : Prop := ScrapedPhone place = [].

Lemma readRows_fresh records : Forall fresh (readRows records).
Proof.
  induction records as [|record records IH]; simpl; [constructor|].
  destruct (Nat.ltb _ 8); [exact IH | constructor; [reflexivity | exact IH]].
Qed.

Lemma readCSV_fresh file places : readCSV file = Some places -> Forall fresh places.
Proof.
  unfold readCSV. destruct file as [records|]; [|discriminate].
  destruct (Nat.ltb _ 2); [discriminate|]. intros [= <-]. apply readRows_fresh.
Qed.

Lemma processPlacesFrom_length ext : forall places k,
  length (processPlacesFrom ext k places) = length places.
Proof. induction places; intros k; simpl; auto. Qed.

(** On records read from a file the loop counts the successful
    extractions. *)
Lemma countPhonesFound_processed ext : forall places k,
  Forall fresh places ->
  countPhonesFound (processPlacesFrom ext k places) = count_succeeded ext k places.
Proof.
  induction places as [|place places IH]; intros k Hf; [reflexivity|].
  apply Forall_cons_1 in Hf as [Hp Hf]. simpl. rewrite IH by exact Hf. f_equal.
  unfold succeeded, store. unfold fresh in Hp.
  destruct (eligible place); simpl; [|rewrite Hp; reflexivity].
  destruct (ext k (GoogleURL place)) as [phone [e|]]; [rewrite Hp; reflexivity|].
  destruct phone; simpl; [rewrite Hp; reflexivity | reflexivity].
Qed.

(** The scenario of the specification: five records, two of them with
    an original phone; of the three extractions two find a phone and
    one runs into the deadline. *)
Definition row (name phone url : string) : list gostring :=
  [str name; str "Calle 1"; str "4.5"; str "10"; str phone; str "9-18";
   str "https://example.mx"; str url].

Definition five_records : list (list gostring) :=
  [[str "Name"; str "Address"; str "Stars"; str "Reviews"; str "Phone"; str "Hours";
    str "Website"; str "GoogleURL"];
   row "Uno" "222 000 0001" "https://maps.example/1";
   row "Dos" "222 000 0002" "https://maps.example/2";
   row "Tres" "" "https://maps.example/3";
   row "Cuatro" "" "https://maps.example/4";
   row "Cinco" "" "https://maps.example/5"].

Definition scenario_visit (index : nat) : visit :=
  job_at_select page_with_phone_button
    match index with
    | 4 => schedule_at (5 * Second) None (fun _ => 0%N) 0 []
    | _ => schedule_at (5 * Second) (Some (6 * Second)%N) (fun _ => 0%N) 0 []
    end.

Definition scenario : world :=
  {| file := Some five_records; chrome := true;
     ext := fun index _ =>
              match ExtractPhoneFromGoogleMapsURL (scenario_visit index) with
              | Reports r => r
              | _ => ([], Some ErrTimeout)
              end;
     writable := true |}.


End Summary.

(** C2, as the code contradicts it: in the scenario of five records the
    summary reports two phones (40%), not the four records that have a
    phone, original or extracted. *)
Lemma summary_ignores_original_phones :
  exists updated q,
    saved (ProcessCSV scenario) = Some updated
    /\ total (ProcessCSV scenario) = Some 5
    /\ count_with_phone updated = 4
    /\ phonesFound (ProcessCSV scenario) = Some 2
    /\ phonesFound (ProcessCSV scenario) <> Some (count_with_phone updated)
    /\ rate (ProcessCSV scenario) = Some q /\ (q == 40)%Q /\ ~ (q == 80)%Q.
Proof.
  eexists. eexists. vm_compute. repeat split; try discriminate.
Qed.

(** C2, amended: when [ProcessCSV] completes, the summary reports the
    number of records read, the number of records whose extracted phone
    is not empty, which is the number of eligible records whose extraction
    returned a phone (original phones are not counted), and the ratio of
    the two as a percentage. *)
Theorem summary_counts_extracted (w : world) :
  err (ProcessCSV w) = None ->
  exists places,
    readCSV (file w) = Some places
    /\ saved (ProcessCSV w) = Some (processPlacesWithPhones (ext w) places)
    /\ total (ProcessCSV w) = Some (length places)
    /\ phonesFound (ProcessCSV w)
       = Some (countPhonesFound (processPlacesWithPhones (ext w) places))
    /\ countPhonesFound (processPlacesWithPhones (ext w) places)
       = count_succeeded (ext w) 0 places
    /\ rate (ProcessCSV w)
       = Some (percentage (count_succeeded (ext w) 0 places) (length places)).
Proof.
  unfold ProcessCSV. destruct (readCSV (file w)) as [places|] eqn:Hread; [|discriminate].
  destruct (Nat.eqb (length places) 0); [discriminate|].
  destruct (chrome w); [|discriminate]. destruct (writable w); [|discriminate].
  simpl. intros _. exists places.
  pose proof (countPhonesFound_processed (ext w) places 0 (readCSV_fresh _ _ Hread)) as Hc.
  unfold processPlacesWithPhones.
  rewrite processPlacesFrom_length, Hc. repeat split; reflexivity.
Qed.

Lemma summary_counts_extracted_witness :
  exists places,
    readCSV (file scenario) = Some places
    /\ saved (ProcessCSV scenario) = Some (processPlacesWithPhones (ext scenario) places)
    /\ total (ProcessCSV scenario) = Some (length places)
    /\ phonesFound (ProcessCSV scenario)
       = Some (countPhonesFound (processPlacesWithPhones (ext scenario) places))
    /\ countPhonesFound (processPlacesWithPhones (ext scenario) places)
       = count_succeeded (ext scenario) 0 places
    /\ rate (ProcessCSV scenario)
       = Some (percentage (count_succeeded (ext scenario) 0 places) (length places)).
Proof.
  apply (summary_counts_extracted scenario). vm_compute. reflexivity.
Defined.

Example scenario_summary :
  total (ProcessCSV scenario) = Some 5 /\ phonesFound (ProcessCSV scenario) = Some 2.
Proof. vm_compute. split; reflexivity. Qed.





(** ** The progress broadcaster *)

Import Broadcaster.

(** The claim C9 as it is written: an event that removes an observer is
    a failed write to that observer. *)
Definition removed_only_by_failed_write : Prop :=
  forall ev (clients : gmap nat bool) conn,
    removes ev clients conn -> ev = Write conn true.

(** C9, as the code contradicts it: a registered observer whose
    connection fails to read is removed by [handleWebSocket], with no
    write to it. *)
Lemma read_error_removes_observer :
  removes (ReadError 1) {[1 := true]} 1 /\ ~ removed_only_by_failed_write.
Proof.
  assert (removes (ReadError 1) {[1 := true]} 1) as H.
  { split; [exists true; apply lookup_singleton_eq | apply lookup_delete_eq]. }
  split; [exact H|]. intros Hc. apply Hc in H. discriminate H.
Qed.

Section BroadcasterSteps.

Lemma foldr_writes (fails : nat -> bool) : forall (l : list nat) (acc : gmap nat bool) conn,
  foldr (fun client acc => step (Write client (fails client)) acc) acc l !! conn
  = if bool_decide (conn ∈ l) && fails conn then None else acc !! conn.
Proof.
  induction l as [|c l IH]; intros acc conn; simpl; [reflexivity|].
  unfold write_to.
  set (rest := foldr _ acc l) in *.
  assert (rest !! conn = if bool_decide (conn ∈ l) && fails conn then None else acc !! conn)
    as Hrest by apply IH.
  destruct (decide (conn = c)) as [-> | Hne].
  - rewrite (bool_decide_eq_true_2 (c ∈ c :: l)) by apply list_elem_of_here. simpl.
    destruct (rest !! c) eqn:E.
    + destruct (fails c); [apply lookup_delete_eq|].
      rewrite E. rewrite andb_false_r in Hrest. exact Hrest.
    + rewrite E. destruct (fails c); [reflexivity|].
      rewrite andb_false_r in Hrest. exact Hrest.
  - assert (bool_decide (conn ∈ c :: l) = bool_decide (conn ∈ l)) as ->.
    { apply bool_decide_ext. rewrite elem_of_cons. tauto. }
    destruct (rest !! c); [|exact Hrest].
    destruct (fails c); [|exact Hrest].
    rewrite lookup_delete_ne by auto. exact Hrest.
Qed.

(** After a message, the observers left are those whose write did not
    fail. *)
Lemma handleMessage_lookup fails (clients : gmap nat bool) conn :
  handleMessage fails clients !! conn = if fails conn then None else clients !! conn.
Proof.
  unfold handleMessage. rewrite foldr_writes.
  destruct (clients !! conn) as [b|] eqn:E.
  - rewrite bool_decide_eq_true_2; [reflexivity|].
    apply elem_of_elements, elem_of_dom. eauto.
  - destruct (_ && _), (fails conn); reflexivity.
Qed.

End BroadcasterSteps.

(** C9, amended: an event removes a registered observer exactly when
    it is a write to that observer that failed or a failed read on its
    connection, and nothing else removes one; a message removes exactly
    the registered observers whose write fails, and leaves the entries of
    the others as they are. *)
Theorem observer_removed_by_write_or_read_error
    (ev : event) (clients : gmap nat bool) (conn : nat) :
  (removes ev clients conn
   <-> is_Some (clients !! conn) /\ (ev = Write conn true \/ ev = ReadError conn))
  /\ forall fails,
       (is_Some (clients !! conn) ->
        (handleMessage fails clients !! conn = None <-> fails conn = true))
       /\ (fails conn = false ->
           handleMessage fails clients !! conn = clients !! conn).
Proof.
  split; [split|].
  - intros [[b Hin] Hout]. split; [eauto|].
    destruct ev as [c | c failed | c]; simpl in Hout.
    + destruct (decide (c = conn)) as [-> | Hne].
      * rewrite lookup_insert_eq in Hout. discriminate.
      * rewrite lookup_insert_ne in Hout by exact Hne. congruence.
    + destruct (clients !! c) eqn:E; [|congruence].
      unfold write_to in Hout. destruct failed; [|congruence].
      destruct (decide (c = conn)) as [-> | Hne]; [left; reflexivity|].
      rewrite lookup_delete_ne in Hout by exact Hne. congruence.
    + destruct (decide (c = conn)) as [-> | Hne]; [right; reflexivity|].
      rewrite lookup_delete_ne in Hout by exact Hne. congruence.
  - intros [[b Hin] [-> | ->]]; (split; [eauto|]); simpl.
    + rewrite Hin. unfold write_to. apply lookup_delete_eq.
    + apply lookup_delete_eq.
  - intros fails. rewrite handleMessage_lookup. split.
    + intros [b Hin]. rewrite Hin. destruct (fails conn); split; congruence.
    + intros ->. reflexivity.
Qed.

Lemma observer_removed_by_write_or_read_error_witness :
  removes (Write 1 true) ({[1 := true]} : gmap nat bool) 1
  /\ forall fails, fails 1 = true ->
       handleMessage fails ({[1 := true]} : gmap nat bool) !! 1 = None.
Proof.
  pose proof (observer_removed_by_write_or_read_error
                (Write 1 true) {[1 := true]} 1) as [[_ Hremoves] Hmessage].
  assert (is_Some (({[1 := true]} : gmap nat bool) !! 1)) as Hin
    by (exists true; apply lookup_singleton_eq).
  split.
  - apply Hremoves. split; [exact Hin | left; reflexivity].
  - intros fails Hf. destruct (Hmessage fails) as [H _]. apply H; assumption.
Defined.

(* ================================================================== *)
(** * Further properties of the code *)
(* ================================================================== *)

(** ** The validator *)

Section ValidatorExact.

(** A pattern that ends with [$] matches the whole text or nothing. *)
Lemma match_here_prefix : forall p s m,
  match_here p s = Some m -> exists rest, s = m ++ rest.
Proof.
  induction p as [|[cls lo hi|] p IH]; intros s m H; simpl in H.
  - injection H as <-. exists s. reflexivity.
  - apply rep_sound in H as (a & m' & s' & -> & -> & _ & _ & Hk).
    apply IH in Hk as [rest ->]. exists rest. rewrite app_assoc. reflexivity.
  - destruct s; [|discriminate]. apply IH in H as [rest H].
    exists rest. exact H.
Qed.

(** An optional character that is there is taken when the rest of the
    pattern matches after it. *)
Lemma rep_optional_taken cls k c s :
  cls c = true ->
  rep cls k 0 1 (c :: s)
  = match k s with Some m => Some (c :: m) | None => k (c :: s) end.
Proof. intros H. simpl. rewrite H. destruct s; reflexivity. Qed.

Lemma phonePattern_sound c m :
  match_here (body phonePattern) c = Some m ->
  exists sign ds, c = sign ++ ds /\ (sign = [] \/ sign = str "+")
    /\ all_digits ds /\ 10 <= length ds <= 15.
Proof.
  intros H.
  change (match_here (body phonePattern) c)
    with (rep (lit "+") (rep digit (match_here [EndText]) 10 15) 0 1 c) in H.
  apply rep_sound in H as (a & m1 & s1 & _ & -> & Ha & Hla & H).
  apply rep_sound in H as (b & m2 & s2 & _ & -> & Hb & Hlb & H).
  simpl in H. destruct s2; [|discriminate].
  exists a, b. rewrite app_nil_r. split; [reflexivity|]. split; [|split; assumption].
  destruct a as [|p [|]]; simpl in Hla; try lia; [left; reflexivity|].
  apply Forall_cons_1 in Ha as [Hp _]. apply lit_eq in Hp as ->. right; reflexivity.
Qed.

Lemma phonePattern_signed ds :
  all_digits ds -> 10 <= length ds <= 15 ->
  match_here (body phonePattern) ("+"%char :: ds) = Some ("+"%char :: ds).
Proof.
  intros Hd Hlen.
  change (match_here (body phonePattern) ("+"%char :: ds))
    with (rep (lit "+") (rep digit (match_here [EndText]) 10 15) 0 1 ("+"%char :: ds)).
  rewrite rep_optional_taken by reflexivity.
  rewrite (rep_all digit _ 15 10 ds); auto.
Qed.

Lemma isPhoneNumber_spec text :
  isPhoneNumber text = true <->
  exists ds, all_digits ds /\ 10 <= length ds <= 15
    /\ (clean text = ds \/ clean text = "+"%char :: ds).
Proof.
  split.
  - unfold isPhoneNumber, MatchString, find. fold (clean text).
    change (begin_text phonePattern) with true. cbv iota.
    destruct (match_here (body phonePattern) (clean text)) as [m|] eqn:E; [|discriminate].
    intros _. apply phonePattern_sound in E as (sign & ds & E & [-> | ->] & Hd & Hl);
      exists ds; auto.
  - intros (ds & Hd & Hl & [E | E]).
    + apply isPhoneNumber_digits; rewrite E; assumption.
    + unfold isPhoneNumber, MatchString, find. fold (clean text). rewrite E.
      change (begin_text phonePattern) with true. cbv iota.
      rewrite phonePattern_signed by assumption. reflexivity.
Qed.

(** Two texts with the same cleaned form are validated alike. *)
Lemma isPhoneNumber_clean a b : clean a = clean b -> isPhoneNumber a = isPhoneNumber b.
Proof. unfold isPhoneNumber. fold (clean a) (clean b). intros ->. reflexivity. Qed.

(** What [formatPhone] does to the cleaned form. *)
Lemma formatPhone_clean x :
  clean (formatPhone x) = clean x
  \/ (clean x = str "+52" ++ clean (formatPhone x) /\ length (clean (formatPhone x)) = 10).
Proof.
  rewrite formatPhone_unfold. unfold ten_digits.
  pose proof (clean_all_kept x) as Hk.
  destruct (HasPrefix (clean x) (str "+52")) eqn:Hp.
  - apply HasPrefix_plus52 in Hp.
    assert (Forall kept (TrimPrefix (clean x) (str "+52"))) as Hk1.
    { rewrite Hp in Hk. apply Forall_app in Hk as [_ Hk]. exact Hk. }
    destruct (Nat.eqb_spec (length (TrimPrefix (clean x) (str "+52"))) 10) as [Hl|Hl].
    + right. rewrite clean_grouped by assumption. auto.
    + left. reflexivity.
  - destruct (Nat.eqb_spec (length (clean x)) 10) as [Hl|Hl]; simpl; [|left; reflexivity].
    destruct (negb _); [|left; reflexivity].
    left. apply clean_grouped; assumption.
Qed.

End ValidatorExact.

(** X1: [isPhoneNumber] accepts exactly the texts that, without white
    space, hyphens and parentheses, are ten to fifteen digits after an
    optional sign. *)
Theorem isPhoneNumber_exact (text : gostring) :
  isPhoneNumber text = true <->
  exists ds, Forall (fun c => digit c = true) ds /\ 10 <= length ds <= 15
    /\ (ReplaceAllString separator text [] = ds
        \/ ReplaceAllString separator text [] = "+"%char :: ds).
Proof. exact (isPhoneNumber_spec text). Qed.

(** X2: [formatPhone] changes nothing but separators and the prefix
    [+52]: the cleaned result is the cleaned input, or the cleaned input
    is [+52] followed by the ten bytes of the cleaned result. *)
Theorem formatPhone_keeps_digits (x : gostring) :
  ReplaceAllString separator (formatPhone x) [] = ReplaceAllString separator x []
  \/ (ReplaceAllString separator x []
      = str "+52" ++ ReplaceAllString separator (formatPhone x) []
      /\ length (ReplaceAllString separator (formatPhone x) []) = 10).
Proof. exact (formatPhone_clean x). Qed.

(** X3: a text that the validator accepts is still accepted after
    [formatPhone]. *)
Theorem formatPhone_preserves_valid (x : gostring) :
  isPhoneNumber x = true -> isPhoneNumber (formatPhone x) = true.
Proof.
  intros Hv. destruct (formatPhone_clean x) as [E | [E Hl]].
  - rewrite (isPhoneNumber_clean _ _ E). exact Hv.
  - apply isPhoneNumber_spec in Hv as (ds & Hd & Hlen & [Ec | Ec]).
    + (* digits only: the cleaned input cannot start with a sign *)
      rewrite Ec in E. destruct ds as [|d ds]; [discriminate|].
      injection E as -> _. apply Forall_cons_1 in Hd as [Hd _]. discriminate Hd.
    + rewrite Ec in E. injection E as E.
      apply isPhoneNumber_digits; [|lia].
      rewrite E in Hd. apply Forall_cons_1 in Hd as [_ Hd].
      apply Forall_cons_1 in Hd as [_ Hd]. exact Hd.
Qed.

Lemma formatPhone_preserves_valid_witness :
  isPhoneNumber (formatPhone (str "+52 (222) 123-4567")) = true.
Proof.
  apply (formatPhone_preserves_valid (str "+52 (222) 123-4567")).
  vm_compute. reflexivity.
Defined.

(** ** The text-pattern matcher on canonical inputs *)

Section MatcherComplete.

(** A repetition of exactly [n] characters takes the [n] characters of
    the class that are there. *)
Lemma rep_take cls k : forall n a s,
  Forall (fun c => cls c = true) a -> length a = n ->
  rep cls k n n (a ++ s) = match k s with Some m => Some (a ++ m) | None => None end.
Proof.
  induction n as [|n IH]; intros a s Ha Hl.
  - destruct a; [|discriminate]. simpl. destruct (k s); reflexivity.
  - destruct a as [|c a]; [discriminate|]. apply Forall_cons_1 in Ha as [Hc Ha].
    injection Hl as Hl. simpl. rewrite Hc, (IH a s Ha Hl).
    destruct (k s); reflexivity.
Qed.

(** The least number of bytes a pattern matches. *)
Fixpoint min_length (p : list item) : nat :=
  match p with
  | [] => 0
  | Class _ lo _ :: p' => lo + min_length p'
  | EndText :: p' => min_length p'
  end.

Lemma shape_min_length : forall p m, shape p m -> min_length p <= length m.
Proof.
  induction p as [|[cls lo hi|] p IH]; intros m H; simpl in *.
  - lia.
  - destruct H as (a & m' & -> & _ & Hl & H). apply IH in H.
    rewrite length_app. lia.
  - auto.
Qed.

Lemma search_length p : forall s m, search p s = Some m -> length m <= length s.
Proof.
  induction s as [|c s IH]; intros m H; simpl in H;
    destruct (match_here p _) as [m0|] eqn:E.
  - injection H as <-. apply match_here_prefix in E as [rest E].
    apply (f_equal length) in E. rewrite length_app in E. lia.
  - discriminate.
  - injection H as <-. apply match_here_prefix in E as [rest E].
    apply (f_equal length) in E. rewrite length_app in E. lia.
  - apply IH in H. simpl. lia.
Qed.

(** A text shorter than the least match has no match. *)
Lemma FindString_too_short re text :
  begin_text re = false -> length text < min_length (body re) ->
  FindString re text = [].
Proof.
  intros Hb Hl. unfold FindString, find. rewrite Hb.
  destruct (search (body re) text) as [m|] eqn:E; [|reflexivity].
  pose proof (search_length _ _ _ E). apply search_sound, shape_min_length in E. lia.
Qed.

Lemma search_here p s m : match_here p s = Some m -> search p s = Some m.
Proof. intros H. destruct s; simpl; rewrite H; reflexivity. Qed.

Lemma digit_not_space c : digit c = true -> space c = false.
Proof. destruct c as [[] [] [] [] [] [] [] []]; vm_compute; congruence. Qed.

Lemma digit_not_space_or_hyphen c : digit c = true -> either space (lit "-") c = false.
Proof. destruct c as [[] [] [] [] [] [] [] []]; vm_compute; congruence. Qed.

Definition ten (d0 d1 d2 d3 d4 d5 d6 d7 d8 d9 : ascii) : gostring :=
  [d0; d1; d2; d3; d4; d5; d6; d7; d8; d9].

(** Ten digits in a row are matched whole by a pattern of three, three
    and four digits with optional separators. *)
Lemma ten_digits_matched sep d0 d1 d2 d3 d4 d5 d6 d7 d8 d9 rest :
  all_digits (ten d0 d1 d2 d3 d4 d5 d6 d7 d8 d9) ->
  (forall c, digit c = true -> sep c = false) ->
  match_here [Class digit 3 3; Class sep 0 1; Class digit 3 3; Class sep 0 1; Class digit 4 4]
    (ten d0 d1 d2 d3 d4 d5 d6 d7 d8 d9 ++ rest)
  = Some (ten d0 d1 d2 d3 d4 d5 d6 d7 d8 d9).
Proof.
  intros Hd Hsep. unfold ten, all_digits in *.
  repeat (apply Forall_cons_1 in Hd as [? Hd]).
  cbn [match_here].
  change ([d0; d1; d2; d3; d4; d5; d6; d7; d8; d9] ++ rest)
    with ([d0; d1; d2] ++ d3 :: [d4; d5] ++ d6 :: [d7; d8; d9] ++ rest).
  rewrite rep_take by (repeat constructor; assumption).
  rewrite rep_skip by auto.
  change (d3 :: [d4; d5] ++ d6 :: [d7; d8; d9] ++ rest)
    with ([d3; d4; d5] ++ d6 :: [d7; d8; d9] ++ rest).
  rewrite rep_take by (repeat constructor; assumption).
  rewrite rep_skip by auto.
  change (d6 :: [d7; d8; d9] ++ rest) with ([d6; d7; d8; d9] ++ rest).
  rewrite rep_take by (repeat constructor; assumption).
  reflexivity.
Qed.

Lemma tenDigit_found d0 d1 d2 d3 d4 d5 d6 d7 d8 d9 rest :
  all_digits (ten d0 d1 d2 d3 d4 d5 d6 d7 d8 d9) ->
  FindString tenDigitRegex (ten d0 d1 d2 d3 d4 d5 d6 d7 d8 d9 ++ rest)
  = ten d0 d1 d2 d3 d4 d5 d6 d7 d8 d9.
Proof.
  intros Hd. unfold FindString, find. change (begin_text tenDigitRegex) with false.
  cbv iota. change (body tenDigitRegex)
    with [Class digit 3 3; Class space 0 1; Class digit 3 3; Class space 0 1; Class digit 4 4].
  rewrite (search_here _ _ _ (ten_digits_matched space _ _ _ _ _ _ _ _ _ _ rest Hd digit_not_space)).
  reflexivity.
Qed.

Lemma mexican_found d0 d1 d2 d3 d4 d5 d6 d7 d8 d9 rest :
  all_digits (ten d0 d1 d2 d3 d4 d5 d6 d7 d8 d9) ->
  FindString mexicanPhoneRegex (str "+52" ++ ten d0 d1 d2 d3 d4 d5 d6 d7 d8 d9 ++ rest)
  = str "+52" ++ ten d0 d1 d2 d3 d4 d5 d6 d7 d8 d9.
Proof.
  intros Hd. unfold FindString, find. change (begin_text mexicanPhoneRegex) with false.
  cbv iota.
  assert (match_here (body mexicanPhoneRegex)
            (str "+52" ++ ten d0 d1 d2 d3 d4 d5 d6 d7 d8 d9 ++ rest)
          = Some (str "+52" ++ ten d0 d1 d2 d3 d4 d5 d6 d7 d8 d9)) as H.
  { change (body mexicanPhoneRegex)
      with ([Class (lit "+") 0 1; Class (lit "5") 1 1; Class (lit "2") 1 1; Class space 0 1]
            ++ [Class digit 3 3; Class space 0 1; Class digit 3 3; Class space 0 1;
                Class digit 4 4]).
    cbn [app match_here].
    change (str "+52" ++ ten d0 d1 d2 d3 d4 d5 d6 d7 d8 d9 ++ rest)
      with ("+"%char :: ["5"%char] ++ ["2"%char] ++ ten d0 d1 d2 d3 d4 d5 d6 d7 d8 d9 ++ rest).
    rewrite rep_optional_taken by reflexivity.
    rewrite rep_take by (repeat constructor).
    rewrite rep_take by (repeat constructor).
    unfold ten at 1. rewrite <- app_comm_cons.
    rewrite rep_skip by (apply digit_not_space; inversion Hd; assumption).
    pose proof (ten_digits_matched space _ _ _ _ _ _ _ _ _ _ rest Hd digit_not_space) as Ht.
    cbn [match_here] in Ht. unfold ten in Ht at 1. rewrite <- app_comm_cons in Ht.
    rewrite Ht. reflexivity. }
  rewrite (search_here _ _ _ H). reflexivity.
Qed.

(** The result of either matcher from the match of the first pattern,
    and from the match of the second when the first has none. *)
Lemma extract_first text c m :
  FindString mexicanPhoneRegex text = c :: m ->
  extractPhoneFromText text = formatPhone (TrimSpace (c :: m))
  /\ extractPhoneFromText_batch text = formatPhone (TrimSpace (c :: m)).
Proof.
  intros H. unfold extractPhoneFromText, extractPhoneFromText_batch. rewrite H. auto.
Qed.

Lemma extract_second text c m :
  FindString mexicanPhoneRegex text = [] -> FindString tenDigitRegex text = c :: m ->
  extractPhoneFromText text = TrimSpace (c :: m)
  /\ extractPhoneFromText_batch text = TrimSpace (c :: m).
Proof.
  intros H1 H2. unfold extractPhoneFromText, extractPhoneFromText_batch.
  rewrite H1, H2. auto.
Qed.

End MatcherComplete.

(** X4: on ten digits alone both matchers return the digits as they
    are, not grouped; on [+52] followed by ten digits both return the
    three groups that [formatPhone] makes of the ten digits. *)
Theorem extractPhoneFromText_canonical (d0 d1 d2 d3 d4 d5 d6 d7 d8 d9 : ascii) :
  Forall (fun d => digit d = true) [d0; d1; d2; d3; d4; d5; d6; d7; d8; d9] ->
  let ds := [d0; d1; d2; d3; d4; d5; d6; d7; d8; d9] in
  extractPhoneFromText ds = ds
  /\ extractPhoneFromText_batch ds = ds
  /\ extractPhoneFromText (str "+52" ++ ds) = [d0; d1; d2; " "%char; d3; d4; d5; " "%char; d6; d7; d8; d9]
  /\ extractPhoneFromText_batch (str "+52" ++ ds)
     = [d0; d1; d2; " "%char; d3; d4; d5; " "%char; d6; d7; d8; d9].
Proof.
  intros Hd ds.
  assert (Forall kept ds) as Hk by (eapply Forall_impl; [exact Hd | exact digit_kept]).
  assert (FindString mexicanPhoneRegex ds = []) as Hm
    by (apply FindString_too_short; [reflexivity | simpl; lia]).
  pose proof (tenDigit_found d0 d1 d2 d3 d4 d5 d6 d7 d8 d9 [] Hd) as Ht.
  unfold ten in Ht. rewrite app_nil_r in Ht.
  assert (plain d0 /\ plain d9) as [Hp0 Hp9].
  { unfold ds in Hd. repeat (apply Forall_cons_1 in Hd as [? Hd]).
    split; apply digit_plain; assumption. }
  assert (TrimSpace ds = ds) as Hs.
  { apply (TrimSpace_plain ds d0 [d1; d2; d3; d4; d5; d6; d7; d8; d9]
             [d0; d1; d2; d3; d4; d5; d6; d7; d8] d9); auto. }
  pose proof (mexican_found d0 d1 d2 d3 d4 d5 d6 d7 d8 d9 [] Hd) as Hp.
  unfold ten in Hp. rewrite app_nil_r in Hp.
  assert (TrimSpace (str "+52" ++ ds) = str "+52" ++ ds) as Hsp.
  { apply (TrimSpace_plain _ "+"%char ("5"%char :: "2"%char :: ds)
             (str "+52" ++ [d0; d1; d2; d3; d4; d5; d6; d7; d8]) d9); auto.
    apply plus_plain; reflexivity. }
  assert (formatPhone (str "+52" ++ ds) = grouped ds) as Hg.
  { rewrite formatPhone_unfold, clean_app, (clean_kept ds Hk).
    change (clean (str "+52")) with (str "+52").
    rewrite HasPrefix_app, TrimPrefix_app. reflexivity. }
  destruct (extract_second ds d0 [d1; d2; d3; d4; d5; d6; d7; d8; d9] Hm Ht) as [-> ->].
  destruct (extract_first (str "+52" ++ ds) "+"%char ("5"%char :: "2"%char :: ds) Hp)
    as [-> ->].
  fold ds. change ("+"%char :: "5"%char :: "2"%char :: ds) with (str "+52" ++ ds).
  rewrite Hs, Hsp, Hg. repeat split; reflexivity.
Qed.

Lemma extractPhoneFromText_canonical_witness :
  let ds := str "2221234567" in
  extractPhoneFromText ds = ds
  /\ extractPhoneFromText_batch ds = ds
  /\ extractPhoneFromText (str "+52" ++ ds) = str "222 123 4567"
  /\ extractPhoneFromText_batch (str "+52" ++ ds) = str "222 123 4567".
Proof.
  apply (extractPhoneFromText_canonical "2" "2" "2" "1" "2" "3" "4" "5" "6" "7").
  repeat constructor.
Defined.

(** ** The locator: what it returns *)

Section LocatorResults.

(** No phone button has the scheme in its identifier. *)
Definition no_scheme (page : Page) : Prop :=
  forall els, Elements page PhoneButtons = Some els ->
    Forall (fun e => forall id, Attribute e DataItemId = Some (Some id) ->
                                Contains id (str "phone:tel:") = false) els.

(** A matcher whose non-empty results are valid. *)
Definition valid_matcher (extract : gostring -> gostring) : Prop :=
  forall text, nonempty (extract text) = true -> isPhoneNumber (extract text) = true.

Lemma extract_valid : valid_matcher extractPhoneFromText.
Proof.
  intros text Hn. destruct (extractPhoneFromText text) as [|c r] eqn:E; [discriminate|].
  assert (valid_phone (c :: r)) as Hv.
  { destruct (FindString mexicanPhoneRegex text) as [|c1 m1] eqn:E1.
    - destruct (FindString tenDigitRegex text) as [|c2 m2] eqn:E2.
      + destruct (FindString generalPhoneRegex text) as [|c3 m3] eqn:E3;
          unfold extractPhoneFromText in E; rewrite E1, E2, E3 in E; [discriminate|].
        apply FindString_shape in E3.
        destruct (ten_digit_match_valid
                    [Class (either space (lit "-")) 0 1; Class digit 3 3;
                     Class (either space (lit "-")) 0 1] _ E3 general_digits) as [Et H].
        rewrite Et in E. rewrite <- E. exact H.
      + destruct (extract_second text c2 m2 E1 E2) as [E' _]. rewrite E in E'.
        apply FindString_shape in E2.
        destruct (ten_digit_match_valid
                    [Class space 0 1; Class digit 3 3; Class space 0 1] _ E2 tenDigit_digits)
          as [Et H].
        rewrite Et in E'. rewrite E'. exact H.
    - destruct (extract_first text c1 m1 E1) as [E' _]. rewrite E in E'.
      apply FindString_shape in E1. apply mexican_match_valid in E1.
      rewrite E'. exact E1. }
  apply Hv.
Qed.

Lemma extract_batch_valid : valid_matcher extractPhoneFromText_batch.
Proof.
  intros text Hn. destruct (extractPhoneFromText_batch text) as [|c r] eqn:E; [discriminate|].
  assert (valid_phone (c :: r)) as Hv.
  { destruct (FindString mexicanPhoneRegex text) as [|c1 m1] eqn:E1.
    - destruct (FindString tenDigitRegex text) as [|c2 m2] eqn:E2.
      + unfold extractPhoneFromText_batch in E. rewrite E1, E2 in E. discriminate.
      + destruct (extract_second text c2 m2 E1 E2) as [_ E']. rewrite E in E'.
        apply FindString_shape in E2.
        destruct (ten_digit_match_valid
                    [Class space 0 1; Class digit 3 3; Class space 0 1] _ E2 tenDigit_digits)
          as [Et H].
        rewrite Et in E'. rewrite E'. exact H.
    - destruct (extract_first text c1 m1 E1) as [_ E']. rewrite E in E'.
      apply FindString_shape in E1. apply mexican_match_valid in E1.
      rewrite E'. exact E1. }
  apply Hv.
Qed.

Lemma phoneButtonsLoop_valid extract els r :
  valid_matcher extract ->
  Forall (fun e => forall id, Attribute e DataItemId = Some (Some id) ->
                              Contains id (str "phone:tel:") = false) els ->
  phoneButtonsLoop extract els = Some r -> isPhoneNumber r = true.
Proof.
  intros Hx. induction 1 as [|e els He _ IH]; cbn [phoneButtonsLoop]; [discriminate|].
  assert (match Text e with
          | Some text => if nonempty (extract text) then Some (extract text)
                         else phoneButtonsLoop extract els
          | None => phoneButtonsLoop extract els
          end = Some r -> isPhoneNumber r = true) as Htext.
  { destruct (Text e) as [text|]; [|exact IH].
    destruct (nonempty (extract text)) eqn:Hn; [|exact IH].
    intros [= <-]. apply Hx, Hn. }
  destruct (Attribute e DataItemId) as [[id|]|] eqn:Hid; try exact Htext.
  rewrite (He id eq_refl). exact Htext.
Qed.

Lemma labelButtonsLoop_valid extract els r :
  valid_matcher extract -> labelButtonsLoop extract els = Some r -> isPhoneNumber r = true.
Proof.
  intros Hx. induction els as [|e els IH]; simpl; [discriminate|].
  destruct (Attribute e AriaLabel) as [[label|]|]; try exact IH.
  destruct (nonempty (extract label)) eqn:Hn; [|exact IH].
  intros [= <-]. apply Hx, Hn.
Qed.

Lemma displayBlocksLoop_valid els r :
  displayBlocksLoop els = Some r -> isPhoneNumber r = true.
Proof.
  induction els as [|e els IH]; simpl; [discriminate|].
  destruct (Text e) as [text|]; [|exact IH].
  destruct (isPhoneNumber (TrimSpace text)) eqn:Hv; [|exact IH].
  intros [= <-]. exact Hv.
Qed.

Lemma allElementsLoop_valid extract els r :
  valid_matcher extract -> allElementsLoop extract els = Some r -> isPhoneNumber r = true.
Proof.
  intros Hx. induction els as [|e els IH]; simpl; [discriminate|].
  destruct (Text e) as [text|]; [|exact IH].
  destruct (nonempty text); [|exact IH].
  destruct (nonempty (extract text)) eqn:Hn; [|exact IH].
  intros [= <-]. apply Hx, Hn.
Qed.

Lemma strategy_valid page sel loop r :
  (forall els r, Elements page sel = Some els -> loop els = Some r -> isPhoneNumber r = true) ->
  strategy page sel loop = Some r -> isPhoneNumber r = true.
Proof. unfold strategy. destruct (Elements page sel); [eauto | discriminate]. Qed.

Lemma ReplaceFirst_prefix old n : old <> [] -> ReplaceFirst (old ++ n) old [] = n.
Proof.
  intros Hold. destruct old as [|c old]; [congruence|].
  simpl. rewrite Ascii.eqb_refl, HasPrefix_app. simpl. apply drop_app_length.
Qed.

Lemma Contains_prefix old n : Contains (old ++ n) old = true.
Proof.
  pose proof (HasPrefix_app old n) as H.
  destruct (old ++ n); cbn [Contains]; rewrite H; reflexivity.
Qed.

(** An element none of whose queries succeeds. *)
Definition unreadable (e : Element) : Prop :=
  Text e = None /\ forall a, Attribute e a = None.

Lemma loops_unreadable extract els :
  Forall unreadable els ->
  phoneButtonsLoop extract els = None /\ labelButtonsLoop extract els = None
  /\ displayBlocksLoop els = None /\ allElementsLoop extract els = None.
Proof.
  induction 1 as [|e els [Ht Ha] _ (IH1 & IH2 & IH3 & IH4)]; [repeat split|].
  cbn [phoneButtonsLoop labelButtonsLoop displayBlocksLoop allElementsLoop].
  rewrite Ht, !Ha. auto.
Qed.

(** A page with one phone button, whose identifier is the scheme and the
    number, and a display block with another number. *)
Definition page_with_two_numbers : Page :=
  {| Elements := fun sel =>
       match sel with
       | PhoneButtons =>
           Some [{| Attribute := fun a =>
                      match a with
                      | DataItemId => Some (Some (str "phone:tel:" ++ str "5512345678"))
                      | AriaLabel => Some None
                      end;
                    Text := Some (str "222 123 4567") |}]
       | DisplayBlocks =>
           Some [{| Attribute := fun _ => Some None; Text := Some (str "333 123 4567") |}]
       | _ => Some []
       end |}.

End LocatorResults.

(** X5: when no phone button carries the scheme in its identifier,
    every non-empty result of the locator, in either scraper, is accepted
    by the validator. *)
Theorem findPhoneNumber_valid (page : Page) :
  no_scheme page ->
  (findPhoneNumber page <> [] -> isPhoneNumber (findPhoneNumber page) = true)
  /\ (findPhoneNumber_batch page <> [] -> isPhoneNumber (findPhoneNumber_batch page) = true).
Proof.
  intros Hno.
  assert (forall extract r, valid_matcher extract ->
            strategy1 extract page = Some r -> isPhoneNumber r = true) as H1.
  { intros extract r Hx. apply strategy_valid. intros els r' Hels.
    apply phoneButtonsLoop_valid; auto. }
  assert (forall extract r, valid_matcher extract ->
            strategy2 extract page = Some r -> isPhoneNumber r = true) as H2.
  { intros extract r Hx. apply strategy_valid. intros els r' _.
    apply labelButtonsLoop_valid; auto. }
  assert (forall r, strategy3 page = Some r -> isPhoneNumber r = true) as H3.
  { intros r. apply strategy_valid. intros els r' _. apply displayBlocksLoop_valid. }
  assert (forall extract r, valid_matcher extract ->
            strategy4 extract page = Some r -> isPhoneNumber r = true) as H4.
  { intros extract r Hx. apply strategy_valid. intros els r' _.
    apply allElementsLoop_valid; auto. }
  pose proof extract_valid as Hx. pose proof extract_batch_valid as Hxb.
  unfold findPhoneNumber, findPhoneNumber_batch. split.
  - destruct (strategy1 _ page) eqn:E1; [eauto|].
    destruct (strategy2 _ page) eqn:E2; [eauto|].
    destruct (strategy3 page) eqn:E3; [eauto|].
    destruct (strategy4 _ page) eqn:E4; [eauto | congruence].
  - destruct (strategy1 _ page) eqn:E1; [eauto|].
    destruct (strategy2 _ page) eqn:E2; [eauto|].
    destruct (strategy3 page) eqn:E3; [eauto | congruence].
Qed.

Lemma findPhoneNumber_valid_witness :
  (findPhoneNumber page_with_plain_text <> [] ->
   isPhoneNumber (findPhoneNumber page_with_plain_text) = true)
  /\ (findPhoneNumber_batch page_with_plain_text <> [] ->
      isPhoneNumber (findPhoneNumber_batch page_with_plain_text) = true).
Proof.
  apply (findPhoneNumber_valid page_with_plain_text).
  intros els [= <-]. constructor.
Defined.

(** X6: when the first phone button has an identifier that is the
    scheme [phone:tel:] followed by a number, the locator of either
    scraper returns [formatPhone] of that number, whatever else the page
    holds and without validating it; with nothing after the scheme it
    returns the empty string and tries no other strategy. *)
Theorem findPhoneNumber_scheme_first (page : Page) (e : Element)
    (rest : list Element) (number : gostring) :
  Elements page PhoneButtons = Some (e :: rest) ->
  Attribute e DataItemId = Some (Some (str "phone:tel:" ++ number)) ->
  findPhoneNumber page = formatPhone number
  /\ findPhoneNumber_batch page = formatPhone number
  /\ (number = [] -> findPhoneNumber page = [] /\ findPhoneNumber_batch page = []).
Proof.
  intros Hels Hid.
  assert (forall extract, strategy1 extract page = Some (formatPhone number)) as H1.
  { intros extract. unfold strategy1, strategy. rewrite Hels.
    cbn [phoneButtonsLoop]. rewrite Hid, Contains_prefix, ReplaceFirst_prefix by discriminate.
    reflexivity. }
  unfold findPhoneNumber, findPhoneNumber_batch. rewrite !H1.
  split; [reflexivity|]. split; [reflexivity|]. intros ->. split; reflexivity.
Qed.

Lemma findPhoneNumber_scheme_first_witness :
  findPhoneNumber page_with_two_numbers = formatPhone (str "5512345678")
  /\ findPhoneNumber_batch page_with_two_numbers = formatPhone (str "5512345678")
  /\ (str "5512345678" = [] ->
      findPhoneNumber page_with_two_numbers = []
      /\ findPhoneNumber_batch page_with_two_numbers = []).
Proof.
  eapply (findPhoneNumber_scheme_first page_with_two_numbers _ [] (str "5512345678")).
  - reflexivity.
  - reflexivity.
Defined.

(** X7: errors of the page queries are swallowed: when every query of
    the page fails, or every element it returns fails to give its text
    and its attributes, the locator of either scraper reports absent. *)
Theorem findPhoneNumber_unreadable (page : Page) :
  (forall sel els, Elements page sel = Some els -> Forall unreadable els) ->
  findPhoneNumber page = [] /\ findPhoneNumber_batch page = [].
Proof.
  intros H.
  assert (forall sel loop,
            (forall els, Forall unreadable els -> loop els = None) ->
            strategy page sel loop = None) as Hs.
  { intros sel loop Hl. unfold strategy.
    destruct (Elements page sel) as [els|] eqn:E; [|reflexivity]. apply Hl, (H sel), E. }
  unfold findPhoneNumber, findPhoneNumber_batch, strategy1, strategy2, strategy3, strategy4.
  rewrite !Hs; auto; intros els Hu; apply (loops_unreadable extractPhoneFromText els Hu)
    || apply (loops_unreadable extractPhoneFromText_batch els Hu).
Qed.

Lemma findPhoneNumber_unreadable_witness :
  findPhoneNumber {| Elements := fun _ => None |} = []
  /\ findPhoneNumber_batch {| Elements := fun _ => None |} = [].
Proof.
  apply (findPhoneNumber_unreadable {| Elements := fun _ => None |}).
  intros sel els H. discriminate H.
Defined.

(** ** The job runner: what it reports *)

Section JobReports.

Lemma select_ready pick c x : select pick c = Some x -> x ∈ ready c.
Proof. unfold select. intros H. eapply list_elem_of_lookup_2. exact H. Qed.

Lemma select_some pick c : ready c <> [] -> is_Some (select pick c).
Proof.
  intros H. unfold select. apply lookup_lt_is_Some_2.
  apply Nat.mod_upper_bound. destruct (ready c); [congruence | discriminate].
Qed.

(** A result that agrees with what the lookup found. *)
Definition agrees (phone : gostring) (r : result) : Prop :=
  match r.2 with
  | None => r.1 = phone /\ nonempty phone = true
  | Some ErrNoPhone => r.1 = [] /\ nonempty phone = false
  | Some _ => r.1 = []
  end.

(** Channels that hold nothing but what the lookup found. *)
Definition carries (phone : gostring) (c : chans) : Prop :=
  (forall p, done c = Some p -> p = phone /\ nonempty phone = true)
  /\ (forall e, errChan c = Some e -> e = ErrNoPhone /\ nonempty phone = false).

(** While the caller has not returned the channels carry what the
    lookup found on the page; what the caller returns agrees with it. *)
Definition consistent (phone : gostring) (st : call) : Prop :=
  match at_select st with
  | Left r => agrees phone r
  | _ => carries phone (ch st)
  end.

Lemma selects_consistent phone pick st :
  carries phone (ch st) -> consistent phone (selects pick st).
Proof.
  intros [Hd He]. unfold selects, consistent.
  destruct (select pick (ch st)) as [[r c]|] eqn:Hs; cbn [at_select ch];
    [|split; assumption].
  apply select_ready in Hs. unfold ready in Hs.
  rewrite !elem_of_app in Hs. destruct Hs as [Hs | [Hs | Hs]].
  - destruct (done (ch st)) as [p|] eqn:E; [|apply elem_of_nil in Hs; contradiction].
    apply list_elem_of_singleton in Hs. injection Hs as -> ->.
    unfold agrees; simpl. apply Hd. reflexivity.
  - destruct (errChan (ch st)) as [e|] eqn:E; [|apply elem_of_nil in Hs; contradiction].
    apply list_elem_of_singleton in Hs. injection Hs as -> ->.
    unfold agrees; simpl. destruct (He e eq_refl) as [-> Hn]. auto.
  - destruct (ctx_done (ch st)); [|apply elem_of_nil in Hs; contradiction].
    apply list_elem_of_singleton in Hs. injection Hs as -> ->.
    unfold agrees; simpl. reflexivity.
Qed.

Lemma wakes_consistent phone pick st :
  (forall r, at_select st <> Left r) -> carries phone (ch st) ->
  consistent phone (wakes pick st).
Proof.
  intros Hn Hc. unfold wakes. destruct (at_select st) as [| |r] eqn:E.
  - unfold consistent. rewrite E. exact Hc.
  - apply selects_consistent, Hc.
  - destruct (Hn r eq_refl).
Qed.

Lemma lookup_sends_carries phone c : carries phone c -> carries phone (lookup_sends phone c).
Proof.
  intros [Hd He]. unfold lookup_sends. destruct (nonempty phone) eqn:Hn; split; simpl.
  - intros p [= <-]. auto.
  - intros e H. destruct (He e H) as [_ H']. discriminate.
  - intros p H. destruct (Hd p H) as [_ H']. discriminate.
  - intros e [= <-]. auto.
Qed.

Lemma occurs_consistent phone late pick ev st :
  consistent phone st -> consistent phone (occurs phone late pick ev st).
Proof.
  intros H. destruct (at_select st) as [| |r] eqn:E.
  - (* the caller has not reached the select *)
    unfold consistent in H. rewrite E in H.
    destruct ev; cbn [occurs]; rewrite ?E.
    + apply selects_consistent, H.
    + destruct (lookup_running st); [|unfold consistent; rewrite E; exact H].
      apply wakes_consistent; cbn [at_select ch]; [rewrite ?E; discriminate|].
      apply lookup_sends_carries, H.
    + apply wakes_consistent; cbn [at_select ch]; [rewrite ?E; discriminate|].
      destruct H as [Hd He]. split; assumption.
  - (* the caller waits in the select *)
    unfold consistent in H. rewrite E in H.
    destruct ev; cbn [occurs]; rewrite ?E.
    + unfold consistent. rewrite E. exact H.
    + destruct (lookup_running st); [|unfold consistent; rewrite E; exact H].
      apply wakes_consistent; cbn [at_select ch]; [rewrite ?E; discriminate|].
      apply lookup_sends_carries, H.
    + apply wakes_consistent; cbn [at_select ch]; [rewrite ?E; discriminate|].
      destruct H as [Hd He]. split; assumption.
  - (* the caller has returned *)
    unfold consistent in *. rewrite (occurs_left phone late pick ev st r E).
    rewrite E in H. exact H.
Qed.

Lemma run_events_consistent phone late pick evs : forall st,
  consistent phone st -> consistent phone (run_events phone late pick evs st).
Proof.
  induction evs as [|ev evs IH]; intros st H; [exact H|].
  apply IH, occurs_consistent, H.
Qed.

Lemma call_consistent page sch :
  consistent (findPhoneNumber_batch page) (findPhoneWithTimeout_call page sch).
Proof.
  unfold findPhoneWithTimeout_call. apply run_events_consistent.
  split; simpl; intros; discriminate.
Qed.

Lemma lookup_sends_ready phone c : ready (lookup_sends phone c) <> [].
Proof.
  unfold lookup_sends, ready. destruct (nonempty phone); simpl; [discriminate|].
  destruct (done c); discriminate.
Qed.

Lemma deadline_ready d e : ready {| done := d; errChan := e; ctx_done := true |} <> [].
Proof. unfold ready; simpl. destruct d, e; discriminate. Qed.

Lemma selects_ready pick st :
  ready (ch st) <> [] -> exists r, at_select (selects pick st) = Left r.
Proof.
  intros H. unfold selects. destruct (select_some pick _ H) as [[r c] ->]. eauto.
Qed.

Lemma selects_blocked pick st :
  ready (ch st) = [] -> selects pick st
                        = {| ch := ch st; lookup_running := lookup_running st;
                             at_select := InSelect |}.
Proof. intros H. unfold selects. rewrite (select_blocked _ _ H). reflexivity. Qed.

(** Where the caller is, from what has happened: [reached] says that
    the caller has reached the [select], [fired] that the lookup has
    returned or the deadline has elapsed. *)
Definition tracks (st : call) (reached fired : Prop) : Prop :=
  match at_select st with
  | Arriving =>
      ~ reached /\ (fired <-> ready (ch st) <> [])
      /\ (~ fired -> lookup_running st = true)
  | InSelect =>
      reached /\ ~ fired /\ ready (ch st) = [] /\ lookup_running st = true
  | Left _ => reached /\ fired
  end.

Lemma occurs_tracks phone late pick ev st reached fired :
  tracks st reached fired ->
  tracks (occurs phone late pick ev st)
         (reached \/ ev = SelectReached)
         (fired \/ ev = LookupReturns \/ ev = DeadlineElapses).
Proof.
  unfold tracks at 1. destruct (at_select st) as [| |r] eqn:E.
  - intros (Hr & Hf & Hrun). destruct ev; cbn [occurs].
    + rewrite E. destruct (ready (ch st)) as [|x l] eqn:Er.
      * rewrite (selects_blocked _ _ Er). unfold tracks; cbn [at_select ch lookup_running].
        assert (~ fired) as Hnf by (intros Hx; apply Hf in Hx; congruence).
        repeat split; auto. intros [Hx | [Hx | Hx]]; [auto | discriminate | discriminate].
      * destruct (selects_ready pick st) as [r Hl]; [congruence|].
        unfold tracks. rewrite Hl. split; [auto|].
        left. apply Hf. discriminate.
    + destruct (lookup_running st) eqn:Erun.
      * unfold wakes; cbn [at_select]; rewrite E.
        unfold tracks; cbn [at_select ch lookup_running].
        split; [intros [Hx | Hx]; [auto | discriminate]|].
        split; [|intros Hx; exfalso; apply Hx; auto].
        split; [intros _; apply lookup_sends_ready | auto].
      * unfold tracks. rewrite E.
        assert (fired) as Hfd.
        { destruct (ready (ch st)) as [|x l] eqn:Er; [|apply Hf; discriminate].
          assert (~ fired) as Hnf by (intros Hx; apply Hf in Hx; congruence).
          apply Hrun in Hnf. congruence. }
        split; [intros [Hx | Hx]; [auto | discriminate]|].
        split; [|intros Hx; exfalso; apply Hx; auto].
        split; [intros _; apply Hf, Hfd | auto].
    + unfold wakes; cbn [at_select]; rewrite E.
      unfold tracks; cbn [at_select ch lookup_running].
      split; [intros [Hx | Hx]; [auto | discriminate]|].
      split; [|intros Hx; exfalso; apply Hx; auto].
      split; [intros _; apply deadline_ready | auto].
  - intros (Hr & Hf & Hready & Hrun). destruct ev; cbn [occurs].
    + rewrite E. unfold tracks. rewrite E. repeat split; auto.
      intros [Hx | [Hx | Hx]]; [auto | discriminate | discriminate].
    + rewrite Hrun. unfold wakes; cbn [at_select]; rewrite E.
      destruct (selects_ready pick
                  {| ch := lookup_sends phone (ch st); lookup_running := false;
                     at_select := InSelect |}) as [r Hl];
        [apply lookup_sends_ready|].
      unfold tracks. rewrite Hl. auto.
    + unfold wakes; cbn [at_select]; rewrite E.
      destruct (selects_ready pick
                  {| ch := {| done := done (ch st); errChan := errChan (ch st);
                              ctx_done := true |};
                     lookup_running := lookup_running st; at_select := InSelect |})
        as [r Hl]; [apply deadline_ready|].
      unfold tracks. rewrite Hl. auto.
  - intros (Hr & Hf). unfold tracks.
    rewrite (occurs_left phone late pick ev st r E). auto.
Qed.

Lemma tracks_iff st reached fired reached' fired' :
  (reached <-> reached') -> (fired <-> fired') ->
  tracks st reached fired -> tracks st reached' fired'.
Proof.
  intros Hr Hf. unfold tracks. destruct (at_select st); rewrite Hr, Hf; auto.
Qed.

Lemma run_events_tracks phone late pick evs : forall st reached fired,
  tracks st reached fired ->
  tracks (run_events phone late pick evs st)
         (reached \/ SelectReached ∈ evs)
         (fired \/ LookupReturns ∈ evs \/ DeadlineElapses ∈ evs).
Proof.
  induction evs as [|ev evs IH]; intros st reached fired H.
  - cbn [run_events foldl]. eapply tracks_iff; [| |exact H].
    + rewrite elem_of_nil. tauto.
    + rewrite !elem_of_nil. tauto.
  - cbn [run_events foldl]. fold (run_events phone late pick evs).
    eapply tracks_iff; [| |apply IH, (occurs_tracks phone late pick ev), H].
    + rewrite elem_of_cons. intuition congruence.
    + rewrite !elem_of_cons. intuition congruence.
Qed.

Lemma place_event_elem tie a x : forall l,
  x ∈ map snd (place_event tie a l) <-> x = a.2 \/ x ∈ map snd l.
Proof.
  induction l as [|b l IH]; cbn [place_event map].
  - rewrite elem_of_cons. reflexivity.
  - destruct (earlier tie a b); cbn [map]; rewrite !elem_of_cons; [reflexivity|].
    rewrite IH. tauto.
Qed.

End JobReports.

(** X8: whatever the order of the events and the choice of the
    [select], a job that reports no error reports the phone its lookup
    found, which is not empty; a job that reports an error reports no
    phone; and "no phone found" is reported only when the lookup found
    nothing. *)
Theorem ExtractPhone_report (v : visit) (phone : gostring) (e : option JobRunner.error) :
  ExtractPhoneFromGoogleMapsURL v = Reports (phone, e) ->
  match e with
  | None => phone = findPhoneNumber_batch (page v) /\ phone <> []
  | Some ErrNoPhone => phone = [] /\ findPhoneNumber_batch (page v) = []
  | Some _ => phone = []
  end.
Proof.
  unfold ExtractPhoneFromGoogleMapsURL, findPhoneWithTimeout, returned.
  destruct (page_opens v); cbn [negb]; [|discriminate].
  destruct (navigate_ok v); cbn [negb]; [|intros [= <- <-]; reflexivity].
  destruct (settles v); [|discriminate|discriminate].
  pose proof (call_consistent (page v) (sched v)) as Hr. unfold consistent in Hr.
  destruct (at_select _) as [| |[p [e'|]]]; [discriminate | discriminate | |].
  - intros [= <- <-]. unfold agrees in Hr. simpl in Hr.
    destruct e'; auto. destruct Hr as [_ Hn]. split; [reflexivity|].
    destruct (findPhoneNumber_batch (page v)); [reflexivity | discriminate].
  - intros [= <- <-]. destruct Hr as [Hp Hn]. simpl in Hp. subst p.
    split; [reflexivity|]. intros H. rewrite H in Hn. discriminate.
Qed.

Lemma ExtractPhone_report_witness :
  str "222 123 4567" = findPhoneNumber_batch page_with_phone_button
  /\ str "222 123 4567" <> [].
Proof.
  apply (ExtractPhone_report
           (job_at_select page_with_phone_button
              {| events := [SelectReached; LookupReturns; DeadlineElapses];
                 pick := 0; late := [] |})
           (str "222 123 4567") None).
  vm_compute. reflexivity.
Defined.

(** X9: [findPhoneWithTimeout] returns exactly when the caller has
    reached the [select] and the lookup has returned or the deadline has
    elapsed, in whatever order and whatever else happens; so a lookup
    that never returns cannot keep a job in the [select] beyond the
    deadline: a job that reaches the [select] reports, whatever the
    instants. *)
Theorem findPhoneWithTimeout_returns (page : Page) (sch : schedule) :
  (is_Some (findPhoneWithTimeout page sch)
   <-> SelectReached ∈ events sch
       /\ (LookupReturns ∈ events sch \/ DeadlineElapses ∈ events sch))
  /\ (forall select_at lookup_at tie pick late,
        exists r,
          ExtractPhoneFromGoogleMapsURL
            (job_at_select page (schedule_at select_at lookup_at tie pick late))
          = Reports r).
Proof.
  assert (forall sch,
            is_Some (findPhoneWithTimeout page sch)
            <-> SelectReached ∈ events sch
                /\ (LookupReturns ∈ events sch \/ DeadlineElapses ∈ events sch)) as Hiff.
  { clear sch. intros sch.
    pose proof (run_events_tracks (findPhoneNumber_batch page) (late sch) (pick sch)
                  (events sch) started False False) as H.
    unfold findPhoneWithTimeout, returned. fold started in H.
    unfold findPhoneWithTimeout_call. fold started.
    unfold tracks at 2 in H.
    destruct (at_select _) as [| |r].
    - destruct H as (Hn & _); [repeat split; simpl; tauto|].
      split; [intros [x Hx]; discriminate | intros [Hs _]; exfalso; apply Hn; auto].
    - destruct H as (_ & Hn & _); [repeat split; simpl; tauto|].
      split; [intros [x Hx]; discriminate | intros [_ Hf]; exfalso; apply Hn; auto].
    - destruct H as (Hs & Hf); [repeat split; simpl; tauto|].
      split; [intros _; tauto | eauto]. }
  split; [apply Hiff|].
  intros select_at lookup_at tie pick late.
  destruct (proj2 (Hiff (schedule_at select_at lookup_at tie pick late))) as [[p e] H].
  { unfold schedule_at; cbn [events foldr]. rewrite !place_event_elem. cbn [snd]. tauto. }
  unfold ExtractPhoneFromGoogleMapsURL, job_at_select.
  cbn [page_opens navigate_ok settles JobRunner.page sched negb].
  rewrite H. destruct e; eauto.
Qed.

(** ** The worker pool: barrier, progress and termination *)

(** X10: with a semaphore of positive capacity [processPlacesWithPhones]
    can run to its end, and whenever [wg.Wait()] has returned every
    goroutine has finished, the semaphore is empty, the wait group is at
    zero and the slice is the input with, for each eligible record, the
    phone its extraction returned. *)
Theorem pool_barrier (cap : nat) (ext : extractor) (places : list PlaceWithPhone) :
  0 < cap ->
  (exists s, reachable cap ext places s /\ main s = Returned)
  /\ forall s, reachable cap ext places s -> main s = Returned ->
       updatedPlaces s = processPlacesWithPhones ext places
       /\ Forall (fun w => pc w = Finished) (workers s)
       /\ semaphore s = 0 /\ wg s = 0.
Proof.
  intros Hcap. split; [apply pool_can_return, Hcap|].
  intros s Hr Hm. destruct (pool_returned cap ext places s Hr Hm) as (Hu & Hf & Hs).
  repeat split; auto.
  apply reachable_invariant in Hr. rewrite (inv_wg _ _ _ _ Hr).
  clear -Hf. induction Hf as [|w ws Hw _ IH]; [reflexivity|].
  simpl. rewrite Hw, IH. reflexivity.
Qed.

Lemma pool_barrier_witness :
  (exists s, reachable maxPhoneWorkers always_found four_listings s /\ main s = Returned)
  /\ forall s, reachable maxPhoneWorkers always_found four_listings s -> main s = Returned ->
       updatedPlaces s = processPlacesWithPhones always_found four_listings
       /\ Forall (fun w => pc w = Finished) (workers s)
       /\ semaphore s = 0 /\ wg s = 0.
Proof.
  apply (pool_barrier maxPhoneWorkers always_found four_listings).
  unfold maxPhoneWorkers. lia.
Defined.

Section PoolProgress.
Variable cap : nat.
Variable ext : extractor.

Lemma count_exists (p : worker -> bool) : forall ws,
  0 < count p ws -> exists i w, ws !! i = Some w /\ p w = true.
Proof.
  induction ws as [|w ws IH]; simpl; [lia|]. intros H.
  destruct (p w) eqn:E.
  - exists 0, w. auto.
  - destruct IH as (i & w' & Hi & Hp); [lia|]. exists (S i), w'. auto.
Qed.

Lemma count_all_false (p : worker -> bool) ws :
  Forall (fun w => p w = false) ws -> count p ws = 0.
Proof. induction 1 as [|w ws Hw _ IH]; simpl; [reflexivity | rewrite Hw, IH; reflexivity]. Qed.

(** A started worker that is not waiting for the semaphore can take its
    next step. *)
Lemma worker_can_step places s i w :
  invariant cap ext places s -> workers s !! i = Some w ->
  active (pc w) = true -> pc w <> AtAcquire ->
  exists a s', exec cap ext a s = Some s'.
Proof.
  intros Inv Hw Ha Hn.
  assert (is_Some (updatedPlaces s !! i)) as [place Hp].
  { apply lookup_lt_is_Some_2. rewrite (inv_places _ _ _ _ Inv), <- (inv_workers _ _ _ _ Inv).
    eapply lookup_lt_Some, Hw. }
  destruct (pc w) eqn:Hpc; try discriminate; try congruence.
  - exists (Check i). simpl. rewrite Hp.
    destruct (eligible place); erewrite advance_at by eauto; eauto.
  - exists (ExtractReturns i). simpl. rewrite Hp. erewrite advance_at by eauto. eauto.
  - exists (SleepDone i). simpl. erewrite advance_at by eauto. eauto.
  - exists (Release i). simpl. erewrite advance_at by eauto. eauto.
  - exists (BarAdd i). simpl. erewrite advance_at by eauto. eauto.
  - exists (WgDone i). simpl. erewrite advance_at by eauto. eauto.
Qed.

Lemma no_deadlock places s :
  0 < cap -> invariant cap ext places s -> main s <> Returned ->
  exists a s', exec cap ext a s = Some s'.
Proof.
  intros Hcap Inv Hm.
  (* a worker that holds a slot or is past the release can always move *)
  destruct (Nat.eq_dec
              (count (fun w => active (pc w) && negb (pc_eqb (pc w) AtAcquire)) (workers s)) 0)
    as [Hnone | Hsome].
  2: { destruct (count_exists
                   (fun w => active (pc w) && negb (pc_eqb (pc w) AtAcquire)) (workers s))
         as (i & w & Hw & Hp); [lia|].
       apply andb_prop in Hp as [Ha Hq].
       eapply worker_can_step; eauto.
       intros E. rewrite E in Hq. discriminate. }
  apply count_zero in Hnone.
  (* no slot is held: the semaphore is empty *)
  assert (semaphore s = 0) as Hsem.
  { rewrite (inv_semaphore _ _ _ _ Inv). unfold holding. apply count_all_false.
    pose proof (inv_slot _ _ _ _ Inv) as Hslot.
    apply Forall_lookup_2. intros i w Hw.
    pose proof (Forall_lookup_1 _ _ _ _ Hslot Hw) as E.
    pose proof (Forall_lookup_1 _ _ _ _ Hnone Hw) as F. cbv beta in E, F.
    rewrite E. destruct (pc w); simpl in *; congruence. }
  destruct (Nat.eq_dec (count (fun w => pc_eqb (pc w) AtAcquire) (workers s)) 0)
    as [Hnoacq | Hacq].
  2: { destruct (count_exists (fun w => pc_eqb (pc w) AtAcquire) (workers s))
         as (i & w & Hw & Hp); [lia|].
       apply pc_eqb_eq in Hp. exists (Acquire i). simpl. rewrite Hsem.
       destruct (Nat.ltb_spec 0 cap); [|lia]. erewrite advance_at by eauto. eauto. }
  apply count_zero in Hnoacq.
  (* every worker is either not started or finished *)
  pose proof (inv_main _ _ _ _ Inv) as Hmain. unfold main_ok in Hmain.
  destruct (main s) as [i| |] eqn:Em; [| |congruence].
  - destruct Hmain as [Hi Hmain].
    destruct (Nat.ltb_spec i (length (updatedPlaces s))) as [Hlt | Hge].
    + destruct (lookup_lt_is_Some_2 (workers s) i) as [w Hw].
      { rewrite (inv_workers _ _ _ _ Inv), <- (inv_places _ _ _ _ Inv). exact Hlt. }
      exists Spawn. simpl. rewrite Em.
      destruct (Nat.ltb_spec i (length (updatedPlaces s))); [|lia].
      erewrite advance_at; [eauto | exact Hw | apply (Hmain i w Hw); lia].
    + exists LoopExit. simpl. rewrite Em.
      destruct (Nat.ltb_spec i (length (updatedPlaces s))); [lia|]. eauto.
  - exists WaitReturns. simpl. rewrite Em.
    assert (wg s = 0) as ->; [|eauto].
    rewrite (inv_wg _ _ _ _ Inv). apply count_all_false.
    apply Forall_lookup_2. intros i w Hw.
    pose proof (Forall_lookup_1 _ _ _ _ Hnone Hw) as F.
    pose proof (Forall_lookup_1 _ _ _ _ Hnoacq Hw) as G. cbv beta in F, G.
    destruct (pc w); simpl in *; congruence.
Qed.

(** The steps a worker and the main goroutine still have to take. *)
Definition steps_left (p : worker_pc) : nat :=
  match p with
  | NotStarted => 8 | AtAcquire => 7 | AtCheck => 6 | Extracting => 5
  | Pacing => 4 | AtRelease => 3 | AtBarAdd => 2 | AtWgDone => 1 | Finished => 0
  end.

Fixpoint workers_left (ws : list worker) : nat :=
  match ws with
  | [] => 0
  | w :: ws' => steps_left (pc w) + workers_left ws'
  end.

Definition main_left (m : main_pc) : nat :=
  match m with Spawning _ => 2 | Waiting => 1 | Returned => 0 end.

Definition measure (s : state) : nat := main_left (main s) + workers_left (workers s).

Lemma workers_left_insert : forall ws i w w',
  ws !! i = Some w ->
  workers_left (<[i := w']> ws) + steps_left (pc w)
  = workers_left ws + steps_left (pc w').
Proof.
  induction ws as [|x ws IH]; intros [|i] w w' H; simpl in *; try discriminate.
  - injection H as ->. lia.
  - specialize (IH i w w' H). lia.
Qed.

Lemma exec_decreases a s s' : exec cap ext a s = Some s' -> measure s' < measure s.
Proof.
  intros H. unfold measure. destruct a; simpl in H.
  - destruct (main s) as [i| |] eqn:Em; try discriminate.
    destruct (Nat.ltb _ _); [|discriminate].
    apply advance_inv in H as (w & Hw & Hpc & ->); simpl.
    pose proof (workers_left_insert _ _ _ {| pc := AtAcquire; slot := false |} Hw) as E.
    rewrite Hpc in E. simpl in E. lia.
  - destruct (main s) as [i| |] eqn:Em; try discriminate.
    destruct (Nat.ltb _ _); [discriminate|]. injection H as <-. simpl. lia.
  - destruct (main s) eqn:Em; try discriminate. destruct (wg s); [|discriminate].
    injection H as <-. simpl. lia.
  - destruct (Nat.ltb _ _); [|discriminate].
    apply advance_inv in H as (w & Hw & Hpc & ->); simpl.
    pose proof (workers_left_insert _ _ _ {| pc := AtCheck; slot := true |} Hw) as E.
    rewrite Hpc in E. simpl in E. lia.
  - destruct (updatedPlaces s !! index) as [place|]; [|discriminate].
    destruct (eligible place); apply advance_inv in H as (w & Hw & Hpc & ->); simpl.
    + pose proof (workers_left_insert _ _ _ {| pc := Extracting; slot := true |} Hw) as E.
      rewrite Hpc in E. simpl in E. lia.
    + pose proof (workers_left_insert _ _ _ {| pc := AtRelease; slot := true |} Hw) as E.
      rewrite Hpc in E. simpl in E. lia.
  - destruct (updatedPlaces s !! index) as [place|]; [|discriminate].
    apply advance_inv in H as (w & Hw & Hpc & ->); simpl.
    pose proof (workers_left_insert _ _ _ {| pc := Pacing; slot := true |} Hw) as E.
    rewrite Hpc in E. simpl in E. lia.
  - apply advance_inv in H as (w & Hw & Hpc & ->); simpl.
    pose proof (workers_left_insert _ _ _ {| pc := AtRelease; slot := true |} Hw) as E.
    rewrite Hpc in E. simpl in E. lia.
  - apply advance_inv in H as (w & Hw & Hpc & ->); simpl.
    pose proof (workers_left_insert _ _ _ {| pc := AtBarAdd; slot := false |} Hw) as E.
    rewrite Hpc in E. simpl in E. lia.
  - apply advance_inv in H as (w & Hw & Hpc & ->); simpl.
    pose proof (workers_left_insert _ _ _ {| pc := AtWgDone; slot := false |} Hw) as E.
    rewrite Hpc in E. simpl in E. lia.
  - apply advance_inv in H as (w & Hw & Hpc & ->); simpl.
    pose proof (workers_left_insert _ _ _ {| pc := Finished; slot := false |} Hw) as E.
    rewrite Hpc in E. simpl in E. lia.
Qed.

Lemma run_decreases : forall trace s s',
  run cap ext trace s = Some s' -> measure s' + length trace <= measure s.
Proof.
  induction trace as [|a trace IH]; intros s s' H; simpl in H.
  - injection H as <-. simpl. lia.
  - destruct (exec cap ext a s) as [s1|] eqn:E; [|discriminate].
    apply exec_decreases in E. apply IH in H. simpl. lia.
Qed.

Lemma measure_init places : measure (init places) = 2 + 8 * length places.
Proof.
  unfold measure, init; simpl. f_equal. f_equal.
  induction (length places) as [|n IH]; simpl; [reflexivity | rewrite IH; lia].
Qed.

End PoolProgress.

(** X11: the pool cannot deadlock: with a semaphore of positive
    capacity, in every reachable state in which [wg.Wait()] has not
    returned some goroutine can take a step. *)
Theorem pool_no_deadlock (cap : nat) (ext : extractor)
    (places : list PlaceWithPhone) (s : state) :
  0 < cap -> reachable cap ext places s -> main s <> Returned ->
  exists a s', exec cap ext a s = Some s'.
Proof.
  intros Hcap Hr Hm. eapply no_deadlock; eauto. apply reachable_invariant, Hr.
Qed.

Lemma pool_no_deadlock_witness :
  exists a s', exec maxPhoneWorkers always_found a three_pacing = Some s'.
Proof.
  apply (pool_no_deadlock maxPhoneWorkers always_found four_listings three_pacing).
  - unfold maxPhoneWorkers. lia.
  - exists three_pacing_trace. vm_compute. reflexivity.
  - vm_compute. discriminate.
Defined.

(** X12: every run of the pool is finite: each step brings the pool
    closer to its end, and no run over [n] records has more than
    [8 * n + 2] steps. *)
Theorem pool_runs_bounded (cap : nat) (ext : extractor)
    (places : list PlaceWithPhone) (trace : list action) (s : state) :
  run cap ext trace (init places) = Some s ->
  length trace <= 8 * length places + 2
  /\ forall a s', exec cap ext a s = Some s' -> measure s' < measure s.
Proof.
  intros H. split.
  - apply run_decreases in H. rewrite measure_init in H. lia.
  - intros a s'. apply exec_decreases.
Qed.

Lemma pool_runs_bounded_witness :
  length three_pacing_trace <= 8 * length four_listings + 2
  /\ forall a s', exec maxPhoneWorkers always_found a three_pacing = Some s' ->
                  measure s' < measure three_pacing.
Proof.
  apply (pool_runs_bounded maxPhoneWorkers always_found four_listings
           three_pacing_trace three_pacing).
  vm_compute. reflexivity.
Defined.

Section PoolTicks.
Variable cap : nat.
Variable ext : extractor.

(** The program points after the deferred [bar.Add(1)]. *)
Definition ticked (w : worker) : bool :=
  match pc w with
  | AtWgDone | Finished => true
  | _ => false
  end.

Lemma exec_ticks a s s' :
  exec cap ext a s = Some s' ->
  bar s = count ticked (workers s) -> bar s' = count ticked (workers s').
Proof.
  intros H Hb. destruct a; simpl in H.
  - destruct (main s) as [i| |] eqn:Em; try discriminate.
    destruct (Nat.ltb _ _); [|discriminate].
    apply advance_inv in H as (w & Hw & Hpc & ->); simpl.
    pose proof (count_insert ticked _ _ _ {| pc := AtAcquire; slot := false |} Hw) as E.
    unfold ticked in E at 2 4. rewrite Hpc in E. simpl in E. lia.
  - destruct (main s) as [i| |] eqn:Em; try discriminate.
    destruct (Nat.ltb _ _); [discriminate|]. injection H as <-. exact Hb.
  - destruct (main s) eqn:Em; try discriminate. destruct (wg s); [|discriminate].
    injection H as <-. exact Hb.
  - destruct (Nat.ltb _ _); [|discriminate].
    apply advance_inv in H as (w & Hw & Hpc & ->); simpl.
    pose proof (count_insert ticked _ _ _ {| pc := AtCheck; slot := true |} Hw) as E.
    unfold ticked in E at 2 4. rewrite Hpc in E. simpl in E. lia.
  - destruct (updatedPlaces s !! index) as [place|]; [|discriminate].
    destruct (eligible place); apply advance_inv in H as (w & Hw & Hpc & ->); simpl.
    + pose proof (count_insert ticked _ _ _ {| pc := Extracting; slot := true |} Hw) as E.
      unfold ticked in E at 2 4. rewrite Hpc in E. simpl in E. lia.
    + pose proof (count_insert ticked _ _ _ {| pc := AtRelease; slot := true |} Hw) as E.
      unfold ticked in E at 2 4. rewrite Hpc in E. simpl in E. lia.
  - destruct (updatedPlaces s !! index) as [place|]; [|discriminate].
    apply advance_inv in H as (w & Hw & Hpc & ->); simpl.
    pose proof (count_insert ticked _ _ _ {| pc := Pacing; slot := true |} Hw) as E.
    unfold ticked in E at 2 4. rewrite Hpc in E. simpl in E. lia.
  - apply advance_inv in H as (w & Hw & Hpc & ->); simpl.
    pose proof (count_insert ticked _ _ _ {| pc := AtRelease; slot := true |} Hw) as E.
    unfold ticked in E at 2 4. rewrite Hpc in E. simpl in E. lia.
  - apply advance_inv in H as (w & Hw & Hpc & ->); simpl.
    pose proof (count_insert ticked _ _ _ {| pc := AtBarAdd; slot := false |} Hw) as E.
    unfold ticked in E at 2 4. rewrite Hpc in E. simpl in E. lia.
  - apply advance_inv in H as (w & Hw & Hpc & ->); simpl.
    pose proof (count_insert ticked _ _ _ {| pc := AtWgDone; slot := false |} Hw) as E.
    unfold ticked in E at 2 4. rewrite Hpc in E. simpl in E. lia.
  - apply advance_inv in H as (w & Hw & Hpc & ->); simpl.
    pose proof (count_insert ticked _ _ _ {| pc := Finished; slot := false |} Hw) as E.
    unfold ticked in E at 2 4. rewrite Hpc in E. simpl in E. lia.
Qed.

Lemma run_ticks : forall trace s s',
  run cap ext trace s = Some s' ->
  bar s = count ticked (workers s) -> bar s' = count ticked (workers s').
Proof.
  induction trace as [|a trace IH]; intros s s' H Hb; simpl in H.
  - injection H as <-. exact Hb.
  - destruct (exec cap ext a s) as [s1|] eqn:E; [|discriminate].
    eapply IH; [exact H|]. eapply exec_ticks; eassumption.
Qed.

Lemma count_bound (p : worker -> bool) ws : count p ws <= length ws.
Proof. induction ws as [|w ws IH]; simpl; [lia | destruct (p w); lia]. Qed.

Lemma count_all (p : worker -> bool) ws :
  Forall (fun w => p w = true) ws -> count p ws = length ws.
Proof. induction 1 as [|w ws Hw _ IH]; simpl; [reflexivity | rewrite Hw, IH; reflexivity]. Qed.

End PoolTicks.

(** X13: the progress bar is advanced once by every goroutine that has
    passed its deferred [bar.Add(1)], never more often than there are
    records, and exactly once per record, eligible or not, when
    [wg.Wait()] has returned. *)
Theorem pool_progress_ticks (cap : nat) (ext : extractor)
    (places : list PlaceWithPhone) (s : state) :
  reachable cap ext places s ->
  bar s = count ticked (workers s)
  /\ bar s <= length places
  /\ (main s = Returned -> bar s = length places).
Proof.
  intros Hr.
  assert (bar s = count ticked (workers s)) as Hb.
  { destruct Hr as [trace H]. eapply run_ticks; [exact H|].
    unfold init; simpl. induction (length places); simpl; auto. }
  pose proof (reachable_invariant _ _ _ _ Hr) as Inv.
  split; [exact Hb|]. split.
  - rewrite Hb, <- (inv_workers _ _ _ _ Inv). apply count_bound.
  - intros Hm. rewrite Hb, <- (inv_workers _ _ _ _ Inv). apply count_all.
    pose proof (inv_main _ _ _ _ Inv) as Hmain. unfold main_ok in Hmain.
    rewrite Hm in Hmain. eapply Forall_impl; [exact Hmain|].
    intros w Hw. unfold ticked. rewrite Hw. reflexivity.
Qed.

Lemma pool_progress_ticks_witness :
  bar three_pacing = count ticked (workers three_pacing)
  /\ bar three_pacing <= length four_listings
  /\ (main three_pacing = Returned -> bar three_pacing = length four_listings).
Proof.
  apply (pool_progress_ticks maxPhoneWorkers always_found four_listings three_pacing).
  exists three_pacing_trace. vm_compute. reflexivity.
Defined.

(** X14: a run of the pool never changes a record except for its
    extracted phone: at every moment each record of the slice has the
    fields of the input record of the same index, and its extracted phone
    is either the one of the input or, for an eligible record, the
    non-empty phone its extraction returned without error. *)
Theorem pool_changes_only_ScrapedPhone (cap : nat) (ext : extractor)
    (places : list PlaceWithPhone) (s : state) (index : nat) (place' : PlaceWithPhone) :
  reachable cap ext places s ->
  updatedPlaces s !! index = Some place' ->
  exists place,
    places !! index = Some place
    /\ Name place' = Name place /\ Address place' = Address place
    /\ Stars place' = Stars place /\ Reviews place' = Reviews place
    /\ Phone place' = Phone place /\ Hours place' = Hours place
    /\ Website place' = Website place /\ GoogleURL place' = GoogleURL place
    /\ (ScrapedPhone place' = ScrapedPhone place
        \/ (eligible place = true
            /\ ext index (GoogleURL place) = (ScrapedPhone place', None)
            /\ ScrapedPhone place' <> [])).
Proof.
  intros Hr Hu. apply reachable_invariant in Hr.
  destruct (lookup_lt_is_Some_2 (workers s) index) as [w Hw].
  { rewrite (inv_workers _ _ _ _ Hr), <- (inv_places _ _ _ _ Hr).
    eapply lookup_lt_Some, Hu. }
  destruct (inv_records _ _ _ _ Hr index w Hw) as (place & Hp & Hu' & _).
  rewrite Hu in Hu'. injection Hu' as ->. exists place. split; [exact Hp|].
  destruct (settled (pc w)); [|repeat split; auto].
  unfold final. destruct (eligible place); [|repeat split; auto].
  unfold store. destruct (ext index (GoogleURL place)) as [phone [e|]] eqn:E;
    [repeat split; auto|].
  destruct phone as [|c phone]; simpl; [repeat split; auto|].
  repeat split; auto; right; repeat split; auto; discriminate.
Qed.

Lemma pool_changes_only_ScrapedPhone_witness :
  exists place,
    four_listings !! 0 = Some place
    /\ Name (set_ScrapedPhone (str "222 123 4567") (listing "Spa Uno" "https://maps.example/1"))
       = Name place
    /\ Address (set_ScrapedPhone (str "222 123 4567") (listing "Spa Uno" "https://maps.example/1"))
       = Address place
    /\ Stars (set_ScrapedPhone (str "222 123 4567") (listing "Spa Uno" "https://maps.example/1"))
       = Stars place
    /\ Reviews (set_ScrapedPhone (str "222 123 4567") (listing "Spa Uno" "https://maps.example/1"))
       = Reviews place
    /\ Phone (set_ScrapedPhone (str "222 123 4567") (listing "Spa Uno" "https://maps.example/1"))
       = Phone place
    /\ Hours (set_ScrapedPhone (str "222 123 4567") (listing "Spa Uno" "https://maps.example/1"))
       = Hours place
    /\ Website (set_ScrapedPhone (str "222 123 4567") (listing "Spa Uno" "https://maps.example/1"))
       = Website place
    /\ GoogleURL (set_ScrapedPhone (str "222 123 4567") (listing "Spa Uno" "https://maps.example/1"))
       = GoogleURL place
    /\ (ScrapedPhone (set_ScrapedPhone (str "222 123 4567")
                        (listing "Spa Uno" "https://maps.example/1"))
        = ScrapedPhone place
        \/ (eligible place = true
            /\ always_found 0 (GoogleURL place)
               = (ScrapedPhone (set_ScrapedPhone (str "222 123 4567")
                                  (listing "Spa Uno" "https://maps.example/1")), None)
            /\ ScrapedPhone (set_ScrapedPhone (str "222 123 4567")
                               (listing "Spa Uno" "https://maps.example/1")) <> [])).
Proof.
  apply (pool_changes_only_ScrapedPhone maxPhoneWorkers always_found four_listings
           three_pacing 0).
  - exists three_pacing_trace. vm_compute. reflexivity.
  - vm_compute. reflexivity.
Defined.

(** ** Reading and writing the records *)

Import Output.

Section Records.

(** The place read from one record of at least eight fields. *)
Definition place_of_record (record : list gostring) : PlaceWithPhone :=
  {| Name := field record 0; Address := field record 1; Stars := field record 2;
     Reviews := field record 3; Phone := field record 4; Hours := field record 5;
     Website := field record 6; GoogleURL := field record 7; ScrapedPhone := [] |}.

Lemma readRows_whole records :
  Forall (fun r => 8 <= length r) records -> readRows records = place_of_record <$> records.
Proof.
  induction 1 as [|record records Hr _ IH]; [reflexivity|].
  cbn [readRows]. destruct (Nat.ltb_spec (length record) 8); [lia|].
  rewrite fmap_cons, IH. reflexivity.
Qed.

Lemma readRows_none records :
  Forall (fun r => length r < 8) records -> readRows records = [].
Proof.
  induction 1 as [|record records Hr _ IH]; [reflexivity|].
  cbn [readRows]. destruct (Nat.ltb_spec (length record) 8); [exact IH | lia].
Qed.

Lemma countPhonesFound_bound places : countPhonesFound places <= length places.
Proof.
  induction places as [|place places IH]; simpl; [lia|].
  destruct (is_empty (ScrapedPhone place)); lia.
Qed.

Fixpoint count_eligible (places : list PlaceWithPhone) : nat :=
  match places with
  | [] => 0
  | place :: rest => (if eligible place then 1 else 0) + count_eligible rest
  end.

Lemma count_succeeded_eligible ext : forall places k,
  count_succeeded ext k places <= count_eligible places.
Proof.
  induction places as [|place places IH]; intros k; simpl; [lia|].
  specialize (IH (S k)). unfold succeeded. destruct (eligible place); simpl; [|lia].
  destruct (ext k (GoogleURL place)) as [phone [e|]]; [lia|].
  destruct (negb (is_empty phone)); lia.
Qed.

Lemma count_eligible_bound places : count_eligible places <= length places.
Proof.
  induction places as [|place places IH]; simpl; [lia|]. destruct (eligible place); lia.
Qed.

Lemma percentage_bounds n t :
  n <= t -> 0 < t -> (0 <= percentage n t)%Q /\ (percentage n t <= 100)%Q.
Proof.
  intros Hn Ht. unfold percentage, Qle, Qdiv, Qmult, Qinv, inject_Z.
  destruct t as [|t]; [lia|]. cbn [Qnum Qden].
  rewrite Nat2Z.inj_succ. unfold Z.succ.
  destruct (Z.of_nat t + 1)%Z as [|p|p] eqn:E; try lia. cbn [Qnum Qden].
  assert (Z.of_nat n <= Z.pos p)%Z by lia.
  split.
  - simpl. lia.
  - rewrite !Pos2Z.inj_mul. nia.
Qed.

End Records.

(** X15: [reader.ReadAll] returns records that all have as many fields
    as the first one (its [FieldsPerRecord] is 0), or an error.  So the
    test [len(record) < 8] of [readCSV] decides for the file as a whole:
    a file of at least eight columns is read row by row, in order and
    without a gap; a file of fewer columns gives no place and no error,
    and [ProcessCSV] rejects it as holding no places, not as unreadable. *)
Theorem readCSV_all_or_nothing (head : list gostring) (records : list (list gostring)) :
  records <> [] ->
  Forall (fun r => length r = length head) records ->
  (8 <= length head ->
   readCSV (Some (head :: records)) = Some (place_of_record <$> records))
  /\ (length head < 8 ->
      readCSV (Some (head :: records)) = Some []
      /\ forall w, file w = Some (head :: records) ->
           err (ProcessCSV w) = Some ErrNoPlaces).
Proof.
  intros Hne Hall.
  assert (readCSV (Some (head :: records)) = Some (readRows records)) as E.
  { destruct records as [|r records]; [congruence | reflexivity]. }
  split; intros Hlen.
  - rewrite E, readRows_whole; [reflexivity|].
    eapply Forall_impl; [exact Hall|]. simpl. intros r Hr. lia.
  - assert (readRows records = []) as Hnone.
    { apply readRows_none. eapply Forall_impl; [exact Hall|]. simpl. intros r Hr. lia. }
    split; [rewrite E, Hnone; reflexivity|].
    intros w Hw. unfold ProcessCSV. rewrite Hw, E, Hnone. reflexivity.
Qed.

Lemma readCSV_all_or_nothing_witness :
  readCSV (Some five_records) = Some (place_of_record <$> drop 1 five_records).
Proof.
  pose proof (readCSV_all_or_nothing (default [] (five_records !! 0))
                (drop 1 five_records)) as H.
  destruct H as [H _].
  - vm_compute. discriminate.
  - vm_compute. repeat constructor.
  - apply H. vm_compute. lia.
Defined.

(** X17: in the summary of a completed batch the phones found are at
    most the eligible records, which are at most the records read, of
    which there is at least one; the rate lies between 0 and 100. *)
Theorem summary_bounds (w : world) :
  err (ProcessCSV w) = None ->
  exists places found q,
    readCSV (file w) = Some places
    /\ phonesFound (ProcessCSV w) = Some found
    /\ total (ProcessCSV w) = Some (length places)
    /\ rate (ProcessCSV w) = Some q
    /\ found <= count_eligible places <= length places
    /\ 0 < length places
    /\ (0 <= q)%Q /\ (q <= 100)%Q.
Proof.
  unfold ProcessCSV. destruct (readCSV (file w)) as [places|] eqn:Hread; [|discriminate].
  destruct (Nat.eqb_spec (length places) 0) as [|Hlen]; [discriminate|].
  destruct (chrome w); [|discriminate]. destruct (writable w); [|discriminate].
  simpl. intros _.
  pose proof (countPhonesFound_processed (ext w) places 0 (readCSV_fresh _ _ Hread)) as Hc.
  pose proof (count_succeeded_eligible (ext w) places 0) as H1.
  pose proof (count_eligible_bound places) as H2.
  unfold processPlacesWithPhones in *. rewrite processPlacesFrom_length, Hc.
  do 3 eexists. repeat split; try reflexivity; try lia;
    apply percentage_bounds; lia.
Qed.

Lemma summary_bounds_witness :
  exists places found q,
    readCSV (file scenario) = Some places
    /\ phonesFound (ProcessCSV scenario) = Some found
    /\ total (ProcessCSV scenario) = Some (length places)
    /\ rate (ProcessCSV scenario) = Some q
    /\ found <= count_eligible places <= length places
    /\ 0 < length places
    /\ (0 <= q)%Q /\ (q <= 100)%Q.
Proof.
  apply (summary_bounds scenario). vm_compute. reflexivity.
Defined.

(** ** The name of the output file *)

Section OutputName.

Lemma ReplaceFirst_absent old new : forall s,
  Contains s old = false -> ReplaceFirst s old new = s.
Proof.
  induction s as [|c s IH]; intros H.
  - cbn [Contains] in H. apply orb_false_elim in H as [H _].
    cbn [ReplaceFirst]. rewrite H. reflexivity.
  - cbn [Contains] in H. apply orb_false_elim in H as [H1 H2].
    cbn [ReplaceFirst]. rewrite H1, (IH H2). reflexivity.
Qed.

Lemma HasPrefix_nil s : HasPrefix s [] = true.
Proof. destruct s; reflexivity. Qed.

(** No occurrence of [.csv] starts in a text without one and runs into
    a following [.csv]. *)
Lemma no_early_csv : forall base rest,
  base <> [] -> Contains base (str ".csv") = false ->
  HasPrefix (base ++ str ".csv" ++ rest) (str ".csv") = false.
Proof.
  intros base rest Hne H. destruct base as [|c0 base]; [congruence|].
  cbn [Contains] in H. apply orb_false_elim in H as [H _].
  destruct base as [|c1 [|c2 [|c3 base]]]; simpl in *;
    rewrite ?HasPrefix_nil, ?andb_false_r, ?andb_true_r in *; try reflexivity; try exact H.
Qed.

Lemma ReplaceFirst_csv new : forall base rest,
  Contains base (str ".csv") = false ->
  ReplaceFirst (base ++ str ".csv" ++ rest) (str ".csv") new = base ++ new ++ rest.
Proof.
  induction base as [|c base IH]; intros rest H.
  - simpl. rewrite HasPrefix_nil. reflexivity.
  - pose proof (no_early_csv (c :: base) rest) as Hp.
    cbn [Contains] in H. apply orb_false_elim in H as [H1 H2].
    rewrite <- !app_comm_cons in *. cbn [ReplaceFirst].
    rewrite Hp; [|discriminate|cbn [Contains]; rewrite H1, H2; reflexivity].
    rewrite (IH rest H2). reflexivity.
Qed.

End OutputName.

(** X19: the output file of [ProcessCSV] is named by replacing the
    first [.csv] of the input path by [_with_phones.csv]; for a path
    without [.csv] the name is the input path itself, so the output is
    written over the input. *)
Theorem outputPath_cases (base rest csvPath : gostring) :
  (Contains base (str ".csv") = false ->
   outputPath (base ++ str ".csv" ++ rest) = base ++ str "_with_phones.csv" ++ rest)
  /\ (Contains csvPath (str ".csv") = false -> outputPath csvPath = csvPath).
Proof.
  unfold outputPath. split.
  - apply ReplaceFirst_csv.
  - apply ReplaceFirst_absent.
Qed.

Lemma outputPath_cases_witness :
  outputPath (str "prospects_spa_1km" ++ str ".csv" ++ [])
  = str "prospects_spa_1km" ++ str "_with_phones.csv" ++ []
  /\ outputPath (str "lugares.txt") = str "lugares.txt".
Proof.
  destruct (outputPath_cases (str "prospects_spa_1km") [] (str "lugares.txt")) as [H1 H2].
  split; [apply H1 | apply H2]; vm_compute; reflexivity.
Defined.

(** ** The broadcaster: one message after another *)

(** X20: a message leaves registered exactly the observers whose write
    did not fail, with their entries unchanged, and registers nobody;
    two messages in a row remove the observers whose write fails for
    either. *)
Theorem handleMessage_rounds (fails fails' : nat -> bool)
    (clients : gmap nat bool) (conn : nat) :
  handleMessage fails clients !! conn = (if fails conn then None else clients !! conn)
  /\ handleMessage fails' (handleMessage fails clients)
     = handleMessage (fun c => fails c || fails' c) clients.
Proof.
  split; [apply handleMessage_lookup|].
  apply map_eq. intros c. rewrite !handleMessage_lookup.
  destruct (fails c), (fails' c); reflexivity.
Qed.

(** ** The statistics of the web server on a file *)

Import WebServer.

Section FileStatistics.

Definition free_of (sep : ascii) (s : gostring) : Prop :=
  Forall (fun c => Ascii.eqb c sep = false) s.

Lemma Split_piece sep : forall piece s,
  free_of sep piece -> Split (piece ++ sep :: s) sep = piece :: Split s sep.
Proof.
  induction piece as [|c piece IH]; intros s H.
  - simpl. rewrite Ascii.eqb_refl. reflexivity.
  - apply Forall_cons_1 in H as [Hc H]. simpl. rewrite Hc, (IH s H). reflexivity.
Qed.

Lemma Split_last sep : forall piece, free_of sep piece -> Split piece sep = [piece].
Proof.
  induction piece as [|c piece IH]; intros H; [reflexivity|].
  apply Forall_cons_1 in H as [Hc H]. simpl. rewrite Hc, (IH H). reflexivity.
Qed.

(** Lines that all end with a line feed. *)
Definition terminated (lines : list gostring) : gostring :=
  concat (map (fun line => line ++ [newline]) lines).

Lemma Split_terminated : forall lines,
  Forall (free_of newline) lines ->
  Split (terminated lines) newline = lines ++ [[]].
Proof.
  induction 1 as [|line lines Hl _ IH]; [reflexivity|].
  unfold terminated in *. cbn [map concat]. rewrite <- app_assoc. cbn [app].
  rewrite (Split_piece _ _ _ Hl), IH. reflexivity.
Qed.

(** Lines separated by line feeds, none after the last. *)
Fixpoint separated (lines : list gostring) : gostring :=
  match lines with
  | [] => []
  | [line] => line
  | line :: rest => line ++ newline :: separated rest
  end.

Lemma Split_separated : forall lines,
  lines <> [] -> Forall (free_of newline) lines ->
  Split (separated lines) newline = lines.
Proof.
  induction lines as [|line lines IH]; intros Hne H; [congruence|].
  apply Forall_cons_1 in H as [Hl H]. destruct lines as [|line' lines].
  - simpl. apply Split_last, Hl.
  - change (separated (line :: line' :: lines))
      with (line ++ newline :: separated (line' :: lines)).
    rewrite (Split_piece _ _ _ Hl), IH; [reflexivity | discriminate | exact H].
Qed.

End FileStatistics.

(** X21: for a file whose lines all end with a line feed, as
    [encoding/csv] writes them, [countPlacesInCSV] reports as many places
    as the file has lines, the header included: one more than the data
    rows.  Only for a file without a final line feed is it the number of
    data rows.  A file that cannot be read counts for nothing, and no
    phone is counted when phones were not asked for. *)
Theorem countPlacesInCSV_places (head : gostring) (rows : list gostring) (includePhone : bool) :
  Forall (free_of newline) (head :: rows) ->
  fst (countPlacesInCSV (Some (terminated (head :: rows))) includePhone)
  = (Z.of_nat (length rows) + 1)%Z
  /\ fst (countPlacesInCSV (Some (separated (head :: rows))) includePhone)
     = Z.of_nat (length rows)
  /\ countPlacesInCSV None includePhone = (0, 0)%Z
  /\ snd (countPlacesInCSV (Some (terminated (head :: rows))) false) = 0%Z.
Proof.
  intros H. unfold countPlacesInCSV.
  assert (head :: rows <> []) as Hne by discriminate.
  rewrite (Split_terminated _ H), (Split_separated _ Hne H).
  rewrite length_app. cbn [length fst snd].
  repeat split.
  - destruct (Z.ltb_spec (Z.of_nat (S (length rows) + 1) - 1) 0); lia.
  - destruct (Z.ltb_spec (Z.of_nat (S (length rows)) - 1) 0); lia.
Qed.

Lemma countPlacesInCSV_places_witness :
  fst (countPlacesInCSV (Some (terminated [str "Name,Phone"; str "Uno,222"; str "Dos,"])) true)
  = (Z.of_nat (length [str "Uno,222"; str "Dos,"]) + 1)%Z
  /\ fst (countPlacesInCSV (Some (separated [str "Name,Phone"; str "Uno,222"; str "Dos,"])) true)
     = Z.of_nat (length [str "Uno,222"; str "Dos,"])
  /\ countPlacesInCSV None true = (0, 0)%Z
  /\ snd (countPlacesInCSV (Some (terminated [str "Name,Phone"; str "Uno,222"; str "Dos,"])) false)
     = 0%Z.
Proof.
  apply (countPlacesInCSV_places (str "Name,Phone") [str "Uno,222"; str "Dos,"] true).
  repeat constructor.
Defined.

Section SavedFileStatistics.

(** The records none of whose fields [encoding/csv] puts between
    quotes. *)
Definition plain_place (place : PlaceWithPhone) : Prop :=
  Forall (fun f => fieldNeedsQuotes f = false) (record place).

Lemma plain_field_free f sep :
  fieldNeedsQuotes f = false -> special sep = true -> free_of sep f.
Proof.
  intros H Hs. destruct f as [|c f]; [constructor|].
  unfold fieldNeedsQuotes in H.
  apply orb_false_elim in H as [H _]. apply orb_false_elim in H as [_ H].
  unfold free_of. rewrite Forall_forall. intros x Hx.
  destruct (Ascii.eqb x sep) eqn:E; [|reflexivity].
  apply Ascii.eqb_eq in E. subst x.
  assert (existsb special (c :: f) = true) as Ht.
  { apply existsb_exists. exists sep. split; [apply list_elem_of_In, Hx | exact Hs]. }
  congruence.
Qed.

Lemma free_of_app sep a b : free_of sep a -> free_of sep b -> free_of sep (a ++ b).
Proof. intros; apply Forall_app; auto. Qed.

Lemma joinFields_free sep : forall fields,
  Ascii.eqb "," sep = false -> Forall (free_of sep) fields -> free_of sep (joinFields fields).
Proof.
  intros fields Hc. induction 1 as [|f fields Hf Hfs IH]; [constructor|].
  destruct fields as [|g fields]; [exact Hf|].
  change (joinFields (f :: g :: fields)) with (f ++ ","%char :: joinFields (g :: fields)).
  apply free_of_app; [exact Hf|]. constructor; [exact Hc | exact IH].
Qed.

Lemma Split_joinFields : forall fields,
  fields <> [] -> Forall (free_of ",") fields -> Split (joinFields fields) "," = fields.
Proof.
  induction fields as [|f fields IH]; intros Hne H; [congruence|].
  apply Forall_cons_1 in H as [Hf H]. destruct fields as [|g fields].
  - simpl. apply Split_last, Hf.
  - change (joinFields (f :: g :: fields)) with (f ++ ","%char :: joinFields (g :: fields)).
    rewrite (Split_piece _ _ _ Hf), IH; [reflexivity | discriminate | exact H].
Qed.

Lemma TrimLeftByte_free s cut : free_of cut s -> TrimLeftByte s cut = s.
Proof. destruct 1 as [|c s Hc _]; [reflexivity|]. simpl. rewrite Hc. reflexivity. Qed.

Lemma Trim_free s cut : free_of cut s -> Trim s cut = s.
Proof.
  intros H. unfold Trim. rewrite (TrimLeftByte_free s cut H).
  rewrite TrimLeftByte_free; [apply rev_involutive|].
  apply List.Forall_rev, H.
Qed.

Lemma countPhoneColumns_app : forall l1 l2,
  countPhoneColumns (l1 ++ l2) = (countPhoneColumns l1 + countPhoneColumns l2)%Z.
Proof.
  induction l1 as [|line l1 IH]; intros l2; [reflexivity|].
  cbn [app countPhoneColumns]. rewrite IH. destruct (is_empty line); lia.
Qed.

Definition one_if_phone (s : gostring) : Z := if is_empty s then 0%Z else 1%Z.

(** The line written for a plain record is counted for its original
    phone and for its extracted phone. *)
Lemma line_counted place :
  plain_place place ->
  writeRecord (record place) = joinFields (record place) ++ [newline]
  /\ free_of newline (joinFields (record place))
  /\ countPhoneColumns [joinFields (record place)]
     = (one_if_phone (Phone place) + one_if_phone (ScrapedPhone place))%Z.
Proof.
  intros Hp.
  assert (map writeField (record place) = record place) as Hw.
  { unfold plain_place in Hp. induction Hp as [|f fs Hf _ IH]; [reflexivity|].
    cbn [map]. rewrite IH. unfold writeField. rewrite Hf. reflexivity. }
  assert (forall sep, special sep = true -> Forall (free_of sep) (record place)) as Hfree.
  { intros sep Hs. eapply Forall_impl; [exact Hp|].
    intros f Hf. apply plain_field_free; assumption. }
  split; [unfold writeRecord; rewrite Hw; reflexivity|].
  split; [apply joinFields_free; [reflexivity | apply Hfree; reflexivity]|].
  cbn [countPhoneColumns].
  assert (is_empty (joinFields (record place)) = false) as ->.
  { unfold record. cbn [joinFields]. destruct (Name place); reflexivity. }
  rewrite Split_joinFields; [|discriminate | apply Hfree; reflexivity].
  assert (free_of quote (Phone place) /\ free_of quote (ScrapedPhone place)) as [Hq1 Hq2].
  { pose proof (Hfree quote eq_refl) as Hq. unfold record in Hq.
    repeat (apply Forall_cons_1 in Hq as [? Hq]). auto. }
  unfold has_phone_at, record. cbn [length lookup list_lookup default Nat.ltb Nat.leb andb].
  change WebServer.quote with quote.
  rewrite !Trim_free by assumption. unfold one_if_phone. cbv [id].
  destruct (is_empty (Phone place)), (is_empty (ScrapedPhone place)); reflexivity.
Qed.

Fixpoint count_columns (places : list PlaceWithPhone) : Z :=
  match places with
  | [] => 0
  | place :: rest =>
      (one_if_phone (Phone place) + one_if_phone (ScrapedPhone place) + count_columns rest)%Z
  end.

Lemma saved_lines : forall places,
  Forall plain_place places ->
  concat (map writeRecord (map record places))
  = terminated (map (fun place => joinFields (record place)) places)
  /\ Forall (free_of newline) (map (fun place => joinFields (record place)) places)
  /\ countPhoneColumns (map (fun place => joinFields (record place)) places)
     = count_columns places.
Proof.
  induction 1 as [|place places Hp _ (IH1 & IH2 & IH3)]; [repeat split; constructor|].
  destruct (line_counted place Hp) as (Hw & Hf & Hc).
  cbn [map concat]. split; [|split].
  - rewrite Hw, IH1. reflexivity.
  - constructor; assumption.
  - change (joinFields (record place) :: map (fun p => joinFields (record p)) places)
      with ([joinFields (record place)] ++ map (fun p => joinFields (record p)) places).
    rewrite countPhoneColumns_app, Hc, IH3. cbn [count_columns]. lia.
Qed.

End SavedFileStatistics.

(** X22: on the file that [saveCSVWithPhones] writes for records none
    of whose fields needs quotes, [countPlacesInCSV] counts one place more
    than there are records, and counts as phones the original phones and
    the extracted phones, each for itself: a record with both counts
    twice. *)
Theorem countPlacesInCSV_saved (places : list PlaceWithPhone) :
  Forall plain_place places ->
  countPlacesInCSV (Some (savedFile places)) true
  = ((Z.of_nat (length places) + 1)%Z, count_columns places).
Proof.
  intros Hp. destruct (saved_lines places Hp) as (Hl & Hf & Hc).
  assert (savedFile places
          = terminated (joinFields header :: map (fun place => joinFields (record place)) places))
    as E.
  { unfold savedFile, saveCSVWithPhones. cbn [map concat]. rewrite Hl. reflexivity. }
  assert (free_of newline (joinFields header)) as Hh by (vm_compute; repeat constructor).
  unfold countPlacesInCSV. rewrite E, Split_terminated by (constructor; assumption).
  rewrite length_app, length_cons, length_map. cbn [length drop app].
  rewrite drop_0, countPhoneColumns_app, Hc. cbn [countPhoneColumns is_empty].
  f_equal; [|lia].
  destruct (Z.ltb_spec (Z.of_nat (S (length places) + 1) - 1) 0); lia.
Qed.

Lemma countPlacesInCSV_saved_witness :
  countPlacesInCSV (Some (savedFile four_listings)) true
  = ((Z.of_nat (length four_listings) + 1)%Z, count_columns four_listings).
Proof.
  apply (countPlacesInCSV_saved four_listings).
  repeat constructor.
Defined.

(** ** The batch as a whole *)

(** X23: what a completed [ProcessCSV] writes and counts does not depend
    on how the goroutines of the pool interleave: it is the slice of any
    run of the pool, with [maxPhoneWorkers] slots, that has passed
    [wg.Wait()], and such a run exists. *)
Theorem ProcessCSV_any_interleaving (w : world) (places : list PlaceWithPhone) :
  err (ProcessCSV w) = None -> readCSV (file w) = Some places ->
  (exists s, reachable maxPhoneWorkers (ext w) places s /\ main s = Returned)
  /\ forall s, reachable maxPhoneWorkers (ext w) places s -> main s = Returned ->
       saved (ProcessCSV w) = Some (updatedPlaces s)
       /\ phonesFound (ProcessCSV w) = Some (countPhonesFound (updatedPlaces s))
       /\ total (ProcessCSV w) = Some (length (updatedPlaces s)).
Proof.
  intros Herr Hread. split.
  - apply pool_can_return. unfold maxPhoneWorkers. lia.
  - intros s Hr Hm.
    destruct (pool_returned _ _ _ _ Hr Hm) as (-> & _ & _).
    revert Herr. unfold ProcessCSV. rewrite Hread.
    destruct (Nat.eqb (length places) 0); [discriminate|].
    destruct (chrome w); [|discriminate]. destruct (writable w); [|discriminate].
    simpl. auto.
Qed.

Lemma ProcessCSV_any_interleaving_witness :
  exists places,
    (exists s, reachable maxPhoneWorkers (ext scenario) places s /\ main s = Returned)
    /\ forall s, reachable maxPhoneWorkers (ext scenario) places s -> main s = Returned ->
         saved (ProcessCSV scenario) = Some (updatedPlaces s)
         /\ phonesFound (ProcessCSV scenario) = Some (countPhonesFound (updatedPlaces s))
         /\ total (ProcessCSV scenario) = Some (length (updatedPlaces s)).
Proof.
  eexists. apply (ProcessCSV_any_interleaving scenario).
  - vm_compute. reflexivity.
  - vm_compute. reflexivity.
Defined.

(** ** The names of the files of the web server *)

Section FileNames.

Lemma Contains_split old : forall s,
  Contains s old = true ->
  exists base rest, s = base ++ old ++ rest
    /\ forall new, ReplaceFirst s old new = base ++ new ++ rest.
Proof.
  induction s as [|c s IH]; intros H.
  - cbn [Contains] in H. rewrite orb_false_r in H.
    exists [], (drop (length old) []). split.
    + apply (HasPrefix_split old [] H).
    + intros new. cbn [ReplaceFirst]. rewrite H. reflexivity.
  - destruct (HasPrefix (c :: s) old) eqn:Hp.
    + exists [], (drop (length old) (c :: s)). split.
      * apply (HasPrefix_split old (c :: s) Hp).
      * intros new. cbn [ReplaceFirst]. rewrite Hp. reflexivity.
    + cbn [Contains] in H. rewrite Hp in H. cbn [orb] in H.
      destruct (IH H) as (base & rest & -> & Hr).
      exists (c :: base), rest. split; [reflexivity|].
      intros new. cbn [ReplaceFirst]. rewrite Hp, Hr. reflexivity.
Qed.

Lemma Contains_app_r old pre : forall t,
  Contains t old = true -> Contains (pre ++ t) old = true.
Proof.
  induction pre as [|c pre IH]; intros t H; [exact H|].
  rewrite <- app_comm_cons. cbn [Contains]. rewrite (IH t H). apply orb_true_r.
Qed.

Lemma HasSuffix_Contains s suffix :
  HasSuffix s suffix = true -> Contains s suffix = true.
Proof.
  unfold HasSuffix. intros H. apply HasPrefix_split in H.
  apply (f_equal (@rev ascii)) in H.
  rewrite rev_involutive, rev_app_distr, rev_involutive in H. rewrite H.
  apply Contains_app_r. rewrite <- (app_nil_r suffix) at 1. apply Contains_prefix.
Qed.

Lemma HasPrefix_mono p : forall s t,
  HasPrefix s p = true -> HasPrefix (s ++ t) p = true.
Proof.
  induction p as [|a p IH]; intros s t H; [apply HasPrefix_nil|].
  destruct s as [|c s]; [discriminate|].
  rewrite <- app_comm_cons. cbn [HasPrefix] in *.
  apply andb_prop in H as [-> H]. rewrite (IH s t H). reflexivity.
Qed.

(** A prefix that does not hold the byte [c] ends before the first [c]. *)
Lemma HasPrefix_before c t p : forall base,
  forallb (fun a => negb (Ascii.eqb c a)) p = true ->
  HasPrefix (base ++ c :: t) p = true -> HasPrefix base p = true.
Proof.
  induction p as [|a p IH] in |- *; intros base Hc H; [apply HasPrefix_nil|].
  cbn [forallb] in Hc. apply andb_prop in Hc as [Ha Hc].
  destruct base as [|b base].
  - cbn [app HasPrefix] in H. apply andb_prop in H as [H _].
    rewrite H in Ha. discriminate.
  - rewrite <- app_comm_cons in H. cbn [HasPrefix] in *.
    apply andb_prop in H as [-> H]. rewrite (IH base Hc H). reflexivity.
Qed.

Lemma Contains_byte c : forall s,
  Contains s [c] = existsb (fun a => Ascii.eqb a c) s.
Proof.
  induction s as [|a s IH]; [reflexivity|].
  cbn [Contains HasPrefix existsb]. rewrite IH, HasPrefix_nil, andb_true_r. reflexivity.
Qed.

Lemma renamed_prefix base rest :
  HasPrefix (base ++ str ".csv" ++ rest) (str "prospects_") = true ->
  HasPrefix (base ++ str "_with_phones.csv" ++ rest) (str "prospects_") = true.
Proof.
  intros H. apply HasPrefix_mono.
  apply (HasPrefix_before "." (str "csv" ++ rest)); [vm_compute; reflexivity | exact H].
Qed.

Lemma renamed_suffix base rest :
  HasSuffix (base ++ str ".csv" ++ rest) (str ".csv") = true ->
  HasSuffix (base ++ str "_with_phones.csv" ++ rest) (str ".csv") = true.
Proof.
  unfold HasSuffix. rewrite !rev_app_distr.
  change (rev (str ".csv")) with (str "vsc.").
  change (rev (str "_with_phones.csv")) with (str "vsc.senohp_htiw_").
  destruct (rev rest) as [|a [|b [|c [|d r]]]]; simpl;
    rewrite ?andb_false_r, ?HasPrefix_nil; try reflexivity; try discriminate.
  intros H. exact H.
Qed.

Lemma renamed_slash base rest :
  Contains (base ++ str ".csv" ++ rest) (str "/") = false ->
  Contains (base ++ str "_with_phones.csv" ++ rest) (str "/") = false.
Proof.
  change (str "/") with ["/"%char]. rewrite !Contains_byte, !existsb_app.
  intros H. apply orb_false_elim in H as [-> H]. apply orb_false_elim in H as [_ ->].
  reflexivity.
Qed.

Lemma renamed_dots rest : forall base,
  Contains (base ++ str ".csv" ++ rest) (str "..") = false ->
  Contains (base ++ str "_with_phones.csv" ++ rest) (str "..") = false.
Proof.
  induction base as [|c base IH]; intros H.
  - simpl in *. rewrite ?andb_false_r in *. exact H.
  - rewrite <- app_comm_cons in *. cbn [Contains] in *.
    apply orb_false_elim in H as [H1 H2]. rewrite (IH H2), orb_false_r.
    clear IH H2.
    destruct base as [|d base]; simpl in *;
      rewrite ?HasPrefix_nil, ?andb_false_r in *; [reflexivity | exact H1].
Qed.

Lemma Base_plain f :
  f <> [] -> Contains f (str "/") = false -> Base f = f.
Proof.
  intros Hne H. change (str "/") with ["/"%char] in H. rewrite Contains_byte in H.
  assert (Hr : existsb (fun a => Ascii.eqb a "/") (rev f) = false).
  { apply not_true_is_false. intros Hx. apply existsb_exists in Hx as (a & Ha & Hb).
    apply in_rev in Ha. assert (existsb (fun a => Ascii.eqb a "/") f = true) as Hy.
    { apply existsb_exists. eauto. } congruence. }
  unfold Base. destruct f as [|c f]; [congruence|]. cbn [is_empty].
  assert (Ht : forall r, existsb (fun a => Ascii.eqb a "/") r = false ->
                         TrimLeftByte r "/" = r /\ lastElementRev r = r).
  { induction r as [|a r IHr]; intros Hx; [split; reflexivity|].
    cbn [existsb] in Hx. apply orb_false_elim in Hx as [Ha Hx].
    cbn [TrimLeftByte lastElementRev]. rewrite Ha.
    destruct (IHr Hx) as [_ ->]. split; reflexivity. }
  destruct (Ht _ Hr) as [-> ->]. rewrite rev_involutive. reflexivity.
Qed.

End FileNames.

(** X24: the name [ProcessCSV] gives to its output, for an input file
    that [isValidFilename] accepts, is accepted as well: the result of
    the batch on a downloadable file is downloadable. *)
Theorem outputPath_valid (filename : gostring) :
  isValidFilename filename = true -> isValidFilename (outputPath filename) = true.
Proof.
  unfold isValidFilename.
  destruct (HasSuffix filename (str ".csv")) eqn:Hs; cbn [negb]; [|discriminate].
  destruct (Contains filename (str "..")) eqn:Hd; cbn [orb]; [discriminate|].
  destruct (Contains filename (str "/")) eqn:Hsl; [discriminate|].
  intros Hp.
  destruct (Contains_split _ _ (HasSuffix_Contains _ _ Hs)) as (base & rest & -> & Hr).
  unfold outputPath. rewrite Hr.
  rewrite (renamed_suffix _ _ Hs), (renamed_dots _ _ Hd), (renamed_slash _ _ Hsl).
  cbn [negb orb]. apply renamed_prefix, Hp.
Qed.

Lemma outputPath_valid_witness :
  isValidFilename (outputPath (str "prospects_spa_5.0km_20240102.csv")) = true.
Proof.
  apply (outputPath_valid (str "prospects_spa_5.0km_20240102.csv")).
  vm_compute. reflexivity.
Defined.

(** ** The file the web server reports *)

Section FindLatestFacts.
Variable Glob : gostring -> option (list gostring).
Variable Stat : gostring -> option Z.

Lemma matchesLoop_spec : forall ms f0 t0,
  (matchesLoop Stat ms (f0, t0) = (f0, t0)
   /\ forall m u, m ∈ ms -> Stat m = Some u -> (u <= t0)%Z)
  \/ exists l1 f l2 t,
       ms = l1 ++ f :: l2 /\ matchesLoop Stat ms (f0, t0) = (f, t)
       /\ Stat f = Some t /\ (t0 < t)%Z
       /\ (forall m u, m ∈ l1 -> Stat m = Some u -> (u < t)%Z)
       /\ (forall m u, m ∈ l2 -> Stat m = Some u -> (u <= t)%Z).
Proof.
  induction ms as [|m ms IH]; intros f0 t0.
  - left. split; [reflexivity|]. intros m u Hm. inversion Hm.
  - cbn [matchesLoop]. destruct (Stat m) as [tm|] eqn:Hst.
    + cbn [snd]. destruct (Z.ltb_spec t0 tm) as [Hlt|Hge].
      * right. destruct (IH m tm) as [[-> Hall] | (l1 & f & l2 & t & -> & -> & Hf & Ht & H1 & H2)].
        -- exists [], m, ms, tm. repeat split; try assumption.
           intros x u Hx. inversion Hx.
        -- exists (m :: l1), f, l2, t. repeat split; try assumption; try lia.
           intros x u Hx Hu. apply elem_of_cons in Hx as [-> | Hx]; [|eauto].
           rewrite Hst in Hu. injection Hu as <-. exact Ht.
      * destruct (IH f0 t0) as [[-> Hall] | (l1 & f & l2 & t & -> & -> & Hf & Ht & H1 & H2)].
        -- left. split; [reflexivity|].
           intros x u Hx Hu. apply elem_of_cons in Hx as [-> | Hx]; [|eauto].
           rewrite Hst in Hu. injection Hu as <-. exact Hge.
        -- right. exists (m :: l1), f, l2, t. repeat split; try assumption.
           intros x u Hx Hu. apply elem_of_cons in Hx as [-> | Hx]; [|eauto].
           rewrite Hst in Hu. injection Hu as <-. lia.
    + destruct (IH f0 t0) as [[-> Hall] | (l1 & f & l2 & t & -> & -> & Hf & Ht & H1 & H2)].
      * left. split; [reflexivity|].
        intros x u Hx Hu. apply elem_of_cons in Hx as [-> | Hx]; [congruence|eauto].
      * right. exists (m :: l1), f, l2, t. repeat split; try assumption.
        intros x u Hx Hu. apply elem_of_cons in Hx as [-> | Hx]; [congruence|eauto].
Qed.

Hypothesis names : forall p ms, Glob p = Some ms -> [] ∉ ms.

Lemma patternsLoop_spec : forall ps,
  (patternsLoop Glob Stat ps ([], 0%Z) = ([], 0%Z)
   /\ forall p ms m u, p ∈ ps -> Glob p = Some ms -> m ∈ ms -> Stat m = Some u -> (u <= 0)%Z)
  \/ exists before p after l1 f l2 t,
       ps = before ++ p :: after
       /\ (forall q ms m u, q ∈ before -> Glob q = Some ms -> m ∈ ms ->
                            Stat m = Some u -> (u <= 0)%Z)
       /\ Glob p = Some (l1 ++ f :: l2) /\ Stat f = Some t /\ (0 < t)%Z
       /\ (forall m u, m ∈ l1 -> Stat m = Some u -> (u < t)%Z)
       /\ (forall m u, m ∈ l2 -> Stat m = Some u -> (u <= t)%Z)
       /\ f <> []
       /\ patternsLoop Glob Stat ps ([], 0%Z) = (f, t).
Proof.
  induction ps as [|p ps IH].
  - left. split; [reflexivity|]. intros p ms m u Hp. inversion Hp.
  - cbn [patternsLoop]. destruct (Glob p) as [ms|] eqn:Hg.
    + destruct (matchesLoop_spec ms [] 0%Z)
        as [[-> Hall] | (l1 & f & l2 & t & -> & -> & Hf & Ht & H1 & H2)].
      * cbn [fst is_empty negb].
        destruct IH as [[-> Hrest] | (before & q & after & l1 & f & l2 & t & -> & Hb & Hq & Hf & Ht & H1 & H2 & Hne & ->)].
        -- left. split; [reflexivity|].
           intros q ms' m u Hq Hg' Hm Hu. apply elem_of_cons in Hq as [-> | Hq]; [|eauto].
           rewrite Hg in Hg'. injection Hg' as <-. eauto.
        -- right. exists (p :: before), q, after, l1, f, l2, t.
           repeat split; try assumption.
           intros q' ms' m u Hq' Hg' Hm Hu. apply elem_of_cons in Hq' as [-> | Hq']; [|eauto].
           rewrite Hg in Hg'. injection Hg' as <-. eauto.
      * assert (Hne : f <> []).
        { intros ->. apply (names _ _ Hg). apply elem_of_app. right. apply list_elem_of_here. }
        right. exists [], p, ps, l1, f, l2, t.
        destruct f as [|c f']; [congruence|]. cbn [fst is_empty negb].
        repeat split; try assumption.
        intros q ms' m u Hq. inversion Hq.
    + destruct IH as [[-> Hrest] | (before & q & after & l1 & f & l2 & t & -> & Hb & Hq & Hf & Ht & H1 & H2 & Hne & ->)].
      * left. split; [reflexivity|].
        intros q ms' m u Hq Hg' Hm Hu. apply elem_of_cons in Hq as [-> | Hq]; [congruence|eauto].
      * right. exists (p :: before), q, after, l1, f, l2, t.
        repeat split; try assumption.
        intros q' ms' m u Hq' Hg' Hm Hu. apply elem_of_cons in Hq' as [-> | Hq']; [congruence|eauto].
Qed.

End FindLatestFacts.

(** X25: [findLatestCSV] does not look for the latest file of the
    directory.  When the matches returned by [filepath.Glob] are names,
    it reports no file exactly when no match of any pattern has a
    modification time after the zero time; otherwise it reports a match
    [f] of the first pattern [p] that has such a match, and of that
    pattern alone: [f] is the first of the matches of [p] whose time is
    the greatest, the patterns after [p] are not consulted, and the name
    reported is [f] itself when [f] holds no separator. *)
Theorem findLatestCSV_selects
    (Glob : gostring -> option (list gostring)) (Stat : gostring -> option Z)
    (keyword radius1 radius0 : gostring) :
  (forall p ms, Glob p = Some ms -> [] ∉ ms) ->
  (findLatestCSV Glob Stat keyword radius1 radius0 = ([], [])
   /\ forall p ms m u, p ∈ patterns keyword radius1 radius0 -> Glob p = Some ms ->
                       m ∈ ms -> Stat m = Some u -> (u <= 0)%Z)
  \/ exists before p after l1 f l2 t,
       patterns keyword radius1 radius0 = before ++ p :: after
       /\ (forall q ms m u, q ∈ before -> Glob q = Some ms -> m ∈ ms ->
                            Stat m = Some u -> (u <= 0)%Z)
       /\ Glob p = Some (l1 ++ f :: l2) /\ Stat f = Some t /\ (0 < t)%Z
       /\ (forall m u, m ∈ l1 -> Stat m = Some u -> (u < t)%Z)
       /\ (forall m u, m ∈ l2 -> Stat m = Some u -> (u <= t)%Z)
       /\ findLatestCSV Glob Stat keyword radius1 radius0 = (Base f, f)
       /\ (Contains f (str "/") = false ->
           findLatestCSV Glob Stat keyword radius1 radius0 = (f, f)).
Proof.
  intros Hnames. unfold findLatestCSV.
  destruct (patternsLoop_spec Glob Stat Hnames (patterns keyword radius1 radius0))
    as [[-> Hall] | (before & p & after & l1 & f & l2 & t & Hps & Hb & Hg & Hf & Ht & H1 & H2 & Hne & ->)].
  - left. split; [reflexivity | exact Hall].
  - right. exists before, p, after, l1, f, l2, t.
    destruct f as [|c f']; [congruence|]. cbn [fst is_empty negb].
    repeat split; try assumption.
    intros Hs. rewrite (Base_plain (c :: f') Hne Hs). reflexivity.
Qed.

(** A directory with two files of the search and a newer file of
    another search. *)
Definition listing_glob (p : gostring) : option (list gostring) :=
  if List.list_eq_dec ascii_dec p (str "prospects_spa_*.csv")
  then Some [str "prospects_spa_old.csv"; str "prospects_spa_new.csv"]
  else if List.list_eq_dec ascii_dec p (str "prospects_*.csv")
       then Some [str "prospects_bar_newest.csv"]
       else Some [].

Definition listing_stat (m : gostring) : option Z :=
  if List.list_eq_dec ascii_dec m (str "prospects_spa_old.csv") then Some 10%Z
  else if List.list_eq_dec ascii_dec m (str "prospects_spa_new.csv") then Some 20%Z
  else if List.list_eq_dec ascii_dec m (str "prospects_bar_newest.csv") then Some 30%Z
  else None.

Lemma listing_glob_names p ms : listing_glob p = Some ms -> [] ∉ ms.
Proof.
  unfold listing_glob. intros H Hx.
  destruct (List.list_eq_dec ascii_dec p (str "prospects_spa_*.csv"));
    [|destruct (List.list_eq_dec ascii_dec p (str "prospects_*.csv"))];
    injection H as <-;
    repeat (apply elem_of_cons in Hx as [Hx|Hx]; [discriminate|]); inversion Hx.
Qed.

Lemma findLatestCSV_selects_witness :
  findLatestCSV listing_glob listing_stat (str "spa") (str "5.0") (str "5")
  = (str "prospects_spa_new.csv", str "prospects_spa_new.csv")
  /\ ((findLatestCSV listing_glob listing_stat (str "spa") (str "5.0") (str "5") = ([], [])
   /\ forall p ms m u, p ∈ patterns (str "spa") (str "5.0") (str "5") ->
                       listing_glob p = Some ms ->
                       m ∈ ms -> listing_stat m = Some u -> (u <= 0)%Z)
  \/ exists before p after l1 f l2 t,
       patterns (str "spa") (str "5.0") (str "5") = before ++ p :: after
       /\ (forall q ms m u, q ∈ before -> listing_glob q = Some ms -> m ∈ ms ->
                            listing_stat m = Some u -> (u <= 0)%Z)
       /\ listing_glob p = Some (l1 ++ f :: l2) /\ listing_stat f = Some t /\ (0 < t)%Z
       /\ (forall m u, m ∈ l1 -> listing_stat m = Some u -> (u < t)%Z)
       /\ (forall m u, m ∈ l2 -> listing_stat m = Some u -> (u <= t)%Z)
       /\ findLatestCSV listing_glob listing_stat (str "spa") (str "5.0") (str "5") = (Base f, f)
       /\ (Contains f (str "/") = false ->
           findLatestCSV listing_glob listing_stat (str "spa") (str "5.0") (str "5") = (f, f))).
Proof.
  split; [vm_compute; reflexivity|].
  exact (findLatestCSV_selects listing_glob listing_stat (str "spa") (str "5.0") (str "5")
           listing_glob_names).
Defined.
